(** * Polycube enumeration (cubes.py): a shallow embedding and its properties

    The development follows [cubes.py]: numpy arrays are modelled by their
    shape together with their cells in row-major (C) order, the numpy
    primitives used by the program ([flip], [swapaxes], [rot90], [pad],
    [nonzero], slicing along the leading axis) are written out over that
    representation, and the functions of the program
    ([all_rotations], [crop_cube], [expand_cube], [rle], [cube_exists_rle],
    [generate_polycubes]) are translated one to one on top of them. *)

From Stdlib Require Import ZArith Lia List Bool Permutation.
From stdpp Require Import base gmap mapset list.
Import ListNotations.

Local Open Scope nat_scope.

(** ** Exceptions *)

Module Exn.

(** The only exception the modelled functions can raise is the
    [IndexError] of [cube[0]] / [cube[-1]] on an array whose leading
    dimension is zero. *)
Inductive exn := IndexError.

Inductive result (A : Type) : Type :=
| Ok (a : A)
| Raise (e : exn).
Arguments Ok {A} a.
Arguments Raise {A} e.

Definition bind {A B} (m : result A) (k : A -> result B) : result B :=
  match m with
  | Ok a => k a
  | Raise e => Raise e
  end.

(** Runs [f] on every element, left to right, stopping at the first
    exception: a [for] loop over a generator whose body may raise. *)
Fixpoint traverse {A B} (f : A -> result B) (l : list A) : result (list B) :=
  match l with
  | [] => Ok []
  | a :: l' => bind (f a) (fun b => bind (traverse f l') (fun bs => Ok (b :: bs)))
  end.

(** A [for] loop threading a state through a body that may raise. *)
Fixpoint foldM {A S} (f : S -> A -> result S) (l : list A) (s : S) : result S :=
  match l with
  | [] => Ok s
  | a :: l' => bind (f s a) (foldM f l')
  end.

End Exn.
Import Exn.

Notation "'let*' p ':=' m 'in' k" := (bind m (fun p => k))
  (at level 10, p pattern, m at level 100, k at level 200, only parsing).

(** ** Axes, index triples and arrays *)

Inductive axis := Ax0 | Ax1 | Ax2.

Definition axis_eqb (a b : axis) : bool :=
  match a, b with
  | Ax0, Ax0 | Ax1, Ax1 | Ax2, Ax2 => true
  | _, _ => false
  end.

Definition proj {A} (a : axis) (t : A * A * A) : A :=
  let '(x, y, z) := t in
  match a with Ax0 => x | Ax1 => y | Ax2 => z end.

Definition mk3 {A} (h : axis -> A) : A * A * A := (h Ax0, h Ax1, h Ax2).

Definition index : Type := nat * nat * nat.

(** A 3-D numpy array of [np.byte]: its [shape] and its cells in row-major
    order (what [.flat] iterates over). *)
Record grid := Grid { shape : nat * nat * nat; flat : list Z }.

Definition vol (s : nat * nat * nat) : nat := let '(x, y, z) := s in x * (y * z).

Definition offset (s : nat * nat * nat) (i : index) : nat :=
  let '(_, ny, nz) := s in let '(x, y, z) := i in x * (ny * nz) + (y * nz + z).

Definition in_range (s : nat * nat * nat) (i : index) : Prop :=
  proj Ax0 i < proj Ax0 s /\ proj Ax1 i < proj Ax1 s /\ proj Ax2 i < proj Ax2 s.

(** The consistency numpy maintains between a shape and its buffer. *)
Definition wf (g : grid) : Prop := length (flat g) = vol (shape g).

(** [g[x, y, z]] for an index inside the shape. *)
Definition get (g : grid) (i : index) : Z := nth (offset (shape g) i) (flat g) 0%Z.

(** All indices of a shape in row-major order ([np.ndindex]). *)
Definition indices (s : nat * nat * nat) : list index :=
  let '(nx, ny, nz) := s in
  flat_map (fun x => flat_map (fun y => map (fun z => (x, y, z)) (seq 0 nz)) (seq 0 ny))
           (seq 0 nx).

(** The array of shape [s] whose cell at [i] is [f i]. *)
Definition tabulate (s : nat * nat * nat) (f : index -> Z) : grid :=
  Grid s (map f (indices s)).

(** [np.ones(s, dtype=np.byte)] *)
Definition ones (s : nat * nat * nat) : grid := tabulate s (fun _ => 1%Z).

(** ** The numpy primitives the program uses *)

Definition swap_axis (a b c : axis) : axis :=
  if axis_eqb c a then b else if axis_eqb c b then a else c.

Definition swap3 {A} (a b : axis) (t : A * A * A) : A * A * A :=
  mk3 (fun c => proj (swap_axis a b c) t).

(** [np.swapaxes(g, a, b)], which is also [np.transpose] with the axes list
    in which [a] and [b] are exchanged. *)
Definition swapaxes (g : grid) (a b : axis) : grid :=
  tabulate (swap3 a b (shape g)) (fun i => get g (swap3 a b i)).

Definition rev_at (a : axis) (s : nat * nat * nat) (i : index) : index :=
  mk3 (fun c => if axis_eqb c a then proj c s - 1 - proj c i else proj c i).

(** [np.flip(g, a)] *)
Definition flip (g : grid) (a : axis) : grid :=
  tabulate (shape g) (fun i => get g (rev_at a (shape g) i)).

(** [np.rot90(m, k, axes=(a, b))], following numpy's definition: [k] is
    reduced modulo 4, then the rotation is a composition of [flip] and
    [transpose].  (numpy rejects [a = b]; the program never passes it.) *)
Definition rot90 (m : grid) (k : Z) (axes : axis * axis) : grid :=
  let '(a, b) := axes in
  let k := (k mod 4)%Z in
  if (k =? 0)%Z then m
  else if (k =? 2)%Z then flip (flip m a) b
  else if (k =? 1)%Z then swapaxes (flip m b) a b
  else flip (swapaxes m a b) b.

(** [np.pad(g, 1, 'constant', constant_values=0)] *)
Definition pad (g : grid) : grid :=
  let '(nx, ny, nz) := shape g in
  tabulate (nx + 2, ny + 2, nz + 2)
    (fun '(x, y, z) =>
       if (1 <=? x) && (x <=? nx) && (1 <=? y) && (y <=? ny) && (1 <=? z) && (z <=? nz)
       then get g (x - 1, y - 1, z - 1) else 0%Z).

(** [g.nonzero()]: the indices of the non-zero cells, in row-major order. *)
Definition nonzero (g : grid) : list index :=
  List.filter (fun i => negb (get g i =? 0)%Z) (indices (shape g)).

(** [g[i] = v] on a copy of [g], for an index inside the shape. *)
Definition set_cell (g : grid) (i : index) (v : Z) : grid :=
  Grid (shape g) (<[offset (shape g) i := v]> (flat g)).

(** [g[xs, ys, zs] = v] with index arrays: one assignment per index. *)
Definition set_cells (g : grid) (idxs : list index) (v : Z) : grid :=
  fold_left (fun acc i => set_cell acc i v) idxs g.

(** [g1 ^ g2], cell by cell. *)
Definition xor (g1 g2 : grid) : grid :=
  Grid (shape g1) (zip_with Z.lxor (flat g1) (flat g2)).

(** [np.all(s == 0)] on the cells of a slice (true on an empty slice) *)
Definition all_zero (s : list Z) : bool := forallb (fun c => (c =? 0)%Z) s.

(** ** all_rotations *)

Definition single_axis_rotation (polycube : grid) (axes : axis * axis) : list grid :=
  map (fun i => rot90 polycube (Z.of_nat i) axes) (seq 0 4).

Definition all_rotations (polycube : grid) : list grid :=
  single_axis_rotation polycube (Ax1, Ax2)
  ++ single_axis_rotation (rot90 polycube 2 (Ax0, Ax2)) (Ax1, Ax2)
  ++ single_axis_rotation (rot90 polycube 1 (Ax0, Ax2)) (Ax0, Ax1)
  ++ single_axis_rotation (rot90 polycube (-1) (Ax0, Ax2)) (Ax0, Ax1)
  ++ single_axis_rotation (rot90 polycube 1 (Ax0, Ax1)) (Ax0, Ax2)
  ++ single_axis_rotation (rot90 polycube (-1) (Ax0, Ax1)) (Ax0, Ax2).

(** ** crop_cube *)

(** [while np.all(cube[0] == 0): cube = cube[1:]] on the array of shape
    [(nx, ny, nz)] with cells [d], where [m = ny * nz] is the size of one
    slice along the leading axis.  [cube[0]] raises [IndexError] when the
    leading dimension is zero.  Every iteration removes one slice, so the
    loop is a recursion on [nx]. *)
Fixpoint strip_leading (nx m : nat) (d : list Z) : result (nat * list Z) :=
  match nx with
  | 0 => Raise IndexError
  | S nx' =>
      if all_zero (take m d) then strip_leading nx' m (drop m d) else Ok (nx, d)
  end.

(** [while np.all(cube[-1] == 0): cube = cube[:-1]] *)
Fixpoint strip_trailing (nx m : nat) (d : list Z) : result (nat * list Z) :=
  match nx with
  | 0 => Raise IndexError
  | S nx' =>
      if all_zero (take m (drop (nx' * m) d))
      then strip_trailing nx' m (take (nx' * m) d) else Ok (nx, d)
  end.

(** One iteration of the [for i in range(cube.ndim)] loop. *)
Definition crop_axis (cube : grid) (i : axis) : result grid :=
  let cube := swapaxes cube Ax0 i in
  let '(nx, ny, nz) := shape cube in
  let* (nx1, d1) := strip_leading nx (ny * nz) (flat cube) in
  let* (nx2, d2) := strip_trailing nx1 (ny * nz) d1 in
  Ok (swapaxes (Grid (nx2, ny, nz) d2) Ax0 i).

Definition crop_cube (cube : grid) : result grid :=
  let* cube := crop_axis cube Ax0 in
  let* cube := crop_axis cube Ax1 in
  crop_axis cube Ax2.

(** ** expand_cube *)

Definition shift_up (a : axis) (i : index) : index :=
  mk3 (fun c => if axis_eqb c a then proj c i + 1 else proj c i).

Definition shift_down (a : axis) (i : index) : index :=
  mk3 (fun c => if axis_eqb c a then proj c i - 1 else proj c i).

(** The padded input: [cube = np.pad(cube, 1, ...)]. *)
Definition expand_padded (cube : grid) : grid := pad cube.

(** [output_cube] after the six index-array assignments. *)
Definition expand_output (cube : grid) : grid :=
  let cube := expand_padded cube in
  let output_cube := cube in
  let nz := nonzero cube in
  let output_cube := set_cells output_cube (map (shift_up Ax0) nz) 1 in
  let output_cube := set_cells output_cube (map (shift_down Ax0) nz) 1 in
  let output_cube := set_cells output_cube (map (shift_up Ax1) nz) 1 in
  let output_cube := set_cells output_cube (map (shift_down Ax1) nz) 1 in
  let output_cube := set_cells output_cube (map (shift_up Ax2) nz) 1 in
  let output_cube := set_cells output_cube (map (shift_down Ax2) nz) 1 in
  output_cube.

(** [zip(exp[0], exp[1], exp[2])] for [exp = (output_cube ^ cube).nonzero()] *)
Definition expand_positions (cube : grid) : list index :=
  nonzero (xor (expand_output cube) (expand_padded cube)).

(** The arrays [new_cube] handed to [crop_cube], in the order of the loop. *)
Definition expand_candidates (cube : grid) : list grid :=
  map (fun i => set_cell (expand_padded cube) i 1) (expand_positions cube).

(** The grids the generator yields, or the exception [crop_cube] raises. *)
Definition expand_cube (cube : grid) : result (list grid) :=
  traverse crop_cube (expand_candidates cube).

(** ** rle *)

Record rle_state := RleState { rle_r : list Z; rle_current : option Z; rle_val : Z }.

Definition rle_emit (current : option Z) (val : Z) : Z :=
  match current with
  | Some c => if (c =? 1)%Z then val else (- val)%Z
  | None => (- val)%Z
  end.

(** The body of [for x in polycube.flat]. *)
Definition rle_step (st : rle_state) (x : Z) : rle_state :=
  match rle_current st with
  | None => RleState (rle_r st) (Some x) 1
  | Some c =>
      if (c =? x)%Z then RleState (rle_r st) (Some c) (rle_val st + 1)
      else RleState (rle_r st ++ [rle_emit (Some c) (rle_val st)]) (Some x) 1
  end.

Definition shape_list (s : nat * nat * nat) : list Z :=
  let '(x, y, z) := s in [Z.of_nat x; Z.of_nat y; Z.of_nat z].

Definition rle (polycube : grid) : list Z :=
  let st := fold_left rle_step (flat polycube)
                      (RleState (shape_list (shape polycube)) None 0) in
  rle_r st ++ [rle_emit (rle_current st) (rle_val st)].

(** ** cube_exists_rle *)

Definition cube_exists_rle (polycube : grid) (polycubes_rle : gset (list Z)) : bool :=
  existsb (fun cube_rotation => bool_decide (rle cube_rotation ∈ polycubes_rle))
          (all_rotations polycube).

(** [polycubes_rle.add(x)]: one insertion into the set. *)
Definition set_add (x : list Z) (s : gset (list Z)) : gset (list Z) :=
  let (m) := s in Mapset (<[x := tt]> m).

(** ** generate_polycubes (with [use_cache=False]) *)

(** The body of the inner loop, on the pair [(polycubes, polycubes_rle)]. *)
Definition consider (st : list grid * gset (list Z)) (new_cube : grid)
  : list grid * gset (list Z) :=
  let '(polycubes, polycubes_rle) := st in
  if cube_exists_rle new_cube polycubes_rle then st
  else (polycubes ++ [new_cube], set_add (rle new_cube) polycubes_rle).

(** The body of the outer loop. *)
Definition grow (st : list grid * gset (list Z)) (base_cube : grid)
  : result (list grid * gset (list Z)) :=
  let* new_cubes := expand_cube base_cube in
  Ok (fold_left consider new_cubes st).

(** Everything after [base_cubes = generate_polycubes(n-1, use_cache)]. *)
Definition next_level (base_cubes : list grid) : result (list grid) :=
  let* st := foldM grow base_cubes ([], ∅) in
  Ok (fst st).

(** The function on [n >= 1]; the recursive call is on [n - 1]. *)
Fixpoint generate_level (n : nat) : result (list grid) :=
  match n with
  | 0 => Ok []
  | 1 => Ok [ones (1, 1, 1)]
  | 2 => Ok [ones (2, 1, 1)]
  | S n' => let* base_cubes := generate_level n' in next_level base_cubes
  end.

Definition generate_polycubes (n : Z) : result (list grid) :=
  if (n <? 1)%Z then Ok [] else generate_level (Z.to_nat n).

Definition result_length {A} (r : result (list A)) : option nat :=
  match r with Ok l => Some (length l) | Raise _ => None end.


(** * Specification vocabulary *)

(** ** Occupancy, tightness, connectivity *)

(** A cell of the array that holds a non-zero value. *)
Definition occupied (g : grid) (i : index) : Prop :=
  in_range (shape g) i /\ get g i <> 0%Z.

(** A {0,1} array: the voxel grids of the program. *)
Definition binary (g : grid) : Prop := Forall (fun c => c = 0%Z \/ c = 1%Z) (flat g).

(** The number of occupied cells ([np.count_nonzero]). *)
Definition count_occupied (g : grid) : nat := length (nonzero g).

(** Both boundary slices along axis [a] hold an occupied cell. *)
Definition tight_axis (g : grid) (a : axis) : Prop :=
  (exists i, occupied g i /\ proj a i = 0) /\
  (exists i, occupied g i /\ proj a i + 1 = proj a (shape g)).

(** Bounding-box tightness: no all-zero boundary slice on any axis. *)
Definition tight (g : grid) : Prop := forall a, tight_axis g a.

(** Face adjacency: the two indices differ by one along exactly one axis. *)
Definition adjacent (i j : index) : Prop :=
  exists a, j = shift_up a i \/ i = shift_up a j.

(** A path of face-adjacent occupied cells. *)
Inductive path (g : grid) : index -> index -> Prop :=
| path_here i : occupied g i -> path g i i
| path_step i j k : occupied g i -> adjacent i j -> path g j k -> path g i k.

Definition connected (g : grid) : Prop :=
  forall i j, occupied g i -> occupied g j -> path g i j.

Definition add3 (i lo : index) : index := mk3 (fun a => proj a i + proj a lo).

Definition sub3 (i lo : index) : index := mk3 (fun a => proj a i - proj a lo).

(** [g'] is the sub-array of [g] that starts at [lo], and every occupied
    cell of [g] lies inside it: same occupied cells, same relative
    positions. *)
Record is_window (g g' : grid) (lo : index) : Prop := IsWindow {
  win_wf : wf g';
  win_fits : forall a, proj a lo + proj a (shape g') <= proj a (shape g);
  win_get : forall i, in_range (shape g') i -> get g' i = get g (add3 i lo);
  win_all : forall j, occupied g j ->
            forall a, proj a lo <= proj a j < proj a lo + proj a (shape g')
}.

(** ** The rotation group of the cube *)

Module Rotation.

(** A signed permutation of the axes: input axis [b] is sent to output
    axis [target r b], reversed when [flipped r b].  As a linear map it
    sends the unit vector [e_b] to [+e_(target b)] or [-e_(target b)]. *)
Definition srot : Type := (axis * axis * axis) * (bool * bool * bool).

Definition target (r : srot) (b : axis) : axis := proj b (fst r).
Definition flipped (r : srot) (b : axis) : bool := proj b (snd r).

Definition is_perm (r : srot) : bool :=
  negb (axis_eqb (target r Ax0) (target r Ax1))
  && negb (axis_eqb (target r Ax0) (target r Ax2))
  && negb (axis_eqb (target r Ax1) (target r Ax2)).

(** The input axis that is sent to output axis [a]. *)
Definition source (r : srot) (a : axis) : axis :=
  if axis_eqb (target r Ax0) a then Ax0
  else if axis_eqb (target r Ax1) a then Ax1 else Ax2.

Definition rotated_shape (r : srot) (s : nat * nat * nat) : nat * nat * nat :=
  mk3 (fun a => proj (source r a) s).

(** The input cell that lands on output cell [i]. *)
Definition preimage (r : srot) (s : nat * nat * nat) (i : index) : index :=
  mk3 (fun b => if flipped r b then proj b s - 1 - proj (target r b) i
                else proj (target r b) i).

(** The image of an array under [r]. *)
Definition act (r : srot) (g : grid) : grid :=
  tabulate (rotated_shape r (shape g)) (fun i => get g (preimage r (shape g) i)).

(** The matrix of [r] and its determinant. *)
Definition entry (r : srot) (a b : axis) : Z :=
  if axis_eqb (target r b) a then (if flipped r b then -1 else 1)%Z else 0%Z.

Definition det (r : srot) : Z :=
  let m := entry r in
  (m Ax0 Ax0 * (m Ax1 Ax1 * m Ax2 Ax2 - m Ax1 Ax2 * m Ax2 Ax1)
   - m Ax0 Ax1 * (m Ax1 Ax0 * m Ax2 Ax2 - m Ax1 Ax2 * m Ax2 Ax0)
   + m Ax0 Ax2 * (m Ax1 Ax0 * m Ax2 Ax1 - m Ax1 Ax1 * m Ax2 Ax0))%Z.

Definition all_axes : list axis := [Ax0; Ax1; Ax2].

Definition triples {A} (l : list A) : list (A * A * A) :=
  list_prod (list_prod l l) l.

Definition all_srots : list srot :=
  list_prod (triples all_axes) (triples [false; true]).

(** The proper rotations of the cube: the signed permutation matrices of
    determinant 1. *)
Definition proper (r : srot) : bool := is_perm r && (det r =? 1)%Z.

Definition rotation_group : list srot := List.filter proper all_srots.

(** [r1] followed by [r2]. *)
Definition comp (r1 r2 : srot) : srot :=
  (mk3 (fun c => target r2 (target r1 c)),
   mk3 (fun c => xorb (flipped r1 c) (flipped r2 (target r1 c)))).

Definition rot_id : srot := ((Ax0, Ax1, Ax2), (false, false, false)).

(** The group elements of the numpy primitives. *)
Definition flip_rot (a : axis) : srot :=
  ((Ax0, Ax1, Ax2), mk3 (fun c => axis_eqb c a)).

Definition swap_rot (a b : axis) : srot :=
  (mk3 (swap_axis a b), (false, false, false)).

Definition rot90_rot (k : Z) (axes : axis * axis) : srot :=
  let '(a, b) := axes in
  let k := (k mod 4)%Z in
  if (k =? 0)%Z then rot_id
  else if (k =? 2)%Z then comp (flip_rot a) (flip_rot b)
  else if (k =? 1)%Z then comp (flip_rot b) (swap_rot a b)
  else comp (swap_rot a b) (flip_rot b).

Definition single_axis_rots (r : srot) (axes : axis * axis) : list srot :=
  map (fun i => comp r (rot90_rot (Z.of_nat i) axes)) (seq 0 4).

(** The group elements behind the 24 grids of [all_rotations], in the
    order in which they are yielded. *)
Definition all_rotations_rots : list srot :=
  single_axis_rots rot_id (Ax1, Ax2)
  ++ single_axis_rots (rot90_rot 2 (Ax0, Ax2)) (Ax1, Ax2)
  ++ single_axis_rots (rot90_rot 1 (Ax0, Ax2)) (Ax0, Ax1)
  ++ single_axis_rots (rot90_rot (-1) (Ax0, Ax2)) (Ax0, Ax1)
  ++ single_axis_rots (rot90_rot 1 (Ax0, Ax1)) (Ax0, Ax2)
  ++ single_axis_rots (rot90_rot (-1) (Ax0, Ax1)) (Ax0, Ax2).

Definition srot_eqb (r1 r2 : srot) : bool :=
  axis_eqb (target r1 Ax0) (target r2 Ax0)
  && axis_eqb (target r1 Ax1) (target r2 Ax1)
  && axis_eqb (target r1 Ax2) (target r2 Ax2)
  && Bool.eqb (flipped r1 Ax0) (flipped r2 Ax0)
  && Bool.eqb (flipped r1 Ax1) (flipped r2 Ax1)
  && Bool.eqb (flipped r1 Ax2) (flipped r2 Ax2).

End Rotation.


#[global] Instance axis_eq_dec : EqDecision axis.
Proof. solve_decision. Defined.


(** ** Decoding a fingerprint *)

Definition decode_run (v : Z) : list Z :=
  if (0 <? v)%Z then repeat 1%Z (Z.to_nat v) else repeat 0%Z (Z.to_nat (- v)).

Definition decode_runs (runs : list Z) : list Z := flat_map decode_run runs.

(** The array a fingerprint tuple stands for: three dimensions, then runs. *)
Definition rle_decode (t : list Z) : option grid :=
  match t with
  | x :: y :: z :: runs =>
      Some (Grid (Z.to_nat x, Z.to_nat y, Z.to_nat z) (decode_runs runs))
  | _ => None
  end.


(** The index arrays of the six assignments of [expand_cube], one after
    the other. *)
Definition expand_touched (cube : grid) : list index :=
  let nz := nonzero (expand_padded cube) in
  ((((map (shift_up Ax0) nz ++ map (shift_down Ax0) nz)
       ++ map (shift_up Ax1) nz) ++ map (shift_down Ax1) nz)
     ++ map (shift_up Ax2) nz) ++ map (shift_down Ax2) nz.

(** What [expand_cube] yields for the candidate [c], built on frontier cell
    [p]: the tight window of [c]. *)
Definition yields_from (g : grid) (c y : grid) : Prop :=
  exists p lo,
    In p (expand_positions g) /\ c = set_cell (pad g) p 1 /\
    crop_cube c = Ok y /\ is_window c y lo /\ tight y.


(** ** The invariant of the generation loop *)

(** No grid of the list is a rotation of an earlier one. *)
Definition rotation_free (ps : list grid) : Prop :=
  forall i j p q, i < j -> ps !! i = Some p -> ps !! j = Some q ->
                  ~ In p (all_rotations q).

(** The state [(polycubes, polycubes_rle)] of the two nested loops. *)
Definition level_inv (st : list grid * gset (list Z)) : Prop :=
  (forall g, In g (fst st) -> wf g /\ connected g) /\
  (forall g, In g (fst st) -> rle g ∈ snd st) /\
  rotation_free (fst st).


(** ** A direct evaluation of the generation loop

    The same loop, with the crop of a candidate written as the window it
    is known to be, and the fingerprints of the 24 rotations computed from
    the occupied cells.  It is proved equal to [generate_level] below and
    is used to evaluate it. *)

Definition index_eqb (i j : index) : bool :=
  let '(x, y, z) := i in
  let '(x', y', z') := j in
  (x =? x') && (y =? y') && (z =? z').

(** The cell of [np.pad(g, 1)] at [j]. *)
Definition pad_cell (g : grid) (j : index) : Z :=
  let '(nx, ny, nz) := shape g in
  let '(x, y, z) := j in
  if (1 <=? x) && (x <=? nx) && (1 <=? y) && (y <=? ny) && (1 <=? z) && (z <=? nz)
  then get g (x - 1, y - 1, z - 1) else 0%Z.

(** The bounding box of the padded grid with cell [p] filled, for a tight
    [g]: where it starts and its dimensions. *)
Definition candidate_lo (p : index) : index := mk3 (fun a => Nat.min 1 (proj a p)).

Definition candidate_shape (g : grid) (p : index) : nat * nat * nat :=
  mk3 (fun a => Nat.max (proj a (shape g)) (proj a p) + 1 - Nat.min 1 (proj a p)).

Definition direct_candidate (g : grid) (p : index) : grid :=
  tabulate (candidate_shape g p)
    (fun i => let j := add3 i (candidate_lo p) in
              if index_eqb j p then 1%Z else pad_cell g j).

(** ** Fingerprints from the list of occupied cells

    The fingerprint of a rotated {0,1} grid, computed from the occupied
    cells of the grid: the cells are sent to their images, their offsets
    are gathered in a bit mask, and the runs are read off the mask. *)

(** Where the rotation [e] sends cell [c] of an array of shape [s]. *)
Definition image (e : Rotation.srot) (s : nat * nat * nat) (c : index) : index :=
  mk3 (fun a => let b := Rotation.source e a in
                if Rotation.flipped e b then proj b s - 1 - proj b c else proj b c).

(** The bit mask of a {0,1} buffer: bit [k] is cell [k]. *)
Definition mask_of (d : list Z) : N :=
  fold_right (fun c acc => (N.b2n (negb (c =? 0)%Z) + 2 * acc)%N) 0%N d.

Definition cells_mask (s : nat * nat * nat) (cs : list index) : N :=
  fold_right (fun c acc => N.lor (N.shiftl 1 (N.of_nat (offset s c))) acc) 0%N cs.

(** The loop of [rle] on the first [n] bits of [m], in the middle of a run
    of [val] cells equal to [cur]. *)
Fixpoint scan_runs (n : nat) (m : N) (cur : bool) (val : Z) : list Z :=
  match n with
  | 0 => [if cur then val else (- val)%Z]
  | S n' =>
      if Bool.eqb (N.odd m) cur then scan_runs n' (N.div2 m) cur (val + 1)
      else (if cur then val else (- val)%Z) :: scan_runs n' (N.div2 m) (N.odd m) 1
  end.

Definition mask_runs (n : nat) (m : N) : list Z :=
  match n with
  | 0 => [0%Z]
  | S n' => scan_runs n' (N.div2 m) (N.odd m) 1
  end.

Definition rle_cells (s : nat * nat * nat) (cs : list index) : list Z :=
  shape_list s ++ mask_runs (vol s) (cells_mask s cs).

Definition rle_rotated (e : Rotation.srot) (s : nat * nat * nat) (cs : list index)
  : list Z :=
  rle_cells (Rotation.rotated_shape e s) (map (image e s) cs).

Definition quick_exists (s : nat * nat * nat) (cs : list index) (set : gset (list Z))
  : bool :=
  existsb (fun e => bool_decide (rle_rotated e s cs ∈ set)) Rotation.all_rotations_rots.

(** The occupied cells of [direct_candidate g p], from those of [g]. *)
Definition candidate_cells (cs : list index) (p : index) : list index :=
  sub3 p (candidate_lo p)
  :: map (fun q => sub3 (add3 q (1, 1, 1)) (candidate_lo p)) cs.

Definition quick_consider (base_cube : grid) (cs : list index)
  (st : list grid * gset (list Z)) (p : index) : list grid * gset (list Z) :=
  let '(polycubes, polycubes_rle) := st in
  if quick_exists (candidate_shape base_cube p) (candidate_cells cs p) polycubes_rle
  then st
  else (polycubes ++ [direct_candidate base_cube p],
        set_add (rle (direct_candidate base_cube p)) polycubes_rle).

Definition quick_grow (st : list grid * gset (list Z)) (base_cube : grid)
  : list grid * gset (list Z) :=
  fold_left (quick_consider base_cube (nonzero base_cube))
            (expand_positions base_cube) st.

Definition quick_next (base_cubes : list grid) : list grid :=
  fst (fold_left quick_grow base_cubes ([], ∅)).

Fixpoint quick_level (n : nat) : list grid :=
  match n with
  | 0 => []
  | 1 => [ones (1, 1, 1)]
  | 2 => [ones (2, 1, 1)]
  | S n' => quick_next (quick_level n')
  end.

(** What the direct evaluation keeps true of every grid it stores. *)
Definition good (g : grid) : Prop := wf g /\ tight g /\ binary g.



(** ** Vocabulary for further properties *)

(** The set [polycubes_rle] after the grids of [l] were added. *)
Definition fingerprints (l : list grid) : gset (list Z) :=
  fold_left (fun s p => set_add (rle p) s) l ∅.

(** The runs of a fingerprint: what follows the three dimensions. *)
Definition runs_of (t : list Z) : list Z := drop 3 t.

Definition abs_sum (l : list Z) : Z := fold_right (fun v acc => (Z.abs v + acc)%Z) 0%Z l.

Definition pos_sum (l : list Z) : Z := fold_right (fun v acc => (Z.max v 0 + acc)%Z) 0%Z l.

(** The number of non-zero cells of a buffer. *)
Definition count_ones (d : list Z) : nat :=
  length (List.filter (fun c => negb (c =? 0)%Z) d).

(** ** generate_polycubes with its cache

    The files [cubes_<n>.npy] are modelled by a finite map from [n] to the
    list of arrays the file holds: [os.path.exists] is a lookup, [np.load]
    returns the stored list and [np.save] stores the list it is given. *)

Fixpoint generate_cached_level (n : nat) (use_cache : bool)
  (files : gmap Z (list grid)) : result (list grid * gmap Z (list grid)) :=
  match n with
  | 0 => Ok ([], files)
  | 1 => Ok ([ones (1, 1, 1)], files)
  | 2 => Ok ([ones (2, 1, 1)], files)
  | S n' =>
      match (if use_cache then files !! Z.of_nat n else None) with
      | Some polycubes => Ok (polycubes, files)
      | None =>
          let* (base_cubes, files) := generate_cached_level n' use_cache files in
          let* polycubes := next_level base_cubes in
          Ok (polycubes,
              if use_cache then <[Z.of_nat n := polycubes]> files else files)
      end
  end.

(** [generate_polycubes(n, use_cache)], run on the files [files]: the value
    returned and the files afterwards. *)
Definition generate_polycubes_cached (n : Z) (use_cache : bool)
  (files : gmap Z (list grid)) : result (list grid * gmap Z (list grid)) :=
  if (n <? 1)%Z then Ok ([], files)
  else generate_cached_level (Z.to_nat n) use_cache files.

(** Every cached level holds what the program computes for it. *)
Definition coherent (files : gmap Z (list grid)) : Prop :=
  forall k l, files !! k = Some l -> (3 <= k)%Z -> generate_polycubes k = Ok l.

(** ** Occupied cells as lattice points

    The occupied cells of an array, as points of the integer lattice, and
    the motions of the lattice that a rotation of the array followed by a
    change of origin (padding, cropping) amounts to. *)

Definition point : Type := Z * Z * Z.

Definition zidx (i : index) : point := mk3 (fun a => Z.of_nat (proj a i)).

Definition cell (g : grid) (v : point) : Prop :=
  exists i, occupied g i /\ v = zidx i.

Definition padd (v d : point) : point := mk3 (fun a => (proj a v + proj a d)%Z).

(** The rotation [e] followed by the translation by [d]. *)
Definition move (e : Rotation.srot) (d v : point) : point :=
  mk3 (fun a => let b := Rotation.source e a in
                ((if Rotation.flipped e b then - proj b v else proj b v)
                 + proj a d)%Z).

Definition unmove (e : Rotation.srot) (d w : point) : point :=
  mk3 (fun b => let a := Rotation.target e b in
                (if Rotation.flipped e b then - (proj a w - proj a d)
                 else proj a w - proj a d)%Z).

(** The translation that goes with [Rotation.act e] on shape [s]. *)
Definition act_shift (e : Rotation.srot) (s : nat * nat * nat) : point :=
  mk3 (fun a => let b := Rotation.source e a in
                if Rotation.flipped e b then (Z.of_nat (proj b s) - 1)%Z else 0%Z).

(** The occupied cells of [b] are the images of those of [a]. *)
Definition moved (e : Rotation.srot) (d : point) (a b : grid) : Prop :=
  forall w, cell b w <-> exists v, cell a v /\ w = move e d v.

(** Face adjacency of lattice points. *)
Definition near (u v : point) : Prop :=
  exists a, (proj a v = proj a u + 1 \/ proj a u = proj a v + 1)%Z /\
            forall b, b <> a -> proj b u = proj b v.

(** ** Shapes reached by the generation *)

(** Some grid of the list is a rotation of [y]. *)
Definition covered (ps : list grid) (y : grid) : Prop :=
  exists p, In p ps /\ In p (all_rotations y).

(** The state of the generation loop holds the fingerprints of its list. *)
Definition fingerprinted (st : list grid * gset (list Z)) : Prop :=
  snd st = fingerprints (fst st) /\ Forall binary (fst st).

(** The bounding box of [s] is a rotation of a grid of level [k]. *)
Definition reached (s : grid) (k : nat) : Prop :=
  exists t e l, crop_cube s = Ok t /\ generate_level k = Ok l /\
                In e l /\ In t (all_rotations e).

(** ** The script entry point of cubes.py

    [cache] is what argparse returns for [--cache] / [--no-cache], [None]
    when neither flag is given.  The value returned is the number printed
    by ["Found ... unique polycubes"], with the files afterwards. *)
Definition main (n : Z) (cache : option bool) (files : gmap Z (list grid))
  : result (nat * gmap Z (list grid)) :=
  let use_cache := match cache with Some c => c | None => true end in
  let* (all_cubes, files) := generate_polycubes_cached n use_cache files in
  Ok (length all_cubes, files).


(** ** Runs of a fingerprint *)

(** Consecutive runs have opposite signs (and so are non-zero). *)
Fixpoint alternating (l : list Z) : Prop :=
  match l with
  | a :: (b :: _) as t => (a * b < 0)%Z /\ alternating t
  | _ => True
  end.

(** ** What a cached level is worth *)



(** ** Straight bars *)

(** A straight bar: every cell is occupied and two of the three dimensions
    are 1 (the single cube included). *)
Definition bar (g : grid) : Prop :=
  (exists a, forall b, b <> a -> proj b (shape g) = 1) /\
  (forall i, in_range (shape g) i -> get g i = 1%Z).

Definition pscale (k : Z) (t : point) : point := mk3 (fun a => (k * proj a t)%Z).

(** * Properties *)

(** ** Index triples *)

Lemma proj_mk3 {A} (h : axis -> A) (a : axis) : proj a (mk3 h) = h a.
Proof. destruct a; reflexivity. Qed.

Lemma triple_ext {A} (t t' : A * A * A) :
  (forall a, proj a t = proj a t') -> t = t'.
Proof.
  destruct t as [[x y] z], t' as [[x' y'] z']. intros H.
  pose proof (H Ax0) as H0. pose proof (H Ax1) as H1. pose proof (H Ax2) as H2.
  simpl in *. congruence.
Qed.

Lemma in_range_proj s i : in_range s i <-> forall a, proj a i < proj a s.
Proof.
  unfold in_range. split.
  - intros (H0 & H1 & H2) a. destruct a; assumption.
  - intros H. auto.
Qed.

Lemma mul_add_lt (a n m r : nat) : a < n -> r < m -> a * m + r < n * m.
Proof.
  intros Ha Hr.
  assert (H : (a + 1) * m <= n * m) by (apply Nat.mul_le_mono_r; lia).
  lia.
Qed.

Lemma euclid_unique (m a b r r' : nat) :
  r < m -> r' < m -> a * m + r = b * m + r' -> a = b /\ r = r'.
Proof.
  intros Hr Hr' H.
  destruct (Nat.lt_trichotomy a b) as [Hlt | [Heq | Hgt]].
  - pose proof (mul_add_lt a b m r Hlt Hr). lia.
  - subst b. lia.
  - pose proof (mul_add_lt b a m r' Hgt Hr'). lia.
Qed.

Lemma offset_lt s i : in_range s i -> offset s i < vol s.
Proof.
  destruct s as [[nx ny] nz], i as [[x y] z]. unfold in_range. simpl.
  intros (Hx & Hy & Hz).
  apply mul_add_lt; [assumption|]. apply mul_add_lt; assumption.
Qed.

Lemma offset_inj s i j :
  in_range s i -> in_range s j -> offset s i = offset s j -> i = j.
Proof.
  destruct s as [[nx ny] nz], i as [[x y] z], j as [[x' y'] z'].
  unfold in_range. simpl. intros (Hx & Hy & Hz) (Hx' & Hy' & Hz') H.
  assert (B : y * nz + z < ny * nz) by (apply mul_add_lt; assumption).
  assert (B' : y' * nz + z' < ny * nz) by (apply mul_add_lt; assumption).
  destruct (euclid_unique _ _ _ _ _ B B' H) as [-> H'].
  destruct (euclid_unique _ _ _ _ _ Hz Hz' H') as [-> ->].
  reflexivity.
Qed.

Lemma offset_surj s p : p < vol s -> exists i, in_range s i /\ offset s i = p.
Proof.
  destruct s as [[nx ny] nz]. simpl. intros Hp.
  assert (Hm : ny * nz <> 0) by nia.
  assert (Hz : nz <> 0) by nia.
  pose proof (Nat.div_mod_eq p (ny * nz)) as E1.
  pose proof (Nat.mod_upper_bound p (ny * nz) Hm) as B1.
  pose proof (Nat.div_mod_eq (p mod (ny * nz)) nz) as E2.
  pose proof (Nat.mod_upper_bound (p mod (ny * nz)) nz Hz) as B2.
  exists (p / (ny * nz), (p mod (ny * nz)) / nz, (p mod (ny * nz)) mod nz).
  unfold in_range. simpl. repeat split; nia.
Qed.

(** ** Row-major enumeration and [tabulate] *)

Lemma nth_flat_map_uniform {A B} (h : A -> list B) (m : nat) (l : list A) (a0 : A) (d : B) :
  (forall a, length (h a) = m) ->
  forall i j, i < length l -> j < m ->
  nth (i * m + j) (flat_map h l) d = nth j (h (nth i l a0)) d.
Proof.
  intros Hlen. induction l as [|a l IH]; intros i j Hi Hj; simpl in Hi; [lia|].
  simpl. destruct i as [|i].
  - rewrite app_nth1 by (rewrite Hlen; lia). reflexivity.
  - rewrite app_nth2 by (rewrite Hlen; lia).
    rewrite Hlen. replace (S i * m + j - m) with (i * m + j) by lia.
    apply IH; lia.
Qed.

Lemma length_flat_map_uniform {A B} (h : A -> list B) (m : nat) (l : list A) :
  (forall a, length (h a) = m) -> length (flat_map h l) = length l * m.
Proof.
  intros Hlen. induction l as [|a l IH]; simpl; [reflexivity|].
  rewrite length_app, Hlen, IH. reflexivity.
Qed.

Lemma length_indices s : length (indices s) = vol s.
Proof.
  destruct s as [[nx ny] nz]. unfold indices, vol.
  rewrite (length_flat_map_uniform _ (ny * nz)).
  - rewrite length_seq. reflexivity.
  - intros x. rewrite (length_flat_map_uniform _ nz).
    + rewrite length_seq. reflexivity.
    + intros y. rewrite length_map, length_seq. reflexivity.
Qed.

Lemma nth_indices s i d : in_range s i -> nth (offset s i) (indices s) d = i.
Proof.
  destruct s as [[nx ny] nz], i as [[x y] z]. unfold in_range. simpl.
  intros (Hx & Hy & Hz).
  rewrite (nth_flat_map_uniform _ (ny * nz) _ 0).
  - rewrite (nth_flat_map_uniform _ nz _ 0).
    + rewrite !seq_nth by lia. simpl.
      rewrite (nth_indep _ d (x, y, 0)) by (rewrite length_map, length_seq; lia).
      etransitivity; [apply (map_nth (fun z0 => (x, y, z0)) (seq 0 nz) 0 z)|].
      cbv beta. rewrite seq_nth by lia. reflexivity.
    + intros a. rewrite length_map, length_seq. reflexivity.
    + rewrite length_seq. lia.
    + lia.
  - intros a. rewrite (length_flat_map_uniform _ nz).
    + rewrite length_seq. reflexivity.
    + intros b. rewrite length_map, length_seq. reflexivity.
  - rewrite length_seq. lia.
  - nia.
Qed.

Lemma nth_indices_range s p d : p < vol s -> in_range s (nth p (indices s) d) /\ offset s (nth p (indices s) d) = p.
Proof.
  intros Hp. destruct (offset_surj s p Hp) as (i & Hi & <-).
  rewrite nth_indices by assumption. split; [assumption | reflexivity].
Qed.

Lemma in_indices s i : In i (indices s) <-> in_range s i.
Proof.
  split.
  - intros H. destruct (In_nth _ _ i H) as (p & Hp & <-).
    rewrite length_indices in Hp. apply nth_indices_range, Hp.
  - intros H. rewrite <- (nth_indices s i i H).
    apply nth_In. rewrite length_indices. apply offset_lt, H.
Qed.

Lemma NoDup_indices s : List.NoDup (indices s).
Proof.
  apply (proj2 (List.NoDup_nth (indices s) (0, 0, 0))).
  intros p q Hp Hq E. rewrite length_indices in Hp, Hq.
  destruct (nth_indices_range s p (0, 0, 0) Hp) as [_ <-].
  destruct (nth_indices_range s q (0, 0, 0) Hq) as [_ <-].
  rewrite E. reflexivity.
Qed.

Lemma wf_tabulate s f : wf (tabulate s f).
Proof. unfold wf, tabulate. simpl. rewrite length_map. apply length_indices. Qed.

Lemma shape_tabulate s f : shape (tabulate s f) = s.
Proof. reflexivity. Qed.

Lemma get_tabulate s f i : in_range s i -> get (tabulate s f) i = f i.
Proof.
  intros Hi. unfold get, tabulate. simpl.
  rewrite (nth_indep _ 0%Z (f i))
    by (rewrite length_map, length_indices; apply offset_lt, Hi).
  etransitivity; [apply (map_nth f (indices s) i)|].
  rewrite nth_indices by assumption. reflexivity.
Qed.

(** Two arrays with the same shape and the same cells are equal. *)
Lemma grid_ext g1 g2 :
  wf g1 -> wf g2 -> shape g1 = shape g2 ->
  (forall i, in_range (shape g1) i -> get g1 i = get g2 i) -> g1 = g2.
Proof.
  destruct g1 as [s d1], g2 as [s' d2]. unfold wf, get. simpl.
  intros W1 W2 <- H. f_equal.
  apply (nth_ext _ _ 0%Z 0%Z); [congruence|].
  intros p Hp. rewrite W1 in Hp.
  destruct (offset_surj s p Hp) as (i & Hi & <-). apply H, Hi.
Qed.

Lemma tabulate_ext s f f' :
  (forall i, in_range s i -> f i = f' i) -> tabulate s f = tabulate s f'.
Proof.
  intros H. unfold tabulate. f_equal. apply map_ext_in.
  intros i Hi. apply H, in_indices, Hi.
Qed.

Lemma tabulate_get g : wf g -> tabulate (shape g) (get g) = g.
Proof.
  intros W. apply grid_ext; [apply wf_tabulate | assumption | reflexivity |].
  intros i Hi. apply get_tabulate, Hi.
Qed.

(** Cells that are set and read back *)

Lemma wf_set_cell g i v : wf g -> wf (set_cell g i v).
Proof. unfold wf, set_cell. simpl. rewrite length_insert. auto. Qed.

Lemma get_set_cell_eq g i v :
  wf g -> in_range (shape g) i -> get (set_cell g i v) i = v.
Proof.
  intros W Hi. unfold get, set_cell. simpl.
  apply nth_lookup_Some with (d := 0%Z).
  apply list_lookup_insert_eq. rewrite W. apply offset_lt, Hi.
Qed.

Lemma get_set_cell_offset_ne g i j v :
  offset (shape g) i <> offset (shape g) j -> get (set_cell g i v) j = get g j.
Proof.
  intros Hne. unfold get, set_cell. simpl.
  rewrite !nth_lookup. rewrite list_lookup_insert_ne by assumption. reflexivity.
Qed.

Lemma get_set_cell_ne g i j v :
  in_range (shape g) i -> in_range (shape g) j -> i <> j ->
  get (set_cell g i v) j = get g j.
Proof.
  intros Hi Hj Hne. apply get_set_cell_offset_ne.
  intros E. apply Hne. eapply offset_inj; eassumption.
Qed.

(** ** The action of the rotation group *)

Module RotationFacts.
Import Rotation.

Lemma axis_eqb_eq a b : axis_eqb a b = true <-> a = b.
Proof. destruct a, b; simpl; split; congruence. Qed.

Lemma srot_eqb_eq r1 r2 : srot_eqb r1 r2 = true <-> r1 = r2.
Proof.
  destruct r1 as [[[p0 p1] p2] [[f0 f1] f2]], r2 as [[[q0 q1] q2] [[h0 h1] h2]].
  unfold srot_eqb, target, flipped. simpl. split.
  - intros H. repeat (apply andb_prop in H; destruct H as [H ?]).
    repeat match goal with
           | E : axis_eqb _ _ = true |- _ => apply axis_eqb_eq in E
           | E : Bool.eqb _ _ = true |- _ => apply Bool.eqb_prop in E
           end.
    congruence.
  - intros E. injection E as -> -> -> -> -> ->.
    rewrite !Bool.eqb_reflx.
    destruct q0, q1, q2; reflexivity.
Qed.

Lemma source_target r b : is_perm r = true -> source r (target r b) = b.
Proof.
  destruct r as [[[p0 p1] p2] fl]. unfold is_perm, source, target. simpl.
  destruct p0, p1, p2; simpl; try discriminate; destruct b; reflexivity.
Qed.

Lemma target_source r a : is_perm r = true -> target r (source r a) = a.
Proof.
  destruct r as [[[p0 p1] p2] fl]. unfold is_perm, source, target. simpl.
  destruct p0, p1, p2; simpl; try discriminate; destruct a; reflexivity.
Qed.

Lemma is_perm_comp r1 r2 :
  is_perm r1 = true -> is_perm r2 = true -> is_perm (comp r1 r2) = true.
Proof.
  destruct r1 as [[[p0 p1] p2] fl], r2 as [[[q0 q1] q2] fl'].
  unfold is_perm, comp, target. simpl.
  destruct p0, p1, p2; simpl; try discriminate;
    destruct q0, q1, q2; simpl; try discriminate; reflexivity.
Qed.

Lemma source_comp r1 r2 a :
  is_perm r1 = true -> is_perm r2 = true ->
  source (comp r1 r2) a = source r1 (source r2 a).
Proof.
  destruct r1 as [[[p0 p1] p2] fl], r2 as [[[q0 q1] q2] fl'].
  unfold is_perm, comp, source, target. simpl.
  destruct p0, p1, p2; simpl; try discriminate;
    destruct q0, q1, q2; simpl; try discriminate; destruct a; reflexivity.
Qed.

Lemma target_comp r1 r2 c : target (comp r1 r2) c = target r2 (target r1 c).
Proof. destruct c; reflexivity. Qed.

Lemma flipped_comp r1 r2 c :
  flipped (comp r1 r2) c = xorb (flipped r1 c) (flipped r2 (target r1 c)).
Proof. destruct c; reflexivity. Qed.

Lemma rotated_shape_comp r1 r2 s :
  is_perm r1 = true -> is_perm r2 = true ->
  rotated_shape r2 (rotated_shape r1 s) = rotated_shape (comp r1 r2) s.
Proof.
  intros P1 P2. apply triple_ext. intros a.
  unfold rotated_shape. rewrite !proj_mk3. rewrite source_comp by assumption.
  reflexivity.
Qed.

Lemma proj_target_rotated r s b :
  is_perm r = true -> proj (target r b) (rotated_shape r s) = proj b s.
Proof.
  intros P. unfold rotated_shape. rewrite proj_mk3, source_target by assumption.
  reflexivity.
Qed.

Lemma in_range_preimage r s i :
  is_perm r = true -> in_range (rotated_shape r s) i -> in_range s (preimage r s i).
Proof.
  intros P Hi. rewrite in_range_proj in *. intros b.
  unfold preimage. rewrite proj_mk3.
  specialize (Hi (target r b)). rewrite proj_target_rotated in Hi by assumption.
  destruct (flipped r b); lia.
Qed.

Lemma preimage_comp r1 r2 s i :
  is_perm r1 = true -> is_perm r2 = true ->
  in_range (rotated_shape (comp r1 r2) s) i ->
  preimage r1 s (preimage r2 (rotated_shape r1 s) i) = preimage (comp r1 r2) s i.
Proof.
  intros P1 P2 Hi. apply triple_ext. intros c.
  unfold preimage. rewrite !proj_mk3.
  rewrite proj_target_rotated by assumption.
  rewrite flipped_comp, target_comp.
  rewrite in_range_proj in Hi. specialize (Hi (target r2 (target r1 c))).
  rewrite <- target_comp in Hi.
  rewrite proj_target_rotated in Hi by (apply is_perm_comp; assumption).
  rewrite target_comp in Hi.
  destruct (flipped r1 c), (flipped r2 (target r1 c)); simpl; lia.
Qed.

(** Rotating by [r1] and then by [r2] is rotating by [comp r1 r2]. *)
Lemma act_comp r1 r2 g :
  is_perm r1 = true -> is_perm r2 = true ->
  act r2 (act r1 g) = act (comp r1 r2) g.
Proof.
  intros P1 P2. unfold act. rewrite !shape_tabulate.
  rewrite rotated_shape_comp by assumption.
  apply tabulate_ext. intros i Hi.
  rewrite get_tabulate.
  - rewrite preimage_comp by assumption. reflexivity.
  - apply in_range_preimage; [assumption|].
    rewrite rotated_shape_comp; assumption.
Qed.

Lemma act_id g : wf g -> act rot_id g = g.
Proof.
  intros W. unfold act.
  replace (rotated_shape rot_id (shape g)) with (shape g)
    by (destruct (shape g) as [[? ?] ?]; reflexivity).
  transitivity (tabulate (shape g) (get g)); [|apply tabulate_get, W].
  apply tabulate_ext. intros i _. f_equal.
  destruct i as [[? ?] ?], (shape g) as [[? ?] ?]. reflexivity.
Qed.

Lemma wf_act r g : wf (act r g).
Proof. apply wf_tabulate. Qed.

(** The numpy primitives are actions of group elements. *)
Lemma flip_act g a : flip g a = act (flip_rot a) g.
Proof.
  unfold flip, act.
  replace (rotated_shape (flip_rot a) (shape g)) with (shape g)
    by (destruct (shape g) as [[? ?] ?]; reflexivity).
  apply tabulate_ext. intros i _.
  destruct a, i as [[? ?] ?], (shape g) as [[? ?] ?]; reflexivity.
Qed.

Lemma swapaxes_act g a b : swapaxes g a b = act (swap_rot a b) g.
Proof.
  unfold swapaxes, act.
  replace (rotated_shape (swap_rot a b) (shape g)) with (swap3 a b (shape g))
    by (destruct a, b, (shape g) as [[? ?] ?]; reflexivity).
  apply tabulate_ext. intros i _. reflexivity.
Qed.

Lemma is_perm_flip_rot a : is_perm (flip_rot a) = true.
Proof. reflexivity. Qed.

Lemma is_perm_swap_rot a b : is_perm (swap_rot a b) = true.
Proof. destruct a, b; reflexivity. Qed.

Lemma is_perm_rot90_rot k axes : is_perm (rot90_rot k axes) = true.
Proof.
  destruct axes as [a b]. unfold rot90_rot.
  repeat match goal with |- context [if ?c then _ else _] => destruct c end;
    try reflexivity; destruct a, b; reflexivity.
Qed.

Lemma rot90_act m k axes : wf m -> rot90 m k axes = act (rot90_rot k axes) m.
Proof.
  intros W. destruct axes as [a b]. unfold rot90, rot90_rot.
  destruct (k mod 4 =? 0)%Z; [symmetry; apply act_id, W|].
  destruct (k mod 4 =? 2)%Z.
  { rewrite !flip_act. apply act_comp; apply is_perm_flip_rot. }
  destruct (k mod 4 =? 1)%Z.
  { rewrite flip_act, swapaxes_act.
    apply act_comp; [apply is_perm_flip_rot | apply is_perm_swap_rot]. }
  rewrite swapaxes_act, flip_act.
  apply act_comp; [apply is_perm_swap_rot | apply is_perm_flip_rot].
Qed.

Lemma single_axis_rotation_act r g axes :
  is_perm r = true ->
  single_axis_rotation (act r g) axes = map (fun e => act e g) (single_axis_rots r axes).
Proof.
  intros P. unfold single_axis_rotation, single_axis_rots.
  rewrite map_map. apply map_ext. intros i.
  rewrite rot90_act by apply wf_act.
  apply act_comp; [assumption | apply is_perm_rot90_rot].
Qed.

(** [all_rotations] yields the images under [all_rotations_rots], in order. *)
Lemma all_rotations_act g :
  wf g -> all_rotations g = map (fun e => act e g) all_rotations_rots.
Proof.
  intros W. unfold all_rotations, all_rotations_rots.
  rewrite !map_app.
  rewrite <- (act_id g W) at 1.
  rewrite !(rot90_act g) by assumption.
  rewrite !single_axis_rotation_act
    by (try reflexivity; apply is_perm_rot90_rot).
  reflexivity.
Qed.

End RotationFacts.

(** ** The 24 rotations form the rotation group *)

Module GroupFacts.
Import Rotation RotationFacts.

Lemma length_all_rotations_rots : length all_rotations_rots = 24.
Proof. reflexivity. Qed.

Lemma NoDup_all_rotations_rots : base.NoDup all_rotations_rots.
Proof. apply (bool_decide_unpack _). vm_compute. exact I. Qed.

Lemma NoDup_rotation_group : base.NoDup rotation_group.
Proof. apply (bool_decide_unpack _). vm_compute. exact I. Qed.

Lemma length_rotation_group : length rotation_group = 24.
Proof. reflexivity. Qed.

Lemma all_rotations_rots_proper :
  Forall (fun r => r ∈ rotation_group) all_rotations_rots.
Proof. apply (bool_decide_unpack _). vm_compute. exact I. Qed.

Lemma rotation_group_yielded :
  Forall (fun r => r ∈ all_rotations_rots) rotation_group.
Proof. apply (bool_decide_unpack _). vm_compute. exact I. Qed.

(** The elements behind [all_rotations] are the rotation group, each
    element once. *)
Lemma all_rotations_rots_group : Permutation all_rotations_rots rotation_group.
Proof.
  apply NoDup_Permutation.
  - apply NoDup_all_rotations_rots.
  - apply NoDup_rotation_group.
  - intros r. split; intros H.
    + exact (proj1 (Forall_forall _ _) all_rotations_rots_proper r H).
    + exact (proj1 (Forall_forall _ _) rotation_group_yielded r H).
Qed.

Lemma in_group_yielded r : In r rotation_group <-> In r all_rotations_rots.
Proof.
  rewrite <- !list_elem_of_In. split; intros H.
  - exact (proj1 (Forall_forall _ _) rotation_group_yielded r H).
  - exact (proj1 (Forall_forall _ _) all_rotations_rots_proper r H).
Qed.

Lemma is_perm_yielded r : In r all_rotations_rots -> is_perm r = true.
Proof.
  intros H. apply in_group_yielded in H. unfold rotation_group in H.
  apply filter_In in H. destruct H as [_ H]. unfold proper in H.
  apply andb_prop in H. apply H.
Qed.

(** Any yielded rotation can be completed to any other one. *)
Lemma rots_divide :
  Forall (fun e => Forall (fun e' =>
    Exists (fun x => comp e' x = e) all_rotations_rots)
    all_rotations_rots) all_rotations_rots.
Proof. apply (bool_decide_unpack _). vm_compute. exact I. Qed.

Lemma rots_complete e e' :
  In e all_rotations_rots -> In e' all_rotations_rots ->
  exists x, In x all_rotations_rots /\ comp e' x = e.
Proof.
  intros He He'. rewrite <- list_elem_of_In in He, He'.
  pose proof (proj1 (Forall_forall _ _) rots_divide e He) as H.
  pose proof (proj1 (Forall_forall _ _) H e' He') as H'.
  apply Exists_exists in H'. destruct H' as (x & Hx & E).
  exists x. split; [apply list_elem_of_In, Hx | exact E].
Qed.

(** Every rotation of a rotation of [g] is a rotation of [g], and every
    rotation of [g] is a rotation of each of its rotations. *)
Lemma rotation_of_rotation g g1 g2 :
  wf g -> In g1 (all_rotations g) -> In g2 (all_rotations g) ->
  In g2 (all_rotations g1).
Proof.
  intros W H1 H2. rewrite all_rotations_act in H1, H2 by assumption.
  apply in_map_iff in H1. destruct H1 as (e1 & <- & He1).
  apply in_map_iff in H2. destruct H2 as (e2 & <- & He2).
  rewrite all_rotations_act by apply wf_act.
  destruct (rots_complete e2 e1 He2 He1) as (x & Hx & E).
  apply in_map_iff. exists x. split; [|assumption].
  rewrite act_comp by (apply is_perm_yielded; assumption).
  rewrite E. reflexivity.
Qed.

Lemma all_rotations_self g : wf g -> In g (all_rotations g).
Proof. intros W. left. reflexivity. Qed.

End GroupFacts.

(** ** The set of fingerprints *)

Lemma elem_of_set_add (x y : list Z) (s : gset (list Z)) :
  y ∈ set_add x s <-> y = x \/ y ∈ s.
Proof.
  destruct s as [m]. unfold set_add, elem_of, gset_elem_of, mapset_elem_of. simpl.
  destruct (decide (x = y)) as [->|Hne].
  - rewrite lookup_insert_eq. split; auto.
  - rewrite lookup_insert_ne by assumption. split; [auto|].
    intros [->|H]; [congruence | assumption].
Qed.

(** ** all_rotations and cube_exists_rle *)

(** C4: for every 3-D grid [g], [all_rotations g] yields exactly 24 grids,
    and they are the images of [g] under the 24 proper rotations of the
    cube (the signed permutation matrices of determinant 1), every element
    of that group being used exactly once. *)
Theorem all_rotations_rotation_group (g : grid) :
  wf g ->
  length (all_rotations g) = 24 /\
  length Rotation.rotation_group = 24 /\
  List.NoDup Rotation.rotation_group /\
  exists rs, Permutation rs Rotation.rotation_group /\
             all_rotations g = map (fun r => Rotation.act r g) rs.
Proof.
  intros W. split; [reflexivity|]. split; [reflexivity|]. split.
  - apply NoDup_ListNoDup, GroupFacts.NoDup_rotation_group.
  - exists Rotation.all_rotations_rots. split.
    + apply GroupFacts.all_rotations_rots_group.
    + apply RotationFacts.all_rotations_act, W.
Qed.

Lemma all_rotations_rotation_group_witness :
  wf (ones (2, 1, 1)) /\
  length (all_rotations (ones (2, 1, 1))) = 24 /\
  length Rotation.rotation_group = 24 /\
  List.NoDup Rotation.rotation_group /\
  exists rs, Permutation rs Rotation.rotation_group /\
             all_rotations (ones (2, 1, 1))
             = map (fun r => Rotation.act r (ones (2, 1, 1))) rs.
Proof.
  split; [reflexivity|].
  apply (all_rotations_rotation_group (ones (2, 1, 1))). reflexivity.
Defined.

(** C5: if the fingerprint of some rotation of [g] is in the set, then the
    duplicate check answers [True] for every one of the 24 rotations of
    [g]. *)
Theorem cube_exists_rle_rotation_invariant (g g' : grid) (s : gset (list Z)) :
  wf g ->
  (exists r, In r (all_rotations g) /\ rle r ∈ s) ->
  In g' (all_rotations g) ->
  cube_exists_rle g' s = true.
Proof.
  intros W (r & Hr & Hs) Hg'. unfold cube_exists_rle.
  apply existsb_exists. exists r. split.
  - apply (GroupFacts.rotation_of_rotation g g' r); assumption.
  - apply bool_decide_eq_true_2, Hs.
Qed.

Lemma cube_exists_rle_rotation_invariant_witness :
  wf (ones (2, 1, 1)) /\
  (exists r, In r (all_rotations (ones (2, 1, 1)))
             /\ rle r ∈ set_add (rle (ones (2, 1, 1))) ∅) /\
  In (ones (1, 1, 2)) (all_rotations (ones (2, 1, 1))) /\
  cube_exists_rle (ones (1, 1, 2)) (set_add (rle (ones (2, 1, 1))) ∅) = true.
Proof.
  assert (W : wf (ones (2, 1, 1))) by reflexivity.
  assert (H1 : exists r, In r (all_rotations (ones (2, 1, 1)))
                         /\ rle r ∈ set_add (rle (ones (2, 1, 1))) ∅).
  { exists (ones (2, 1, 1)). split; [left; reflexivity|].
    apply elem_of_set_add. left. reflexivity. }
  assert (H2 : In (ones (1, 1, 2)) (all_rotations (ones (2, 1, 1)))).
  { do 8 right. left. reflexivity. }
  split; [exact W|]. split; [exact H1|]. split; [exact H2|].
  exact (cube_exists_rle_rotation_invariant _ _ _ W H1 H2).
Defined.

(** ** rle *)

Lemma decode_run_emit (c v : Z) :
  c = 0%Z \/ c = 1%Z -> (1 <= v)%Z ->
  decode_run (rle_emit (Some c) v) = repeat c (Z.to_nat v).
Proof.
  intros [-> | ->] Hv; unfold rle_emit, decode_run; simpl.
  - replace (0 <? - v)%Z with false by (symmetry; apply Z.ltb_ge; lia).
    rewrite Z.opp_involutive. reflexivity.
  - replace (0 <? v)%Z with true by (symmetry; apply Z.ltb_lt; lia).
    reflexivity.
Qed.

Lemma decode_runs_cons (v : Z) (t : list Z) :
  decode_runs (v :: t) = decode_run v ++ decode_runs t.
Proof. reflexivity. Qed.

(** The loop of [rle], started in the middle of a run of [v] cells [c]. *)
Lemma rle_loop_decode (l : list Z) :
  Forall (fun c => c = 0%Z \/ c = 1%Z) l ->
  forall r c v, c = 0%Z \/ c = 1%Z -> (1 <= v)%Z ->
  let st := fold_left rle_step l (RleState r (Some c) v) in
  exists tail,
    rle_r st ++ [rle_emit (rle_current st) (rle_val st)] = r ++ tail /\
    decode_runs tail = repeat c (Z.to_nat v) ++ l.
Proof.
  induction 1 as [|x l Hx Hl IH]; intros r c v Hc Hv; simpl.
  - exists [rle_emit (Some c) v]. split; [reflexivity|].
    rewrite decode_runs_cons, decode_run_emit by assumption. reflexivity.
  - assert (S : rle_step (RleState r (Some c) v) x
               = if (c =? x)%Z then RleState r (Some c) (v + 1)
                 else RleState (r ++ [rle_emit (Some c) v]) (Some x) 1)
      by reflexivity.
    rewrite S. clear S. destruct (Z.eqb_spec c x) as [<-|Hne].
    + destruct (IH r c (v + 1)%Z Hc ltac:(lia)) as (tail & E & D).
      exists tail. split; [exact E|]. rewrite D.
      replace (Z.to_nat (v + 1)) with (S (Z.to_nat v)) by lia.
      simpl. rewrite app_comm_cons, repeat_cons, <- app_assoc. reflexivity.
    + destruct (IH (r ++ [rle_emit (Some c) v]) x 1%Z Hx ltac:(lia))
        as (tail & E & D).
      exists (rle_emit (Some c) v :: tail). split.
      * rewrite E, <- app_assoc. reflexivity.
      * rewrite decode_runs_cons, D, decode_run_emit by assumption.
        reflexivity.
Qed.

Lemma rle_shape_runs (g : grid) :
  binary g ->
  exists runs, rle g = shape_list (shape g) ++ runs /\ decode_runs runs = flat g.
Proof.
  unfold binary, rle. destruct (flat g) as [|x l]; intros B.
  - exists [0%Z]. split; reflexivity.
  - inversion B as [|? ? Hx Hl]; subst. simpl.
    destruct (rle_loop_decode l Hl (shape_list (shape g)) x 1%Z Hx ltac:(lia))
      as (tail & E & D).
    exists tail. split; [exact E | exact D].
Qed.

(** The decoder rebuilds a {0,1} array from its fingerprint. *)
Lemma rle_decode_rle (g : grid) : binary g -> rle_decode (rle g) = Some g.
Proof.
  intros B. destruct (rle_shape_runs g B) as (runs & -> & D).
  destruct g as [[[x y] z] d]. simpl in *. rewrite !Nat2Z.id, D. reflexivity.
Qed.

(** C10: [rle] is injective on {0,1} grids: two grids with the same
    fingerprint have the same dimensions and the same cells (the decoder
    [rle_decode] rebuilds the grid from the tuple). *)
Theorem rle_injective (g1 g2 : grid) :
  binary g1 -> binary g2 -> flat g1 <> [] -> flat g2 <> [] ->
  rle g1 = rle g2 ->
  shape g1 = shape g2 /\ flat g1 = flat g2 /\
  rle_decode (rle g1) = Some g1 /\ rle_decode (rle g2) = Some g2.
Proof.
  intros B1 B2 _ _ E.
  pose proof (rle_decode_rle g1 B1) as D1.
  pose proof (rle_decode_rle g2 B2) as D2.
  assert (g1 = g2) as -> by (rewrite E in D1; congruence).
  auto.
Qed.

Lemma rle_injective_witness :
  let g := Grid (2, 1, 2) [1; 0; 1; 1]%Z in
  binary g /\ flat g <> [] /\ rle g = rle g /\
  shape g = shape g /\ flat g = flat g /\
  rle_decode (rle g) = Some g /\ rle_decode (rle g) = Some g.
Proof.
  intros g.
  assert (B : binary g) by (repeat constructor; auto).
  assert (N : flat g <> []) by discriminate.
  split; [exact B|]. split; [exact N|]. split; [reflexivity|].
  exact (rle_injective g g B B N N eq_refl).
Defined.

(** ** The two [while] loops of crop_cube *)

Lemma all_zero_true (l : list Z) :
  all_zero l = true <-> forall p, p < length l -> nth p l 0%Z = 0%Z.
Proof.
  unfold all_zero. induction l as [|c l IH]; simpl.
  - split; [intros _ p Hp; lia | reflexivity].
  - rewrite andb_true_iff, IH, Z.eqb_eq. split.
    + intros [Hc Hl] [|p] Hp; [assumption | apply Hl; lia].
    + intros H. split; [apply (H 0); lia | intros p Hp; apply (H (S p)); lia].
Qed.

Lemma all_zero_false (l : list Z) :
  all_zero l = false <-> exists p, p < length l /\ nth p l 0%Z <> 0%Z.
Proof.
  unfold all_zero. induction l as [|c l IH]; simpl.
  - split; [discriminate | intros (p & Hp & _); lia].
  - rewrite andb_false_iff, IH, Z.eqb_neq. split.
    + intros [Hc | (p & Hp & Hn)].
      * exists 0. split; [lia | assumption].
      * exists (S p). split; [lia | assumption].
    + intros ([|p] & Hp & Hn); [left; assumption|].
      right. exists p. split; [lia | assumption].
Qed.

(** On an array with an occupied cell, the leading loop stops after [lo]
    all-zero slices, on a slice that holds an occupied cell. *)
Lemma strip_leading_spec (m nx : nat) (d : list Z) :
  length d = nx * m ->
  (exists p, p < nx * m /\ nth p d 0%Z <> 0%Z) ->
  exists lo nx1,
    strip_leading nx m d = Ok (nx1, drop (lo * m) d) /\
    lo + nx1 = nx /\ 1 <= nx1 /\
    (forall p, p < lo * m -> nth p d 0%Z = 0%Z) /\
    (exists p, p < m /\ nth (lo * m + p) d 0%Z <> 0%Z).
Proof.
  revert d. induction nx as [|nx IH]; intros d Hlen (p & Hp & Hn); [lia|].
  simpl. destruct (all_zero (take m d)) eqn:Ez.
  - rewrite all_zero_true in Ez. rewrite length_firstn in Ez.
    assert (Hz : forall q, q < m -> nth q d 0%Z = 0%Z).
    { intros q Hq. specialize (Ez q ltac:(lia)).
      rewrite nth_firstn in Ez. apply Nat.ltb_lt in Hq. rewrite Hq in Ez.
      exact Ez. }
    assert (m <= p) by (destruct (Nat.le_gt_cases m p); [assumption|];
                        exfalso; apply Hn, Hz; assumption).
    destruct (IH (drop m d)) as (lo & nx1 & E & Hsum & H1 & Hzero & q & Hq & Hnq).
    + rewrite length_skipn. simpl in Hlen. lia.
    + exists (p - m). split; [simpl in Hp; lia|].
      rewrite nth_skipn. replace (m + (p - m)) with p by lia. assumption.
    + exists (S lo), nx1. rewrite E, drop_drop.
      replace (m + lo * m) with (S lo * m) by lia.
      split; [reflexivity|]. split; [lia|]. split; [assumption|]. split.
      * intros q' Hq'. destruct (Nat.lt_ge_cases q' m) as [Hlt|Hge].
        -- apply Hz, Hlt.
        -- specialize (Hzero (q' - m) ltac:(simpl in Hq'; lia)).
           rewrite nth_skipn in Hzero.
           replace (m + (q' - m)) with q' in Hzero by lia. assumption.
      * exists q. split; [assumption|]. rewrite nth_skipn in Hnq.
        replace (S lo * m + q) with (m + (lo * m + q)) by lia. assumption.
  - rewrite all_zero_false in Ez. destruct Ez as (q & Hq & Hnq).
    rewrite length_firstn in Hq. rewrite nth_firstn in Hnq.
    assert (Hqm : q < m) by lia. apply Nat.ltb_lt in Hqm. rewrite Hqm in Hnq.
    apply Nat.ltb_lt in Hqm.
    exists 0, (S nx). split; [reflexivity|]. split; [lia|]. split; [lia|].
    split; [intros q' Hq'; simpl in Hq'; lia|].
    exists q. split; assumption.
Qed.

(** The trailing loop keeps the first [nx2] slices; the last of them holds
    an occupied cell and everything behind is zero. *)
Lemma strip_trailing_spec (m nx : nat) (d : list Z) :
  length d = nx * m ->
  (exists p, p < nx * m /\ nth p d 0%Z <> 0%Z) ->
  exists nx2,
    strip_trailing nx m d = Ok (nx2, take (nx2 * m) d) /\
    1 <= nx2 <= nx /\
    (forall p, nx2 * m <= p -> nth p d 0%Z = 0%Z) /\
    (exists p, p < m /\ nth ((nx2 - 1) * m + p) d 0%Z <> 0%Z).
Proof.
  revert d. induction nx as [|nx IH]; intros d Hlen (p & Hp & Hn); [lia|].
  simpl. destruct (all_zero (take m (drop (nx * m) d))) eqn:Ez.
  - rewrite all_zero_true in Ez. rewrite length_firstn, length_skipn in Ez.
    assert (Hz : forall q, nx * m <= q -> nth q d 0%Z = 0%Z).
    { intros q Hq. destruct (Nat.lt_ge_cases q (length d)) as [Hlt|Hge].
      - specialize (Ez (q - nx * m) ltac:(simpl in Hlen; lia)).
        rewrite nth_firstn, nth_skipn in Ez.
        assert (Hb : q - nx * m < m) by (simpl in Hlen; lia).
        apply Nat.ltb_lt in Hb. rewrite Hb in Ez.
        replace (nx * m + (q - nx * m)) with q in Ez by lia. exact Ez.
      - apply nth_overflow. assumption. }
    assert (p < nx * m) by (destruct (Nat.lt_ge_cases p (nx * m)); [assumption|];
                            exfalso; apply Hn, Hz; assumption).
    destruct (IH (take (nx * m) d)) as (nx2 & E & Hb & Hzero & q & Hq & Hnq).
    + rewrite length_firstn. simpl in Hlen. lia.
    + exists p. split; [assumption|]. rewrite nth_firstn.
      replace (p <? nx * m) with true by (symmetry; apply Nat.ltb_lt; assumption).
      assumption.
    + assert (Hle : nx2 * m <= nx * m) by (apply Nat.mul_le_mono_r; lia).
      exists nx2. rewrite E, take_take.
      rewrite Nat.min_l by exact Hle.
      split; [reflexivity|]. split; [lia|]. split.
      * intros q' Hq'. destruct (Nat.lt_ge_cases q' (nx * m)) as [Hlt|Hge].
        -- specialize (Hzero q' Hq'). rewrite nth_firstn in Hzero.
           apply Nat.ltb_lt in Hlt. rewrite Hlt in Hzero. assumption.
        -- apply Hz, Hge.
      * exists q. split; [assumption|]. rewrite nth_firstn in Hnq.
        destruct ((nx2 - 1) * m + q <? nx * m); [assumption | congruence].
  - rewrite all_zero_false in Ez. destruct Ez as (q & Hq & Hnq).
    rewrite length_firstn, length_skipn in Hq. rewrite nth_firstn, nth_skipn in Hnq.
    assert (Hqm : q < m) by lia. apply Nat.ltb_lt in Hqm. rewrite Hqm in Hnq.
    apply Nat.ltb_lt in Hqm.
    exists (S nx). rewrite firstn_all2 by lia.
    split; [reflexivity|]. split; [lia|]. split.
    + intros q' Hq'. apply nth_overflow. lia.
    + exists q. split; [assumption|].
      replace (S nx - 1) with nx by lia. assumption.
Qed.

(** ** Swapping axes *)

Lemma proj_swap3 {A} (a b c : axis) (t : A * A * A) :
  proj c (swap3 a b t) = proj (swap_axis a b c) t.
Proof. destruct c; reflexivity. Qed.

Lemma swap_axis_invol a b c : swap_axis a b (swap_axis a b c) = c.
Proof. destruct a, b, c; reflexivity. Qed.

Lemma swap3_invol {A} (a b : axis) (t : A * A * A) : swap3 a b (swap3 a b t) = t.
Proof.
  apply triple_ext. intros c. rewrite !proj_swap3, swap_axis_invol. reflexivity.
Qed.

Lemma in_range_swap3 a b s i : in_range (swap3 a b s) i -> in_range s (swap3 a b i).
Proof.
  rewrite !in_range_proj. intros H c. specialize (H (swap_axis a b c)).
  rewrite !proj_swap3 in *. rewrite swap_axis_invol in H. exact H.
Qed.

Lemma in_range_swap3_inv a b s i : in_range s (swap3 a b i) -> in_range (swap3 a b s) i.
Proof.
  rewrite !in_range_proj. intros H c. specialize (H (swap_axis a b c)).
  rewrite !proj_swap3 in *. rewrite swap_axis_invol in H. exact H.
Qed.

Lemma wf_swapaxes g a b : wf (swapaxes g a b).
Proof. apply wf_tabulate. Qed.

Lemma shape_swapaxes g a b : shape (swapaxes g a b) = swap3 a b (shape g).
Proof. reflexivity. Qed.

Lemma get_swapaxes g a b i :
  in_range (swap3 a b (shape g)) i -> get (swapaxes g a b) i = get g (swap3 a b i).
Proof.
  intros H. exact (get_tabulate _ (fun j => get g (swap3 a b j)) i H).
Qed.

Lemma swapaxes_invol g a b : wf g -> swapaxes (swapaxes g a b) a b = g.
Proof.
  intros W. apply grid_ext; [apply wf_swapaxes | exact W | |].
  - rewrite !shape_swapaxes. apply swap3_invol.
  - intros i Hi. rewrite !shape_swapaxes in Hi.
    rewrite get_swapaxes by (rewrite shape_swapaxes; exact Hi).
    rewrite get_swapaxes.
    + rewrite swap3_invol. reflexivity.
    + apply in_range_swap3. exact Hi.
Qed.

Lemma occupied_swapaxes g a b i :
  occupied (swapaxes g a b) i <-> occupied g (swap3 a b i).
Proof.
  unfold occupied. rewrite shape_swapaxes. split.
  - intros [Hr Hn]. rewrite get_swapaxes in Hn by exact Hr.
    split; [apply in_range_swap3, Hr | exact Hn].
  - intros [Hr Hn]. apply in_range_swap3_inv in Hr.
    rewrite get_swapaxes by exact Hr. split; assumption.
Qed.

(** ** Windows *)

Lemma proj_add3 a i lo : proj a (add3 i lo) = proj a i + proj a lo.
Proof. destruct a; reflexivity. Qed.

Lemma proj_sub3 a i lo : proj a (sub3 i lo) = proj a i - proj a lo.
Proof. destruct a; reflexivity. Qed.

Lemma add3_sub3 i lo : (forall a, proj a lo <= proj a i) -> add3 (sub3 i lo) lo = i.
Proof.
  intros H. apply triple_ext. intros a. rewrite proj_add3, proj_sub3.
  specialize (H a). lia.
Qed.

Lemma sub3_add3 i lo : sub3 (add3 i lo) lo = i.
Proof. apply triple_ext. intros a. rewrite proj_sub3, proj_add3. lia. Qed.

Section Window.
Variables (g g' : grid) (lo : index).
Hypothesis Hwin : is_window g g' lo.

Lemma window_in_range i : in_range (shape g') i -> in_range (shape g) (add3 i lo).
Proof.
  rewrite !in_range_proj. intros H a. rewrite proj_add3.
  pose proof (win_fits _ _ _ Hwin a). specialize (H a). lia.
Qed.

Lemma window_up i : occupied g' i -> occupied g (add3 i lo).
Proof.
  intros [Hr Hn]. split; [apply window_in_range, Hr|].
  rewrite <- (win_get _ _ _ Hwin) by exact Hr. exact Hn.
Qed.

Lemma window_down j :
  occupied g j -> occupied g' (sub3 j lo) /\ add3 (sub3 j lo) lo = j.
Proof.
  intros Hj. pose proof (win_all _ _ _ Hwin j Hj) as Hb.
  assert (E : add3 (sub3 j lo) lo = j)
    by (apply add3_sub3; intros a; apply (Hb a)).
  assert (Hr : in_range (shape g') (sub3 j lo)).
  { apply in_range_proj. intros a. rewrite proj_sub3. specialize (Hb a). lia. }
  split; [|exact E]. split; [exact Hr|].
  rewrite (win_get _ _ _ Hwin) by exact Hr. rewrite E. apply Hj.
Qed.

Lemma window_occupied_ex : (exists j, occupied g j) -> exists i, occupied g' i.
Proof. intros (j & Hj). exists (sub3 j lo). apply window_down, Hj. Qed.

End Window.

Lemma window_trans g g' g'' lo lo' :
  is_window g g' lo -> is_window g' g'' lo' -> is_window g g'' (add3 lo' lo).
Proof.
  intros H H'. constructor.
  - apply (win_wf _ _ _ H').
  - intros a. rewrite proj_add3.
    pose proof (win_fits _ _ _ H a). pose proof (win_fits _ _ _ H' a). lia.
  - intros i Hi. rewrite (win_get _ _ _ H') by exact Hi.
    rewrite (win_get _ _ _ H) by (apply (window_in_range _ _ _ H'), Hi).
    f_equal. apply triple_ext. intros a. rewrite !proj_add3. lia.
  - intros j Hj a. rewrite proj_add3.
    destruct (window_down _ _ _ H j Hj) as [Hj' _].
    pose proof (win_all _ _ _ H j Hj a) as B.
    pose proof (win_all _ _ _ H' _ Hj' a) as B'.
    rewrite proj_sub3 in B'. lia.
Qed.

Lemma window_refl g : wf g -> is_window g g (0, 0, 0).
Proof.
  intros W. constructor.
  - exact W.
  - intros a. destruct a; simpl; lia.
  - intros i _. f_equal. destruct i as [[x y] z]. unfold add3, mk3. simpl.
    rewrite !Nat.add_0_r. reflexivity.
  - intros j [Hr _] a. rewrite in_range_proj in Hr. specialize (Hr a).
    destruct a; simpl in *; lia.
Qed.

(** Tightness along an axis survives a crop along another axis. *)
Lemma window_tight_axis g g' lo c :
  is_window g g' lo -> proj c lo = 0 -> proj c (shape g') = proj c (shape g) ->
  tight_axis g c -> tight_axis g' c.
Proof.
  intros H Hlo Hs [(i & Hi & Hi0) (j & Hj & Hj1)]. split.
  - exists (sub3 i lo). split; [apply (window_down _ _ _ H), Hi|].
    rewrite proj_sub3. lia.
  - exists (sub3 j lo). split; [apply (window_down _ _ _ H), Hj|].
    rewrite proj_sub3. lia.
Qed.

Lemma window_swapaxes g h' lo a b :
  wf g -> is_window (swapaxes g a b) h' lo ->
  is_window g (swapaxes h' a b) (swap3 a b lo).
Proof.
  intros W H. constructor.
  - apply wf_swapaxes.
  - intros c. rewrite shape_swapaxes, !proj_swap3.
    pose proof (win_fits _ _ _ H (swap_axis a b c)) as F.
    rewrite shape_swapaxes, proj_swap3, swap_axis_invol in F. exact F.
  - intros i Hi. rewrite shape_swapaxes in Hi.
    rewrite get_swapaxes by exact Hi.
    pose proof (in_range_swap3 _ _ _ _ Hi) as Hi'.
    rewrite (win_get _ _ _ H) by exact Hi'.
    pose proof (window_in_range _ _ _ H _ Hi') as Hr.
    rewrite shape_swapaxes in Hr. rewrite get_swapaxes by exact Hr.
    f_equal. apply triple_ext. intros c.
    rewrite proj_swap3, !proj_add3, !proj_swap3, swap_axis_invol. reflexivity.
  - intros j Hj c. rewrite shape_swapaxes, !proj_swap3.
    assert (Hj' : occupied (swapaxes g a b) (swap3 a b j)).
    { apply occupied_swapaxes. rewrite swap3_invol. exact Hj. }
    pose proof (win_all _ _ _ H _ Hj' (swap_axis a b c)) as B.
    rewrite proj_swap3, swap_axis_invol in B. exact B.
Qed.

(** ** crop_cube *)

Lemma slice_offset_surj (ny nz q : nat) :
  q < ny * nz -> exists y z, y < ny /\ z < nz /\ q = y * nz + z.
Proof.
  intros Hq. destruct (offset_surj (1, ny, nz) q) as ([[x y] z] & Hr & E).
  - simpl. lia.
  - destruct Hr as (Hx & Hy & Hz). simpl in *.
    exists y, z. repeat split; try assumption. lia.
Qed.

(** The two loops, run on the leading axis of [h]: what is left is a window
    of [h] whose first and last slices hold an occupied cell. *)
Lemma crop_leading_axis (h : grid) (nx ny nz : nat) :
  wf h -> shape h = (nx, ny, nz) -> (exists i, occupied h i) ->
  exists lo nx1 d1 nx2 d2,
    strip_leading nx (ny * nz) (flat h) = Ok (nx1, d1) /\
    strip_trailing nx1 (ny * nz) d1 = Ok (nx2, d2) /\
    is_window h (Grid (nx2, ny, nz) d2) (lo, 0, 0) /\
    tight_axis (Grid (nx2, ny, nz) d2) Ax0.
Proof.
  intros W Es (i & Hi).
  unfold wf in W. rewrite Es in W. simpl in W.
  set (m := ny * nz) in *. set (d := flat h) in *.
  assert (Hget : forall x y z, get h (x, y, z) = nth (x * m + (y * nz + z)) d 0%Z).
  { intros x y z. unfold get. rewrite Es. reflexivity. }
  assert (Hnz : exists p, p < nx * m /\ nth p d 0%Z <> 0%Z).
  { destruct i as [[x y] z]. destruct Hi as [Hr Hn]. rewrite Es in Hr.
    exists (x * m + (y * nz + z)). split.
    - apply (offset_lt (nx, ny, nz) (x, y, z) Hr).
    - rewrite <- Hget. exact Hn. }
  destruct (strip_leading_spec m nx d W Hnz)
    as (lo & nx1 & E1 & Hsum & Hnx1 & Hbefore & q & Hq & Hnq).
  set (d1 := drop (lo * m) d) in *.
  assert (W1 : length d1 = nx1 * m).
  { unfold d1. rewrite length_skipn, W. subst nx.
    rewrite Nat.mul_add_distr_r. lia. }
  assert (Hd1 : forall p, nth p d1 0%Z = nth (lo * m + p) d 0%Z)
    by (intros p; apply nth_skipn).
  assert (Hnz1 : exists p, p < nx1 * m /\ nth p d1 0%Z <> 0%Z).
  { exists q. split; [|rewrite Hd1; exact Hnq].
    assert (1 * m <= nx1 * m) by (apply Nat.mul_le_mono_r; lia). lia. }
  destruct (strip_trailing_spec m nx1 d1 W1 Hnz1)
    as (nx2 & E2 & Hnx2 & Hafter & q' & Hq' & Hnq').
  set (d2 := take (nx2 * m) d1) in *.
  assert (Hle : nx2 * m <= nx1 * m) by (apply Nat.mul_le_mono_r; lia).
  assert (Hd2 : forall p, p < nx2 * m -> nth p d2 0%Z = nth (lo * m + p) d 0%Z).
  { intros p Hp. unfold d2. rewrite nth_firstn.
    apply Nat.ltb_lt in Hp. rewrite Hp. apply Hd1. }
  set (h' := Grid (nx2, ny, nz) d2).
  assert (Hget' : forall x y z, x < nx2 -> y < ny -> z < nz ->
                   get h' (x, y, z) = get h (x + lo, y + 0, z + 0)).
  { intros x y z Hx Hy Hz. rewrite Hget. unfold get, h'. simpl. fold m.
    rewrite Hd2.
    - f_equal. rewrite !Nat.add_0_r. lia.
    - apply mul_add_lt; [exact Hx|]. apply mul_add_lt; assumption. }
  exists lo, nx1, d1, nx2, d2.
  split; [exact E1|]. split; [exact E2|]. split.
  - constructor.
    + unfold wf, h'. simpl. fold m. unfold d2. rewrite length_firstn. lia.
    + intros a. rewrite Es. destruct a; simpl; lia.
    + intros [[x y] z] (Hx & Hy & Hz). simpl in Hx, Hy, Hz.
      apply Hget'; assumption.
    + intros [[x y] z] [Hr Hn] a. rewrite Es in Hr.
      destruct Hr as (Hx & Hy & Hz). simpl in Hx, Hy, Hz.
      rewrite Hget in Hn.
      assert (Hr : y * nz + z < m) by (apply mul_add_lt; assumption).
      destruct a; simpl; try lia. split.
      * destruct (Nat.le_gt_cases lo x) as [Hge|Hlt]; [exact Hge|].
        exfalso. apply Hn, Hbefore. apply mul_add_lt; assumption.
      * destruct (Nat.lt_ge_cases x (lo + nx2)) as [Hlt|Hge]; [exact Hlt|].
        exfalso. apply Hn.
        assert (Hm : (lo + nx2) * m <= x * m) by (apply Nat.mul_le_mono_r; lia).
        rewrite Nat.mul_add_distr_r in Hm.
        replace (x * m + (y * nz + z))
          with (lo * m + (x * m + (y * nz + z) - lo * m)) by lia.
        rewrite <- Hd1. apply Hafter. lia.
  - split.
    + destruct (slice_offset_surj ny nz q Hq) as (y & z & Hy & Hz & ->).
      exists (0, y, z). split; [|reflexivity]. split.
      * unfold in_range, h'. simpl. lia.
      * rewrite Hget' by (assumption || lia). rewrite Hget. simpl.
        replace (lo * m + ((y + 0) * nz + (z + 0))) with (lo * m + (y * nz + z))
          by (rewrite !Nat.add_0_r; reflexivity).
        exact Hnq.
    + destruct (slice_offset_surj ny nz q' Hq') as (y & z & Hy & Hz & ->).
      exists (nx2 - 1, y, z). split; [|unfold h'; simpl; lia]. split.
      * unfold in_range, h'. simpl. lia.
      * rewrite Hget' by (assumption || lia). rewrite Hget.
        rewrite Hd1 in Hnq'.
        replace ((nx2 - 1 + lo) * m + ((y + 0) * nz + (z + 0)))
          with (lo * m + ((nx2 - 1) * m + (y * nz + z)))
          by (rewrite !Nat.add_0_r; lia).
        exact Hnq'.
Qed.

(** One iteration of the loop of [crop_cube]: the result is the window of
    the input that is tight along axis [a]; the other axes are untouched. *)
Lemma crop_axis_spec (g : grid) (a : axis) :
  wf g -> (exists i, occupied g i) ->
  exists g' lo,
    crop_axis g a = Ok g' /\ is_window g g' lo /\ tight_axis g' a /\
    (forall c, c <> a -> proj c lo = 0 /\ proj c (shape g') = proj c (shape g)).
Proof.
  intros W (i & Hi). unfold crop_axis.
  pose proof (shape_swapaxes g Ax0 a) as Es.
  destruct (swap3 Ax0 a (shape g)) as [[nx ny] nz] eqn:Esw.
  rewrite Es.
  destruct (crop_leading_axis (swapaxes g Ax0 a) nx ny nz)
    as (lo & nx1 & d1 & nx2 & d2 & E1 & E2 & Hw & Ht).
  - apply wf_swapaxes.
  - exact Es.
  - exists (swap3 Ax0 a i). apply occupied_swapaxes.
    rewrite swap3_invol. exact Hi.
  - rewrite E1. simpl. rewrite E2. simpl.
    exists (swapaxes (Grid (nx2, ny, nz) d2) Ax0 a), (swap3 Ax0 a (lo, 0, 0)).
    split; [reflexivity|]. split; [apply window_swapaxes; assumption|]. split.
    + destruct Ht as [(j & Hj & Hj0) (k & Hk & Hk1)]. split.
      * exists (swap3 Ax0 a j). split.
        -- apply occupied_swapaxes. rewrite swap3_invol. exact Hj.
        -- rewrite proj_swap3. destruct a; exact Hj0.
      * exists (swap3 Ax0 a k). split.
        -- apply occupied_swapaxes. rewrite swap3_invol. exact Hk.
        -- rewrite shape_swapaxes, !proj_swap3. destruct a; exact Hk1.
    + intros c Hc. rewrite shape_swapaxes, !proj_swap3.
      assert (Ec : proj c (shape g) = proj (swap_axis Ax0 a c) (nx, ny, nz)).
      { rewrite <- Esw, proj_swap3, swap_axis_invol. reflexivity. }
      rewrite Ec. destruct a, c; try congruence; simpl; auto.
Qed.

(** [crop_cube] returns, on every array with an occupied cell, the tight
    window that contains all occupied cells. *)
Lemma crop_cube_spec (g : grid) :
  wf g -> (exists i, occupied g i) ->
  exists g' lo, crop_cube g = Ok g' /\ is_window g g' lo /\ tight g'.
Proof.
  intros W Hocc. unfold crop_cube.
  destruct (crop_axis_spec g Ax0 W Hocc) as (g0 & lo0 & E0 & W0 & T0 & _).
  rewrite E0. simpl.
  pose proof (window_occupied_ex _ _ _ W0 Hocc) as Hocc0.
  destruct (crop_axis_spec g0 Ax1 (win_wf _ _ _ W0) Hocc0)
    as (g1 & lo1 & E1 & W1 & T1 & K1).
  rewrite E1. simpl.
  pose proof (window_occupied_ex _ _ _ W1 Hocc0) as Hocc1.
  destruct (crop_axis_spec g1 Ax2 (win_wf _ _ _ W1) Hocc1)
    as (g2 & lo2 & E2 & W2 & T2 & K2).
  exists g2, (add3 lo2 (add3 lo1 lo0)). split; [exact E2|]. split.
  - eapply window_trans; [|exact W2]. eapply window_trans; eassumption.
  - assert (T01 : tight_axis g1 Ax0).
    { destruct (K1 Ax0 ltac:(discriminate)) as [? ?].
      eapply window_tight_axis; eassumption. }
    intros [ | | ].
    + destruct (K2 Ax0 ltac:(discriminate)) as [? ?].
      eapply window_tight_axis; eassumption.
    + destruct (K2 Ax1 ltac:(discriminate)) as [? ?].
      eapply window_tight_axis; eassumption.
    + exact T2.
Qed.

(** C6: on every 3-D grid with at least one occupied cell, [crop_cube]
    terminates without an exception and returns the minimal bounding box:
    a sub-grid [g'] of the input, starting at some offset [lo], that holds
    the cells of the input at the same relative positions, contains every
    occupied cell of the input, and has no all-zero boundary slice on any
    axis. *)
Theorem crop_cube_minimal_bounding_box (g : grid) :
  wf g -> (exists i, occupied g i) ->
  exists g' lo,
    crop_cube g = Ok g' /\
    wf g' /\
    (forall a, proj a lo + proj a (shape g') <= proj a (shape g)) /\
    (forall i, in_range (shape g') i -> get g' i = get g (add3 i lo)) /\
    (forall j, occupied g j -> occupied g' (sub3 j lo) /\ add3 (sub3 j lo) lo = j) /\
    tight g'.
Proof.
  intros W Hocc.
  destruct (crop_cube_spec g W Hocc) as (g' & lo & E & Hw & Ht).
  exists g', lo. split; [exact E|].
  split; [apply (win_wf _ _ _ Hw)|].
  split; [apply (win_fits _ _ _ Hw)|].
  split; [apply (win_get _ _ _ Hw)|].
  split; [apply (window_down _ _ _ Hw) | exact Ht].
Qed.

Lemma crop_cube_minimal_bounding_box_witness :
  let g := Grid (2, 2, 2) [0; 0; 0; 1; 0; 0; 0; 0]%Z in
  wf g /\ (exists i, occupied g i) /\
  exists g' lo,
    crop_cube g = Ok g' /\
    wf g' /\
    (forall a, proj a lo + proj a (shape g') <= proj a (shape g)) /\
    (forall i, in_range (shape g') i -> get g' i = get g (add3 i lo)) /\
    (forall j, occupied g j -> occupied g' (sub3 j lo) /\ add3 (sub3 j lo) lo = j) /\
    tight g'.
Proof.
  intros g.
  assert (W : wf g) by reflexivity.
  assert (H : exists i, occupied g i).
  { exists (0, 1, 1). split; [unfold in_range; simpl; lia | discriminate]. }
  split; [exact W|]. split; [exact H|].
  exact (crop_cube_minimal_bounding_box g W H).
Defined.

(** ** Occupied cells and their number *)

Lemma in_nonzero g i : In i (nonzero g) <-> occupied g i.
Proof.
  unfold nonzero, occupied. rewrite filter_In, in_indices, negb_true_iff, Z.eqb_neq.
  reflexivity.
Qed.

Lemma NoDup_nonzero g : List.NoDup (nonzero g).
Proof. apply List.NoDup_filter, NoDup_indices. Qed.

Lemma add3_inj lo i j : add3 i lo = add3 j lo -> i = j.
Proof.
  intros E. apply triple_ext. intros a.
  assert (H : proj a (add3 i lo) = proj a (add3 j lo)) by (rewrite E; reflexivity).
  rewrite !proj_add3 in H. lia.
Qed.

(** A window has as many occupied cells as the array it is cut from. *)
Lemma window_count g g' lo : is_window g g' lo -> count_occupied g' = count_occupied g.
Proof.
  intros H. unfold count_occupied.
  rewrite <- (length_map (fun i => add3 i lo) (nonzero g')).
  apply Permutation_length, Permutation.NoDup_Permutation.
  - apply Finite.Injective_map_NoDup; [|apply NoDup_nonzero].
    intros i j. apply add3_inj.
  - apply NoDup_nonzero.
  - intros j. rewrite in_map_iff, in_nonzero. split.
    + intros (i & <- & Hi). apply in_nonzero in Hi. apply (window_up _ _ _ H), Hi.
    + intros Hj. destruct (window_down _ _ _ H j Hj) as [Hi E].
      exists (sub3 j lo). split; [exact E | apply in_nonzero, Hi].
Qed.

Lemma shape_set_cell g i v : shape (set_cell g i v) = shape g.
Proof. reflexivity. Qed.

Lemma index_eq_dec (i j : index) : {i = j} + {i <> j}.
Proof. repeat decide equality. Defined.

Lemma occupied_set_cell g p i :
  wf g -> in_range (shape g) p ->
  occupied (set_cell g p 1) i <-> occupied g i \/ i = p.
Proof.
  intros W Hp. unfold occupied. rewrite shape_set_cell.
  destruct (index_eq_dec i p) as [->|Hne].
  - rewrite get_set_cell_eq by assumption. split; [auto|].
    intros _. split; [exact Hp | discriminate].
  - split.
    + intros [Hr Hn]. rewrite get_set_cell_ne in Hn by auto. auto.
    + intros [[Hr Hn]|E]; [|contradiction].
      rewrite get_set_cell_ne by auto. auto.
Qed.

(** Filling an empty cell adds one occupied cell. *)
Lemma count_set_cell g p :
  wf g -> in_range (shape g) p -> get g p = 0%Z ->
  count_occupied (set_cell g p 1) = count_occupied g + 1.
Proof.
  intros W Hp H0. unfold count_occupied.
  replace (length (nonzero g) + 1) with (length (p :: nonzero g)) by (simpl; lia).
  apply Permutation_length, Permutation.NoDup_Permutation.
  - apply NoDup_nonzero.
  - constructor; [|apply NoDup_nonzero].
    rewrite in_nonzero. intros [_ Hn]. contradiction.
  - intros i. rewrite in_nonzero, occupied_set_cell by assumption.
    simpl. rewrite in_nonzero. split; intros [H|H]; auto.
Qed.

(** ** Padding *)

Lemma wf_pad g : wf (pad g).
Proof. unfold pad. destruct (shape g) as [[nx ny] nz]. apply wf_tabulate. Qed.

Lemma shape_pad g a : proj a (shape (pad g)) = proj a (shape g) + 2.
Proof. unfold pad. destruct (shape g) as [[nx ny] nz]. destruct a; reflexivity. Qed.

Lemma get_pad g x y z :
  in_range (shape (pad g)) (x, y, z) ->
  get (pad g) (x, y, z) =
  let '(nx, ny, nz) := shape g in
  if (1 <=? x) && (x <=? nx) && (1 <=? y) && (y <=? ny) && (1 <=? z) && (z <=? nz)
  then get g (x - 1, y - 1, z - 1) else 0%Z.
Proof.
  unfold pad. destruct (shape g) as [[nx ny] nz]. intros H.
  rewrite get_tabulate by exact H. reflexivity.
Qed.

(** The occupied cells of the padded array are strictly inside it. *)
Lemma pad_occupied_interior g j :
  occupied (pad g) j -> forall a, 1 <= proj a j <= proj a (shape g).
Proof.
  destruct j as [[x y] z]. intros [Hr Hn]. rewrite get_pad in Hn by exact Hr.
  destruct (shape g) as [[nx ny] nz].
  destruct ((1 <=? x) && (x <=? nx) && (1 <=? y) && (y <=? ny)
            && (1 <=? z) && (z <=? nz)) eqn:E; [|congruence].
  repeat (apply andb_prop in E; destruct E as [E ?]).
  repeat match goal with H : (_ <=? _) = true |- _ => apply Nat.leb_le in H end.
  intros a. destruct a; simpl; lia.
Qed.

Lemma window_pad g : wf g -> is_window (pad g) g (1, 1, 1).
Proof.
  intros W. constructor.
  - exact W.
  - intros a. rewrite shape_pad. destruct a; simpl; lia.
  - intros [[x y] z] Hi.
    assert (Hr : in_range (shape (pad g)) (add3 (x, y, z) (1, 1, 1))).
    { apply in_range_proj. intros a. rewrite shape_pad, proj_add3.
      rewrite in_range_proj in Hi. specialize (Hi a). destruct a; simpl in *; lia. }
    change (add3 (x, y, z) (1, 1, 1)) with (x + 1, y + 1, z + 1) in *.
    rewrite get_pad by exact Hr.
    destruct (shape g) as [[nx ny] nz]. destruct Hi as (Hx & Hy & Hz).
    cbn [proj] in Hx, Hy, Hz.
    assert (C : (1 <=? x + 1) && (x + 1 <=? nx) && (1 <=? y + 1) && (y + 1 <=? ny)
                && (1 <=? z + 1) && (z + 1 <=? nz) = true)
      by (rewrite !andb_true_iff, !Nat.leb_le; lia).
    rewrite C. f_equal.
    replace (x + 1 - 1) with x by lia. replace (y + 1 - 1) with y by lia.
    replace (z + 1 - 1) with z by lia. reflexivity.
  - intros j Hj a. pose proof (pad_occupied_interior g j Hj a).
    destruct a; simpl in *; lia.
Qed.

(** ** Index-array assignment and the frontier *)

Lemma shape_set_cells g l v : shape (set_cells g l v) = shape g.
Proof.
  revert g. induction l as [|i l IH]; intros g; simpl; [reflexivity|].
  unfold set_cells in *. simpl. rewrite IH. reflexivity.
Qed.

Lemma wf_set_cells g l v : wf g -> wf (set_cells g l v).
Proof.
  revert g. induction l as [|i l IH]; intros g W; [exact W|].
  apply (IH (set_cell g i v)), wf_set_cell, W.
Qed.

Lemma set_cells_app g l1 l2 v :
  set_cells g (l1 ++ l2) v = set_cells (set_cells g l1 v) l2 v.
Proof. unfold set_cells. apply fold_left_app. Qed.

Lemma get_set_cells_notin g l v j :
  Forall (in_range (shape g)) l -> in_range (shape g) j -> ~ In j l ->
  get (set_cells g l v) j = get g j.
Proof.
  revert g. induction l as [|i l IH]; intros g Hl Hj Hn; [reflexivity|].
  inversion Hl as [|? ? Hi Hl']; subst.
  change (get (set_cells (set_cell g i v) l v) j = get g j).
  rewrite IH.
  - apply get_set_cell_ne; try assumption. intros ->. apply Hn. left. reflexivity.
  - exact Hl'.
  - exact Hj.
  - intros H. apply Hn. right. exact H.
Qed.

Lemma get_set_cells_in g l v j :
  wf g -> Forall (in_range (shape g)) l -> In j l ->
  get (set_cells g l v) j = v.
Proof.
  revert g. induction l as [|i l IH]; intros g W Hl Hj; [contradiction|].
  inversion Hl as [|? ? Hi Hl']; subst.
  change (get (set_cells (set_cell g i v) l v) j = v).
  destruct (in_dec index_eq_dec j l) as [Hin|Hnot].
  - apply IH; [apply wf_set_cell, W | exact Hl' | exact Hin].
  - destruct Hj as [->|Hin]; [|contradiction].
    rewrite get_set_cells_notin by assumption.
    apply get_set_cell_eq; assumption.
Qed.

Lemma get_xor g1 g2 i :
  wf g1 -> wf g2 -> shape g1 = shape g2 -> in_range (shape g1) i ->
  get (xor g1 g2) i = Z.lxor (get g1 i) (get g2 i).
Proof.
  intros W1 W2 Es Hi. unfold get, xor. simpl. rewrite <- Es.
  pose proof (offset_lt _ _ Hi) as Hlt.
  set (p := offset (shape g1) i) in *.
  assert (H1 : p < length (flat g1)) by (rewrite W1; exact Hlt).
  assert (H2 : p < length (flat g2)) by (rewrite W2, <- Es; exact Hlt).
  destruct (lookup_lt_is_Some_2 _ _ H1) as [c1 E1].
  destruct (lookup_lt_is_Some_2 _ _ H2) as [c2 E2].
  rewrite (nth_lookup_Some _ _ _ _ E1), (nth_lookup_Some _ _ _ _ E2).
  apply nth_lookup_Some. rewrite lookup_zip_with, E1. simpl. rewrite E2.
  reflexivity.
Qed.

Lemma proj_shift_up c a i :
  proj c (shift_up a i) = if axis_eqb c a then proj c i + 1 else proj c i.
Proof. destruct c; reflexivity. Qed.

Lemma proj_shift_down c a i :
  proj c (shift_down a i) = if axis_eqb c a then proj c i - 1 else proj c i.
Proof. destruct c; reflexivity. Qed.

Lemma shift_up_down a q : 1 <= proj a q -> shift_up a (shift_down a q) = q.
Proof.
  intros H. apply triple_ext. intros c. rewrite proj_shift_up, proj_shift_down.
  destruct (axis_eqb c a) eqn:E; [|reflexivity].
  apply RotationFacts.axis_eqb_eq in E. subst c. lia.
Qed.

Lemma adjacent_sym i j : adjacent i j -> adjacent j i.
Proof. intros (a & [H|H]); exists a; auto. Qed.

Lemma expand_output_touched g :
  expand_output g = set_cells (expand_padded g) (expand_touched g) 1.
Proof. unfold expand_output, expand_touched. rewrite !set_cells_app. reflexivity. Qed.

(** Every index of the six assignments is inside the padded array and next
    to the occupied cell it was computed from: [xs-1] never wraps around
    and [xs+1] never leaves the array. *)
Lemma expand_touched_spec g p :
  In p (expand_touched g) ->
  in_range (shape (pad g)) p /\ exists q, occupied (pad g) q /\ adjacent q p.
Proof.
  unfold expand_touched, expand_padded. rewrite !in_app_iff, !in_map_iff.
  assert (Up : forall a q, In q (nonzero (pad g)) ->
            in_range (shape (pad g)) (shift_up a q)
            /\ exists q', occupied (pad g) q' /\ adjacent q' (shift_up a q)).
  { intros a q Hq. apply in_nonzero in Hq. split.
    - apply in_range_proj. intros c. rewrite shape_pad, proj_shift_up.
      pose proof (pad_occupied_interior g q Hq c). destruct (axis_eqb c a); lia.
    - exists q. split; [exact Hq|]. exists a. left. reflexivity. }
  assert (Down : forall a q, In q (nonzero (pad g)) ->
            in_range (shape (pad g)) (shift_down a q)
            /\ exists q', occupied (pad g) q' /\ adjacent q' (shift_down a q)).
  { intros a q Hq. apply in_nonzero in Hq. split.
    - apply in_range_proj. intros c. rewrite shape_pad, proj_shift_down.
      pose proof (pad_occupied_interior g q Hq c). destruct (axis_eqb c a); lia.
    - exists q. split; [exact Hq|]. exists a. right.
      symmetry. apply shift_up_down. apply (pad_occupied_interior g q Hq a). }
  intros [[[[[H|H]|H]|H]|H]|H]; destruct H as (q & <- & Hq); auto.
Qed.

(** The frontier: the cells that are not 1 in the padded array and are
    face-adjacent to one of its occupied cells. *)
Lemma expand_positions_spec g p :
  In p (expand_positions g) ->
  in_range (shape (pad g)) p /\ get (pad g) p <> 1%Z /\
  exists q, occupied (pad g) q /\ adjacent q p.
Proof.
  unfold expand_positions. rewrite in_nonzero, expand_output_touched.
  unfold expand_padded, occupied. intros [Hr Hn].
  change (shape (xor (set_cells (pad g) (expand_touched g) 1) (pad g)))
    with (shape (set_cells (pad g) (expand_touched g) 1)) in Hr.
  rewrite shape_set_cells in Hr.
  assert (Hall : Forall (in_range (shape (pad g))) (expand_touched g)).
  { apply Forall_forall. intros q Hq. apply list_elem_of_In in Hq.
    apply (expand_touched_spec g q Hq). }
  rewrite get_xor in Hn;
    [| apply wf_set_cells, wf_pad | apply wf_pad | apply shape_set_cells
     | rewrite shape_set_cells; exact Hr].
  destruct (in_dec index_eq_dec p (expand_touched g)) as [Hin|Hnot].
  - rewrite get_set_cells_in in Hn by (assumption || apply wf_pad).
    split; [exact Hr|]. split.
    + intros E. rewrite E in Hn. apply Hn. reflexivity.
    + apply (expand_touched_spec g p Hin).
  - rewrite get_set_cells_notin in Hn by assumption.
    rewrite Z.lxor_nilpotent in Hn. congruence.
Qed.

(** ** expand_cube never raises *)

Lemma traverse_spec {A B} (f : A -> result B) (Q : A -> B -> Prop) (l : list A) :
  (forall x, In x l -> exists y, f x = Ok y /\ Q x y) ->
  exists ys, traverse f l = Ok ys /\ Forall2 Q l ys.
Proof.
  induction l as [|x l IH]; intros H.
  - exists []. split; [reflexivity | constructor].
  - destruct (H x (or_introl eq_refl)) as (y & E & Hy).
    destruct IH as (ys & Es & Hys); [intros x' Hx'; apply H; right; exact Hx'|].
    exists (y :: ys). simpl. rewrite E. simpl. rewrite Es. simpl.
    split; [reflexivity | constructor; assumption].
Qed.

Lemma expand_cube_spec g :
  exists l, expand_cube g = Ok l /\ Forall2 (yields_from g) (expand_candidates g) l.
Proof.
  unfold expand_cube. apply traverse_spec.
  intros c Hc. unfold expand_candidates, expand_padded in Hc.
  apply in_map_iff in Hc. destruct Hc as (p & <- & Hp).
  destruct (expand_positions_spec g p Hp) as (Hr & _ & _).
  destruct (crop_cube_spec (set_cell (pad g) p 1)) as (y & lo & E & Hw & Ht).
  - apply wf_set_cell, wf_pad.
  - exists p. apply occupied_set_cell; [apply wf_pad | exact Hr | right; reflexivity].
  - exists y. split; [exact E|]. exists p, lo. auto.
Qed.

Lemma Forall2_In_r {A B} (P : A -> B -> Prop) (l : list A) (k : list B) (y : B) :
  Forall2 P l k -> In y k -> exists x, In x l /\ P x y.
Proof.
  induction 1 as [|x y' l k Hxy _ IH]; intros Hy; [contradiction|].
  destruct Hy as [<-|Hy].
  - exists x. split; [left; reflexivity | exact Hxy].
  - destruct (IH Hy) as (x' & Hx' & HP). exists x'. split; [right|]; assumption.
Qed.

(** ** expand_cube: size, tightness, distinctness *)

Lemma binary_get g i : binary g -> get g i = 0%Z \/ get g i = 1%Z.
Proof.
  unfold binary, get. intros B.
  destruct (Nat.lt_ge_cases (offset (shape g) i) (length (flat g))) as [Hlt|Hge].
  - apply (proj1 (List.Forall_forall _ _) B). apply nth_In, Hlt.
  - left. apply nth_overflow, Hge.
Qed.

Lemma binary_get_pad g p :
  binary g -> in_range (shape (pad g)) p -> get (pad g) p = 0%Z \/ get (pad g) p = 1%Z.
Proof.
  intros B Hp. destruct p as [[x y] z]. rewrite get_pad by exact Hp.
  destruct (shape g) as [[nx ny] nz].
  match goal with |- context [if ?c then _ else _] => destruct c end;
    [apply binary_get, B | left; reflexivity].
Qed.

Lemma binary_ones s : binary (ones s).
Proof.
  unfold binary, ones, tabulate. simpl. apply List.Forall_forall.
  intros c Hc. apply in_map_iff in Hc. destruct Hc as (i & <- & _). right. reflexivity.
Qed.

(** C7: for every bounding-box-tight {0,1} grid with [k >= 1] occupied
    cells, [expand_cube] runs to completion and every grid it yields has
    exactly [k + 1] occupied cells and is bounding-box-tight. *)
Theorem expand_cube_size_and_tight (g : grid) :
  wf g -> binary g -> tight g -> 1 <= count_occupied g ->
  exists l, expand_cube g = Ok l /\
            forall g', In g' l ->
                       count_occupied g' = count_occupied g + 1 /\ tight g'.
Proof.
  intros W B _ _. destruct (expand_cube_spec g) as (l & E & Hl).
  exists l. split; [exact E|]. intros g' Hg'.
  destruct (Forall2_In_r _ _ _ _ Hl Hg') as (c & _ & p & lo & Hp & -> & _ & Hw & Ht).
  split; [|exact Ht].
  destruct (expand_positions_spec g p Hp) as (Hr & Hn1 & _).
  rewrite (window_count _ _ _ Hw).
  rewrite count_set_cell; [| apply wf_pad | exact Hr |].
  - rewrite <- (window_count _ _ _ (window_pad g W)). reflexivity.
  - destruct (binary_get_pad g p B Hr); [assumption | contradiction].
Qed.

Lemma expand_cube_size_and_tight_witness :
  let g := ones (2, 1, 1) in
  wf g /\ binary g /\ tight g /\ 1 <= count_occupied g /\
  exists l, expand_cube g = Ok l /\
            forall g', In g' l ->
                       count_occupied g' = count_occupied g + 1 /\ tight g'.
Proof.
  intros g.
  assert (W : wf g) by reflexivity.
  assert (B : binary g) by apply binary_ones.
  assert (T : tight g).
  { intros a. split.
    - exists (0, 0, 0). split; [|destruct a; reflexivity].
      split; [unfold in_range; simpl; lia | discriminate].
    - exists (1, 0, 0). split; [|destruct a; reflexivity].
      split; [unfold in_range; simpl; lia | discriminate]. }
  assert (K : 1 <= count_occupied g) by (vm_compute; lia).
  split; [exact W|]. split; [exact B|]. split; [exact T|]. split; [exact K|].
  exact (expand_cube_size_and_tight g W B T K).
Defined.

Lemma NoDup_expand_candidates g : List.NoDup (expand_candidates g).
Proof.
  unfold expand_candidates, expand_padded.
  apply Finite.Injective_map_NoDup_in; [|apply NoDup_nonzero].
  intros p q Hp Hq E.
  destruct (expand_positions_spec g p Hp) as (Hrp & Hnp & _).
  destruct (expand_positions_spec g q Hq) as (Hrq & _ & _).
  destruct (index_eq_dec p q) as [Heq|Hne]; [exact Heq|]. exfalso.
  assert (H : get (set_cell (pad g) p 1) p = get (set_cell (pad g) q 1) p)
    by (rewrite E; reflexivity).
  rewrite get_set_cell_eq in H by (apply wf_pad || exact Hrp).
  rewrite get_set_cell_ne in H by auto.
  apply Hnp. symmetry. exact H.
Qed.

(** C9, as the code has it: two of the grids yielded for the single cube
    are equal (the cube grown to the left and to the right both crop to the
    2x1x1 domino). *)
Lemma expand_cube_yields_duplicates :
  let g := ones (1, 1, 1) in
  wf g /\ binary g /\ tight g /\ count_occupied g = 1 /\
  expand_cube g = Ok [ones (2, 1, 1); ones (1, 2, 1); ones (1, 1, 2);
                      ones (1, 1, 2); ones (1, 2, 1); ones (2, 1, 1)] /\
  ~ List.NoDup [ones (2, 1, 1); ones (1, 2, 1); ones (1, 1, 2);
                ones (1, 1, 2); ones (1, 2, 1); ones (2, 1, 1)].
Proof.
  intros g. split; [reflexivity|]. split; [apply binary_ones|]. split.
  { intros a. split; exists (0, 0, 0);
      (split; [split; [unfold in_range; simpl; lia | discriminate]
              | destruct a; reflexivity]). }
  split; [reflexivity|]. split; [reflexivity|].
  intros H. inversion H as [|? ? Hn _]. apply Hn. simpl. auto 10.
Qed.

(** ** Paths and connectivity *)

Lemma path_occupied_l g i j : path g i j -> occupied g i.
Proof. destruct 1; assumption. Qed.

Lemma path_occupied_r g i j : path g i j -> occupied g j.
Proof. induction 1; assumption. Qed.

Lemma path_trans g i j k : path g i j -> path g j k -> path g i k.
Proof.
  induction 1 as [i Hi | i j' j Hi Hadj _ IH]; intros H; [exact H|].
  eapply path_step; [exact Hi | exact Hadj | apply IH, H].
Qed.

Lemma path_sym g i j : path g i j -> path g j i.
Proof.
  induction 1 as [i Hi | i j' j Hi Hadj Hp IH]; [apply path_here, Hi|].
  eapply path_trans; [exact IH|].
  eapply path_step; [apply (path_occupied_l _ _ _ Hp) | apply adjacent_sym, Hadj
                    | apply path_here, Hi].
Qed.

Lemma path_mono g g2 i j :
  (forall x, occupied g x -> occupied g2 x) -> path g i j -> path g2 i j.
Proof.
  intros Hsub. induction 1 as [i Hi | i j' j Hi Hadj _ IH].
  - apply path_here, Hsub, Hi.
  - eapply path_step; [apply Hsub, Hi | exact Hadj | exact IH].
Qed.

Lemma shift_up_add3 a i lo : shift_up a (add3 i lo) = add3 (shift_up a i) lo.
Proof.
  apply triple_ext. intros c. rewrite proj_shift_up, !proj_add3, proj_shift_up.
  destruct (axis_eqb c a); lia.
Qed.

Lemma adjacent_add3 i j lo : adjacent (add3 i lo) (add3 j lo) <-> adjacent i j.
Proof.
  split; intros (a & H); exists a.
  - rewrite shift_up_add3 in H. rewrite shift_up_add3 in H.
    destruct H as [H|H]; apply add3_inj in H; auto.
  - rewrite !shift_up_add3. destruct H as [->| ->]; auto.
Qed.

Section WindowPaths.
Variables (g g' : grid) (lo : index).
Hypothesis Hwin : is_window g g' lo.

Lemma window_path_up i j : path g' i j -> path g (add3 i lo) (add3 j lo).
Proof.
  induction 1 as [i Hi | i j' j Hi Hadj _ IH].
  - apply path_here, (window_up _ _ _ Hwin), Hi.
  - eapply path_step; [apply (window_up _ _ _ Hwin), Hi
                      | apply adjacent_add3, Hadj | exact IH].
Qed.

Lemma window_path_down x y :
  path g x y -> path g' (sub3 x lo) (sub3 y lo).
Proof.
  induction 1 as [x Hx | x z y Hx Hadj Hp IH].
  - apply path_here, (window_down _ _ _ Hwin), Hx.
  - pose proof (path_occupied_l _ _ _ Hp) as Hz.
    destruct (window_down _ _ _ Hwin x Hx) as [Hx' Ex].
    destruct (window_down _ _ _ Hwin z Hz) as [Hz' Ez].
    eapply path_step; [exact Hx' | | exact IH].
    apply (adjacent_add3 _ _ lo). rewrite Ex, Ez. exact Hadj.
Qed.

(** A window is connected exactly when the array it is cut from is. *)
Lemma window_connected_down : connected g -> connected g'.
Proof.
  intros C i j Hi Hj.
  pose proof (window_path_down _ _
                (C _ _ (window_up _ _ _ Hwin i Hi) (window_up _ _ _ Hwin j Hj))) as P.
  rewrite !sub3_add3 in P. exact P.
Qed.

Lemma window_connected_up : connected g' -> connected g.
Proof.
  intros C x y Hx Hy.
  destruct (window_down _ _ _ Hwin x Hx) as [Hx' Ex].
  destruct (window_down _ _ _ Hwin y Hy) as [Hy' Ey].
  rewrite <- Ex, <- Ey. apply window_path_up, C; assumption.
Qed.

End WindowPaths.

(** Filling a cell next to an occupied cell keeps the array connected. *)
Lemma connected_set_cell g p q :
  wf g -> in_range (shape g) p -> occupied g q -> adjacent q p ->
  connected g -> connected (set_cell g p 1).
Proof.
  intros W Hp Hq Hadj C.
  assert (Sub : forall x, occupied g x -> occupied (set_cell g p 1) x)
    by (intros x Hx; apply occupied_set_cell; auto).
  assert (Pp : occupied (set_cell g p 1) p)
    by (apply occupied_set_cell; auto).
  assert (Qp : path (set_cell g p 1) q p).
  { eapply path_step; [apply Sub, Hq | exact Hadj | apply path_here, Pp]. }
  assert (To : forall x, occupied (set_cell g p 1) x -> path (set_cell g p 1) x q).
  { intros x Hx. apply occupied_set_cell in Hx; [|assumption..].
    destruct Hx as [Hx | ->].
    - apply (path_mono g); [exact Sub | apply C; assumption].
    - apply path_sym, Qp. }
  intros i j Hi Hj.
  eapply path_trans; [apply To, Hi | apply path_sym, To, Hj].
Qed.

(** Every grid yielded by [expand_cube] on a connected grid is connected. *)
Lemma expand_cube_connected g l :
  wf g -> connected g -> expand_cube g = Ok l ->
  forall g', In g' l -> wf g' /\ connected g'.
Proof.
  intros W C E g' Hg'. destruct (expand_cube_spec g) as (l' & E' & Hl).
  rewrite E in E'. injection E' as <-.
  destruct (Forall2_In_r _ _ _ _ Hl Hg') as (c & _ & p & lo & Hp & -> & _ & Hw & _).
  split; [apply (win_wf _ _ _ Hw)|].
  apply (window_connected_down _ _ _ Hw).
  destruct (expand_positions_spec g p Hp) as (Hr & _ & q & Hq & Hadj).
  apply (connected_set_cell _ p q); try assumption; [apply wf_pad|].
  apply (window_connected_up _ _ _ (window_pad g W)), C.
Qed.

(** ** The generation loop *)

Lemma fold_left_inv {A S} (f : S -> A -> S) (I : S -> Prop) (l : list A) (s : S) :
  I s -> (forall s a, I s -> In a l -> I (f s a)) -> I (fold_left f l s).
Proof.
  revert s. induction l as [|a l IH]; intros s Hs Hf; [exact Hs|].
  simpl. apply IH.
  - apply Hf; [exact Hs | left; reflexivity].
  - intros s' a' Hs' Ha'. apply Hf; [exact Hs' | right; exact Ha'].
Qed.

Lemma foldM_inv {A S} (f : S -> A -> result S) (I : S -> Prop) (l : list A) (s : S) :
  I s -> (forall s a, I s -> In a l -> exists s', f s a = Ok s' /\ I s') ->
  exists s', foldM f l s = Ok s' /\ I s'.
Proof.
  revert s. induction l as [|a l IH]; intros s Hs Hf.
  - exists s. split; [reflexivity | exact Hs].
  - destruct (Hf s a Hs (or_introl eq_refl)) as (s1 & E1 & H1).
    simpl. rewrite E1. simpl. apply IH; [exact H1|].
    intros s' a' Hs' Ha'. apply Hf; [exact Hs' | right; exact Ha'].
Qed.

Lemma cube_exists_rle_false (c : grid) (s : gset (list Z)) (r : grid) :
  cube_exists_rle c s = false -> In r (all_rotations c) -> rle r ∉ s.
Proof.
  intros E Hr Hs. unfold cube_exists_rle in E.
  assert (T : existsb (fun x => bool_decide (rle x ∈ s)) (all_rotations c) = true).
  { apply existsb_exists. exists r. split; [exact Hr | apply bool_decide_eq_true_2, Hs]. }
  congruence.
Qed.

Lemma rotation_free_snoc (ps : list grid) (c : grid) :
  rotation_free ps -> (forall p, In p ps -> ~ In p (all_rotations c)) ->
  rotation_free (ps ++ [c]).
Proof.
  intros F Hc i j p q Hij Hi Hj.
  destruct (Nat.lt_ge_cases j (length ps)) as [Hlt|Hge].
  - rewrite lookup_app_l in Hi by lia. rewrite lookup_app_l in Hj by lia.
    exact (F i j p q Hij Hi Hj).
  - pose proof (lookup_lt_Some _ _ _ Hj) as Hb. rewrite length_app in Hb. simpl in Hb.
    assert (j = length ps) by lia. subst j.
    rewrite lookup_app_r in Hj by lia. rewrite Nat.sub_diag in Hj.
    injection Hj as <-. rewrite lookup_app_l in Hi by lia.
    apply Hc. apply list_elem_of_In. eapply list_elem_of_lookup_2. exact Hi.
Qed.

(** The body of the inner loop keeps the invariant. *)
Lemma consider_inv (st : list grid * gset (list Z)) (c : grid) :
  level_inv st -> wf c /\ connected c -> level_inv (consider st c).
Proof.
  destruct st as [ps s]. intros (Hwc & Hrle & Hfree) Hc. unfold consider.
  destruct (cube_exists_rle c s) eqn:E; [exact (conj Hwc (conj Hrle Hfree))|].
  simpl in *. split; [|split].
  - intros g Hg. apply in_app_iff in Hg. destruct Hg as [Hg|[<-|[]]]; auto.
  - intros g Hg. apply elem_of_set_add. apply in_app_iff in Hg.
    destruct Hg as [Hg|[<-|[]]]; auto.
  - apply rotation_free_snoc; [exact Hfree|].
    intros p Hp Hin. apply (cube_exists_rle_false c s p E Hin). apply Hrle, Hp.
Qed.

(** The body of the outer loop never raises and keeps the invariant. *)
Lemma grow_inv (st : list grid * gset (list Z)) (base : grid) :
  level_inv st -> wf base -> connected base ->
  exists st', grow st base = Ok st' /\ level_inv st'.
Proof.
  intros Hst W C. unfold grow.
  destruct (expand_cube_spec base) as (l & E & _). rewrite E. simpl.
  eexists. split; [reflexivity|].
  apply fold_left_inv; [exact Hst|].
  intros s c Hs Hc. apply consider_inv; [exact Hs|].
  apply (expand_cube_connected base l W C E c Hc).
Qed.

Lemma next_level_inv base_cubes :
  (forall g, In g base_cubes -> wf g /\ connected g) ->
  exists l, next_level base_cubes = Ok l /\
            (forall g, In g l -> wf g /\ connected g) /\ rotation_free l.
Proof.
  intros Hb. unfold next_level.
  destruct (foldM_inv grow level_inv base_cubes ([], ∅)) as (st & E & Hwc & _ & Hfree).
  - split; [|split].
    + intros g [].
    + intros g [].
    + intros i j p q _ Hi. simpl in Hi. try rewrite lookup_nil in Hi. discriminate.
  - intros s a Hs Ha. destruct (Hb a Ha). apply grow_inv; assumption.
  - rewrite E. simpl. exists (fst st). auto.
Qed.

Lemma occupied_ones s i : occupied (ones s) i <-> in_range s i.
Proof.
  unfold occupied, ones. rewrite shape_tabulate. split; [intros [H _]; exact H|].
  intros H. split; [exact H|]. rewrite get_tabulate by exact H. discriminate.
Qed.

Lemma connected_monocube : connected (ones (1, 1, 1)).
Proof.
  intros i j Hi Hj. pose proof Hi as Hi'.
  apply occupied_ones in Hi, Hj.
  destruct i as [[x y] z], j as [[x' y'] z'].
  destruct Hi as (? & ? & ?), Hj as (? & ? & ?). simpl in *.
  assert (E : (x', y', z') = (x, y, z)) by (f_equal; [f_equal|]; lia).
  rewrite E. apply path_here, Hi'.
Qed.

Lemma connected_domino : connected (ones (2, 1, 1)).
Proof.
  assert (A : path (ones (2, 1, 1)) (0, 0, 0) (1, 0, 0)).
  { eapply path_step; [apply occupied_ones; unfold in_range; simpl; lia | |
                       apply path_here, occupied_ones; unfold in_range; simpl; lia].
    exists Ax0. left. reflexivity. }
  intros i j Hi Hj. pose proof Hi as Hi'. pose proof Hj as Hj'.
  apply occupied_ones in Hi, Hj.
  destruct i as [[x y] z], j as [[x' y'] z'].
  destruct Hi as (Hx & Hy & Hz), Hj as (Hx' & Hy' & Hz'). simpl in *.
  assert (y = 0) by lia. assert (z = 0) by lia.
  assert (y' = 0) by lia. assert (z' = 0) by lia. subst.
  assert (Cx : x = 0 \/ x = 1) by lia. assert (Cx' : x' = 0 \/ x' = 1) by lia.
  destruct Cx as [-> | ->], Cx' as [-> | ->].
  - apply path_here, Hi'.
  - exact A.
  - apply path_sym, A.
  - apply path_here, Hi'.
Qed.

Lemma rotation_free_singleton g : rotation_free [g].
Proof.
  intros i j p q Hij Hi Hj. apply lookup_lt_Some in Hj. simpl in Hj. lia.
Qed.

(** Every level is computed without an exception; its grids are
    well-formed and connected, and none is a rotation of an earlier one. *)
Lemma generate_level_inv (n : nat) :
  exists l, generate_level n = Ok l /\
            (forall g, In g l -> wf g /\ connected g) /\ rotation_free l.
Proof.
  induction n as [|n IH].
  - exists []. split; [reflexivity|]. split; [intros g []|].
    intros i j p q _ Hi. rewrite lookup_nil in Hi. discriminate.
  - destruct n as [|[|n]].
    + exists [ones (1, 1, 1)]. split; [reflexivity|]. split.
      * intros g [<-|[]]. split; [apply wf_tabulate | apply connected_monocube].
      * apply rotation_free_singleton.
    + exists [ones (2, 1, 1)]. split; [reflexivity|]. split.
      * intros g [<-|[]]. split; [apply wf_tabulate | apply connected_domino].
      * apply rotation_free_singleton.
    + destruct IH as (base & E & Hb & _).
      change (generate_level (S (S (S n))))
        with (let* base_cubes := generate_level (S (S n)) in next_level base_cubes).
      rewrite E. simpl. apply next_level_inv, Hb.
Qed.

Lemma generate_polycubes_level (n : Z) :
  (1 <= n)%Z -> generate_polycubes n = generate_level (Z.to_nat n).
Proof.
  intros H. unfold generate_polycubes.
  replace (n <? 1)%Z with false by (symmetry; apply Z.ltb_ge; lia). reflexivity.
Qed.

(** ** generate_polycubes *)



(** C3: for every [n >= 1] and every grid returned by
    [generate_polycubes n], any two occupied cells of the grid are joined
    by a path of face-adjacent occupied cells. *)
Theorem generate_polycubes_connected (n : Z) :
  (1 <= n)%Z ->
  exists l, generate_polycubes n = Ok l /\
            forall g, In g l ->
            forall i j, occupied g i -> occupied g j -> path g i j.
Proof.
  intros Hn. rewrite generate_polycubes_level by exact Hn.
  destruct (generate_level_inv (Z.to_nat n)) as (l & E & Hwc & _).
  exists l. split; [exact E|]. intros g Hg. apply (Hwc g Hg).
Qed.

Lemma generate_polycubes_connected_witness :
  (1 <= 4)%Z /\
  exists l, generate_polycubes 4 = Ok l /\
            forall g, In g l ->
            forall i j, occupied g i -> occupied g j -> path g i j.
Proof.
  assert (H : (1 <= 4)%Z) by lia.
  split; [exact H|]. exact (generate_polycubes_connected 4 H).
Defined.

(** C8, as the code has it: called with [n = 0], [generate_polycubes]
    raises nothing; it returns the empty list. *)
Lemma generate_polycubes_zero_no_error :
  generate_polycubes 0 = Ok [] /\ ~ exists e, generate_polycubes 0 = Raise e.
Proof. split; [reflexivity|]. intros (e & H). discriminate H. Qed.

(** C8, amended: called with [n < 1], [generate_polycubes] returns the
    empty list at once, without an exception. *)
Theorem generate_polycubes_nonpositive (n : Z) :
  (n < 1)%Z -> generate_polycubes n = Ok [].
Proof.
  intros H. unfold generate_polycubes.
  replace (n <? 1)%Z with true by (symmetry; apply Z.ltb_lt; exact H).
  reflexivity.
Qed.

Lemma generate_polycubes_nonpositive_witness :
  (-3 < 1)%Z /\ generate_polycubes (-3) = Ok [].
Proof.
  assert (H : (-3 < 1)%Z) by lia.
  split; [exact H|]. exact (generate_polycubes_nonpositive (-3) H).
Defined.

(** ** The crop of a candidate, written out *)

Lemma index_eqb_eq i j : index_eqb i j = true <-> i = j.
Proof.
  destruct i as [[x y] z], j as [[x' y'] z']. unfold index_eqb.
  rewrite !andb_true_iff, !Nat.eqb_eq. split.
  - intros [[-> ->] ->]. reflexivity.
  - intros E. injection E as -> -> ->. auto.
Qed.

Lemma get_pad_cell g j : in_range (shape (pad g)) j -> get (pad g) j = pad_cell g j.
Proof. destruct j as [[x y] z]. apply get_pad. Qed.

Lemma tight_occupied g : tight g -> exists i, occupied g i.
Proof. intros T. destruct (T Ax0) as [(i & Hi & _) _]. exists i. exact Hi. Qed.

(** For a tight [g], the candidate built on frontier cell [p] crops to
    [direct_candidate g p]. *)
Lemma direct_candidate_crop g p :
  wf g -> tight g -> In p (expand_positions g) ->
  crop_cube (set_cell (pad g) p 1) = Ok (direct_candidate g p) /\
  is_window (set_cell (pad g) p 1) (direct_candidate g p) (candidate_lo p) /\
  tight (direct_candidate g p).
Proof.
  intros W T Hp.
  destruct (expand_positions_spec g p Hp) as (Hr & _ & _).
  set (c := set_cell (pad g) p 1).
  assert (Wc : wf c) by apply wf_set_cell, wf_pad.
  assert (Oc : forall j, occupied c j <-> occupied (pad g) j \/ j = p)
    by (intros j; apply occupied_set_cell; [apply wf_pad | exact Hr]).
  destruct (crop_cube_spec c Wc) as (y & lo & E & Hw & Ht).
  { exists p. apply Oc. right. reflexivity. }
  assert (Hlo : forall a, proj a lo = Nat.min 1 (proj a p)
                          /\ proj a (shape y)
                             = Nat.max (proj a (shape g)) (proj a p) + 1
                               - Nat.min 1 (proj a p)).
  { intros a.
    pose proof (win_all _ _ _ Hw p (proj2 (Oc p) (or_intror eq_refl)) a) as Bp.
    destruct (T a) as [(i0 & Hi0 & Z0) (i1 & Hi1 & Z1)].
    pose proof (window_up _ _ _ (window_pad g W) i0 Hi0) as P0.
    pose proof (window_up _ _ _ (window_pad g W) i1 Hi1) as P1.
    pose proof (win_all _ _ _ Hw _ (proj2 (Oc _) (or_introl P0)) a) as B0.
    pose proof (win_all _ _ _ Hw _ (proj2 (Oc _) (or_introl P1)) a) as B1.
    rewrite proj_add3 in B0, B1.
    assert (U : proj a (1, 1, 1) = 1) by (destruct a; reflexivity).
    rewrite U in B0, B1.
    destruct (Ht a) as [(k0 & Hk0 & Y0) (k1 & Hk1 & Y1)].
    pose proof (window_up _ _ _ Hw k0 Hk0) as C0.
    pose proof (window_up _ _ _ Hw k1 Hk1) as C1.
    apply Oc in C0, C1.
    assert (L0 : Nat.min 1 (proj a p) <= proj a lo).
    { destruct C0 as [C0 | C0].
      - pose proof (pad_occupied_interior g _ C0 a) as I0.
        rewrite proj_add3 in I0. lia.
      - assert (Q : proj a (add3 k0 lo) = proj a p) by (rewrite C0; reflexivity).
        rewrite proj_add3 in Q. lia. }
    assert (L1 : proj a lo + proj a (shape y)
                 <= Nat.max (proj a (shape g)) (proj a p) + 1).
    { destruct C1 as [C1 | C1].
      - pose proof (pad_occupied_interior g _ C1 a) as I1.
        rewrite proj_add3 in I1. lia.
      - assert (Q : proj a (add3 k1 lo) = proj a p) by (rewrite C1; reflexivity).
        rewrite proj_add3 in Q. lia. }
    lia. }
  assert (Elo : lo = candidate_lo p).
  { apply triple_ext. intros a. unfold candidate_lo. rewrite proj_mk3. apply Hlo. }
  assert (Esh : shape y = candidate_shape g p).
  { apply triple_ext. intros a. unfold candidate_shape. rewrite proj_mk3. apply Hlo. }
  assert (Ey : y = direct_candidate g p).
  { apply grid_ext; [apply (win_wf _ _ _ Hw) | apply wf_tabulate | exact Esh |].
    intros i Hi. rewrite (win_get _ _ _ Hw) by exact Hi.
    pose proof (window_in_range _ _ _ Hw i Hi) as Hj.
    unfold direct_candidate. rewrite get_tabulate by (rewrite <- Esh; exact Hi).
    rewrite <- Elo. cbv zeta.
    destruct (index_eqb (add3 i lo) p) eqn:Eq.
    - apply index_eqb_eq in Eq. rewrite Eq.
      apply get_set_cell_eq; [apply wf_pad | exact Hr].
    - assert (Hne : p <> add3 i lo).
      { intros H. symmetry in H. apply index_eqb_eq in H. congruence. }
      unfold c. rewrite get_set_cell_ne by (assumption || exact Hj).
      apply get_pad_cell. exact Hj. }
  subst y. rewrite <- Elo. auto.
Qed.

(** ** Fingerprints from bit masks *)

Lemma odd_b2n_double (b : bool) (a : N) : N.odd (N.b2n b + 2 * a) = b.
Proof. destruct b, a; reflexivity. Qed.

Lemma div2_b2n_double (b : bool) (a : N) : N.div2 (N.b2n b + 2 * a) = a.
Proof. destruct b, a; reflexivity. Qed.

Lemma mask_of_cons (x : Z) (l : list Z) :
  mask_of (x :: l) = (N.b2n (negb (x =? 0)%Z) + 2 * mask_of l)%N.
Proof. reflexivity. Qed.

(** The loop of [rle] on a {0,1} buffer is the scan of its bit mask. *)
Lemma rle_loop_scan (l : list Z) :
  Forall (fun c => c = 0%Z \/ c = 1%Z) l ->
  forall r c v, c = 0%Z \/ c = 1%Z ->
  let st := fold_left rle_step l (RleState r (Some c) v) in
  rle_r st ++ [rle_emit (rle_current st) (rle_val st)]
  = r ++ scan_runs (length l) (mask_of l) (negb (c =? 0)%Z) v.
Proof.
  induction 1 as [|x l Hx Hl IH]; intros r c v Hc.
  - simpl. destruct Hc as [-> | ->]; reflexivity.
  - cbn [fold_left length scan_runs].
    rewrite mask_of_cons, odd_b2n_double, div2_b2n_double.
    assert (S : rle_step (RleState r (Some c) v) x
                = if (c =? x)%Z then RleState r (Some c) (v + 1)
                  else RleState (r ++ [rle_emit (Some c) v]) (Some x) 1)
      by reflexivity.
    rewrite S. clear S.
    destruct Hc as [-> | ->], Hx as [-> | ->]; simpl.
    + apply (IH r 0%Z (v + 1)%Z). left. reflexivity.
    + rewrite (IH _ 1%Z 1%Z) by (right; reflexivity).
      rewrite <- app_assoc. reflexivity.
    + rewrite (IH _ 0%Z 1%Z) by (left; reflexivity).
      rewrite <- app_assoc. reflexivity.
    + apply (IH r 1%Z (v + 1)%Z). right. reflexivity.
Qed.

Lemma rle_mask_runs (g : grid) :
  binary g ->
  rle g = shape_list (shape g) ++ mask_runs (length (flat g)) (mask_of (flat g)).
Proof.
  unfold binary, rle. destruct (flat g) as [|x l]; intros B; [reflexivity|].
  inversion B as [|? ? Hx Hl]; subst.
  cbn [fold_left length mask_runs].
  rewrite mask_of_cons, odd_b2n_double, div2_b2n_double.
  apply (rle_loop_scan l Hl (shape_list (shape g)) x 1%Z Hx).
Qed.

Lemma testbit_mask_of (d : list Z) (k : nat) :
  N.testbit (mask_of d) (N.of_nat k) = negb (nth k d 0 =? 0)%Z.
Proof.
  revert k. induction d as [|x d IH]; intros k.
  - simpl. destruct k; reflexivity.
  - rewrite mask_of_cons, N.add_comm. destruct k as [|k].
    + apply N.testbit_0_r.
    + rewrite Nat2N.inj_succ, N.testbit_succ_r. apply IH.
Qed.

Lemma testbit_cells_mask (s : nat * nat * nat) (cs : list index) (k : nat) :
  N.testbit (cells_mask s cs) (N.of_nat k) = existsb (fun c => offset s c =? k) cs.
Proof.
  induction cs as [|c cs IH]; [reflexivity|].
  cbn [cells_mask fold_right existsb]. fold (cells_mask s cs).
  rewrite N.lor_spec, IH, N.shiftl_1_l, N.pow2_bits_eqb. f_equal.
  destruct (Nat.eqb_spec (offset s c) k) as [->|Hne].
  - apply N.eqb_refl.
  - apply N.eqb_neq. intros H. apply Nat2N.inj in H. congruence.
Qed.

Lemma mask_of_cells (d : list Z) (s : nat * nat * nat) (cs : list index) :
  (forall k, negb (nth k d 0 =? 0)%Z = existsb (fun c => offset s c =? k) cs) ->
  mask_of d = cells_mask s cs.
Proof.
  intros H. apply N.bits_inj. intros k.
  rewrite <- (N2Nat.id k), testbit_mask_of, testbit_cells_mask. apply H.
Qed.

(** ** Fingerprints of rotated grids from the occupied cells *)

Module ImageFacts.
Import Rotation RotationFacts.

Lemma proj_image e s c a :
  proj a (image e s c)
  = if flipped e (source e a) then proj (source e a) s - 1 - proj (source e a) c
    else proj (source e a) c.
Proof. destruct a; reflexivity. Qed.

Lemma proj_preimage e s i b :
  proj b (preimage e s i)
  = if flipped e b then proj b s - 1 - proj (target e b) i else proj (target e b) i.
Proof. destruct b; reflexivity. Qed.

Lemma proj_rotated_shape e s a : proj a (rotated_shape e s) = proj (source e a) s.
Proof. destruct a; reflexivity. Qed.

Lemma image_in_range e s c :
  in_range s c -> in_range (rotated_shape e s) (image e s c).
Proof.
  rewrite !in_range_proj. intros H a. rewrite proj_image, proj_rotated_shape.
  specialize (H (source e a)). destruct (flipped e (source e a)); lia.
Qed.

Lemma preimage_image e s c :
  is_perm e = true -> in_range s c -> preimage e s (image e s c) = c.
Proof.
  intros P H. apply triple_ext. intros b.
  rewrite proj_preimage, proj_image, source_target by exact P.
  rewrite in_range_proj in H. specialize (H b). destruct (flipped e b); lia.
Qed.

Lemma image_preimage e s i :
  is_perm e = true -> in_range (rotated_shape e s) i -> image e s (preimage e s i) = i.
Proof.
  intros P H. apply triple_ext. intros a.
  rewrite proj_image, proj_preimage, target_source by exact P.
  rewrite in_range_proj in H. specialize (H a). rewrite proj_rotated_shape in H.
  destruct (flipped e (source e a)); lia.
Qed.

(** The fingerprint of the image of a {0,1} grid under [e], from any list
    of its occupied cells. *)
Lemma rle_act_cells e g cs :
  is_perm e = true -> wf g -> binary g ->
  (forall i, In i cs <-> occupied g i) ->
  rle (act e g) = rle_rotated e (shape g) cs.
Proof.
  intros P W B Hcs.
  assert (Ba : binary (act e g)).
  { unfold binary, act, tabulate. simpl. apply List.Forall_forall.
    intros c Hc. apply in_map_iff in Hc. destruct Hc as (i & <- & _).
    apply binary_get, B. }
  rewrite (rle_mask_runs _ Ba). unfold rle_rotated, rle_cells.
  pose proof (wf_act e g) as Wa. unfold wf in Wa. rewrite Wa.
  change (shape (act e g)) with (rotated_shape e (shape g)).
  f_equal. f_equal. apply mask_of_cells. intros k.
  set (s := shape g). set (s' := rotated_shape e s).
  apply Bool.eq_iff_eq_true. rewrite negb_true_iff, Z.eqb_neq, existsb_exists.
  destruct (Nat.lt_ge_cases k (vol s')) as [Hlt|Hge].
  - destruct (offset_surj s' k Hlt) as (i & Hi & <-).
    change (nth (offset s' i) (flat (act e g)) 0%Z) with (get (act e g) i).
    unfold act. fold s s'. rewrite get_tabulate by exact Hi.
    pose proof (in_range_preimage e s i P Hi) as Hpre. split.
    + intros Hn. exists (image e s (preimage e s i)). split.
      * apply in_map, Hcs. split; assumption.
      * rewrite image_preimage by assumption. apply Nat.eqb_refl.
    + intros (c' & Hc' & Eq). apply in_map_iff in Hc'.
      destruct Hc' as (q & <- & Hq). apply Hcs in Hq. destruct Hq as [Hqr Hqn].
      apply Nat.eqb_eq in Eq.
      apply offset_inj in Eq; [| apply image_in_range, Hqr | exact Hi].
      rewrite <- Eq, preimage_image by assumption. exact Hqn.
  - split.
    + intros Hn. exfalso. apply Hn. apply nth_overflow.
      pose proof (wf_act e g) as Wa'. unfold wf in Wa'. rewrite Wa'. exact Hge.
    + intros (c' & Hc' & Eq). exfalso. apply in_map_iff in Hc'.
      destruct Hc' as (q & <- & Hq). apply Hcs in Hq. destruct Hq as [Hqr _].
      apply Nat.eqb_eq in Eq.
      pose proof (offset_lt s' _ (image_in_range e s q Hqr)). lia.
Qed.

End ImageFacts.

(** ** The direct evaluation computes the same lists *)

Lemma existsb_map {A B} (f : B -> bool) (h : A -> B) (l : list A) :
  existsb f (map h l) = existsb (fun x => f (h x)) l.
Proof. induction l as [|a l IH]; simpl; [reflexivity | rewrite IH; reflexivity]. Qed.

Lemma existsb_ext_in {A} (f f' : A -> bool) (l : list A) :
  (forall x, In x l -> f x = f' x) -> existsb f l = existsb f' l.
Proof.
  induction l as [|a l IH]; intros H; simpl; [reflexivity|].
  rewrite (H a (or_introl eq_refl)), IH; [reflexivity|].
  intros x Hx. apply H. right. exact Hx.
Qed.

(** The duplicate check, from the occupied cells of the candidate. *)
Lemma cube_exists_rle_cells (g : grid) (cs : list index) (s : gset (list Z)) :
  wf g -> binary g -> (forall i, In i cs <-> occupied g i) ->
  cube_exists_rle g s = quick_exists (shape g) cs s.
Proof.
  intros W B Hcs. unfold cube_exists_rle, quick_exists.
  rewrite RotationFacts.all_rotations_act by exact W.
  rewrite existsb_map. apply existsb_ext_in. intros e He.
  rewrite (ImageFacts.rle_act_cells e g cs); auto.
  apply GroupFacts.is_perm_yielded, He.
Qed.

Lemma candidate_cells_occupied g p cs :
  wf g -> tight g -> In p (expand_positions g) ->
  (forall q, In q cs <-> occupied g q) ->
  forall i, In i (candidate_cells cs p) <-> occupied (direct_candidate g p) i.
Proof.
  intros W T Hp Hcs i.
  destruct (direct_candidate_crop g p W T Hp) as (_ & Hw & _).
  destruct (expand_positions_spec g p Hp) as (Hr & _ & _).
  assert (Oc : forall j, occupied (set_cell (pad g) p 1) j
                         <-> occupied (pad g) j \/ j = p)
    by (intros j; apply occupied_set_cell; [apply wf_pad | exact Hr]).
  unfold candidate_cells. simpl. rewrite in_map_iff. split.
  - intros [<- | (q & <- & Hq)].
    + apply (window_down _ _ _ Hw). apply Oc. right. reflexivity.
    + apply (window_down _ _ _ Hw). apply Oc. left.
      apply (window_up _ _ _ (window_pad g W)), Hcs, Hq.
  - intros Hi. pose proof (window_up _ _ _ Hw i Hi) as Hj. apply Oc in Hj.
    destruct Hj as [Hj | Hj].
    + right. destruct (window_down _ _ _ (window_pad g W) _ Hj) as [Hq Eq].
      exists (sub3 (add3 i (candidate_lo p)) (1, 1, 1)). split.
      * rewrite Eq. apply sub3_add3.
      * apply Hcs, Hq.
    + left. transitivity (sub3 (add3 i (candidate_lo p)) (candidate_lo p));
        [rewrite Hj; reflexivity | apply sub3_add3].
Qed.

Lemma binary_direct_candidate g p : binary g -> binary (direct_candidate g p).
Proof.
  intros B. apply List.Forall_forall. intros c Hc.
  unfold direct_candidate, tabulate in Hc. cbn [flat] in Hc.
  apply in_map_iff in Hc. destruct Hc as (i & <- & _). cbv zeta.
  destruct (index_eqb (add3 i (candidate_lo p)) p); [right; reflexivity|].
  unfold pad_cell. destruct (shape g) as [[nx ny] nz].
  destruct (add3 i (candidate_lo p)) as [[x y] z].
  match goal with |- context [if ?c then _ else _] => destruct c end;
    [apply binary_get, B | left; reflexivity].
Qed.

Lemma good_direct_candidate g p :
  good g -> In p (expand_positions g) -> good (direct_candidate g p).
Proof.
  intros (W & T & B) Hp. split; [apply wf_tabulate|]. split.
  - apply (direct_candidate_crop g p W T Hp).
  - apply binary_direct_candidate, B.
Qed.

Lemma traverse_map {A B C} (f : B -> result C) (h : A -> B) (k : A -> C) (l : list A) :
  (forall x, In x l -> f (h x) = Ok (k x)) -> traverse f (map h l) = Ok (map k l).
Proof.
  induction l as [|a l IH]; intros H; [reflexivity|].
  simpl. rewrite (H a (or_introl eq_refl)). simpl. rewrite IH; [reflexivity|].
  intros x Hx. apply H. right. exact Hx.
Qed.

Lemma expand_cube_direct g :
  wf g -> tight g ->
  expand_cube g = Ok (map (direct_candidate g) (expand_positions g)).
Proof.
  intros W T. unfold expand_cube, expand_candidates, expand_padded.
  apply traverse_map. intros p Hp. apply (direct_candidate_crop g p W T Hp).
Qed.

Lemma consider_quick g cs st p :
  good g -> In p (expand_positions g) -> (forall q, In q cs <-> occupied g q) ->
  consider st (direct_candidate g p) = quick_consider g cs st p.
Proof.
  intros G Hp Hcs. pose proof G as (W & T & B).
  destruct (good_direct_candidate g p G Hp) as (Wc & _ & Bc).
  destruct st as [polycubes polycubes_rle]. unfold consider, quick_consider.
  rewrite (cube_exists_rle_cells _ (candidate_cells cs p)); [reflexivity | | |];
    try assumption.
  apply candidate_cells_occupied; assumption.
Qed.

Lemma quick_consider_good g cs st p :
  good g -> In p (expand_positions g) ->
  Forall good (fst st) -> Forall good (fst (quick_consider g cs st p)).
Proof.
  intros G Hp Hst. destruct st as [polycubes polycubes_rle].
  unfold quick_consider. destruct (quick_exists _ _ _); [exact Hst|].
  simpl in *. apply Forall_app. split; [exact Hst|].
  constructor; [|constructor]. apply good_direct_candidate; assumption.
Qed.

Lemma grow_quick st g :
  good g -> Forall good (fst st) ->
  grow st g = Ok (quick_grow st g) /\ Forall good (fst (quick_grow st g)).
Proof.
  intros G Hst. pose proof G as (W & T & B). unfold grow, quick_grow.
  rewrite (expand_cube_direct g W T). simpl.
  assert (Hcs : forall q, In q (nonzero g) <-> occupied g q)
    by (intros q; apply in_nonzero).
  assert (H : forall ps st0,
            (forall p, In p ps -> In p (expand_positions g)) ->
            Forall good (fst st0) ->
            fold_left consider (map (direct_candidate g) ps) st0
            = fold_left (quick_consider g (nonzero g)) ps st0
            /\ Forall good (fst (fold_left (quick_consider g (nonzero g)) ps st0))).
  { induction ps as [|p ps IH]; intros st0 Hps Hst0; [split; [reflexivity | exact Hst0]|].
    simpl. rewrite (consider_quick g (nonzero g) st0 p G (Hps p (or_introl eq_refl)) Hcs).
    apply IH.
    - intros q Hq. apply Hps. right. exact Hq.
    - apply quick_consider_good; auto. apply Hps. left. reflexivity. }
  destruct (H (expand_positions g) st (fun p Hp => Hp) Hst) as [E F].
  rewrite E. split; [reflexivity | exact F].
Qed.

Lemma foldM_grow_quick base_cubes st :
  Forall good base_cubes -> Forall good (fst st) ->
  foldM grow base_cubes st = Ok (fold_left quick_grow base_cubes st)
  /\ Forall good (fst (fold_left quick_grow base_cubes st)).
Proof.
  revert st. induction base_cubes as [|g l IH]; intros st Hl Hst.
  - split; [reflexivity | exact Hst].
  - inversion Hl as [|? ? Hg Hl']; subst.
    destruct (grow_quick st g Hg Hst) as [E F].
    simpl. rewrite E. simpl. apply IH; assumption.
Qed.

Lemma tight_ones s :
  (forall a, 1 <= proj a s) -> tight (ones s).
Proof.
  intros H a. split.
  - exists (0, 0, 0). split; [|destruct a; reflexivity].
    apply occupied_ones, in_range_proj. intros c. specialize (H c).
    destruct c; simpl in *; lia.
  - exists (sub3 s (1, 1, 1)). split.
    + apply occupied_ones, in_range_proj. intros c. rewrite proj_sub3.
      specialize (H c). destruct c; simpl in *; lia.
    + rewrite proj_sub3. unfold ones. rewrite shape_tabulate.
      specialize (H a). destruct a; simpl in *; lia.
Qed.

Lemma good_ones s : (forall a, 1 <= proj a s) -> good (ones s).
Proof.
  intros H. split; [apply wf_tabulate|]. split; [apply tight_ones, H | apply binary_ones].
Qed.

(** Every level of the program is the level of the direct evaluation. *)
Lemma generate_level_quick (n : nat) :
  generate_level n = Ok (quick_level n) /\ Forall good (quick_level n).
Proof.
  induction n as [|n IH].
  - split; [reflexivity | constructor].
  - destruct n as [|[|n]].
    + split; [reflexivity|]. constructor; [|constructor].
      apply good_ones. intros a. destruct a; simpl; lia.
    + split; [reflexivity|]. constructor; [|constructor].
      apply good_ones. intros a. destruct a; simpl; lia.
    + destruct IH as [E G].
      change (generate_level (S (S (S n))))
        with (let* base_cubes := generate_level (S (S n)) in next_level base_cubes).
      change (quick_level (S (S (S n)))) with (quick_next (quick_level (S (S n)))).
      set (base := quick_level (S (S n))) in *.
      rewrite E. unfold next_level, quick_next.
      destruct (foldM_grow_quick base ([], ∅) G) as [E' G']; [constructor|].
      cbv beta iota delta [bind]. rewrite E'. split; [reflexivity | exact G'].
Qed.

Lemma generate_polycubes_quick (n : Z) :
  (1 <= n)%Z ->
  result_length (generate_polycubes n) = Some (length (quick_level (Z.to_nat n))).
Proof.
  intros H. rewrite generate_polycubes_level by exact H.
  rewrite (proj1 (generate_level_quick _)). reflexivity.
Qed.

(** C1: for [n] from 1 to 8, [generate_polycubes n] returns a list of
    exactly 1, 1, 2, 8, 29, 166, 1023 and 6922 grids. *)
Theorem generate_polycubes_counts :
  map (fun n => result_length (generate_polycubes n)) [1; 2; 3; 4; 5; 6; 7; 8]%Z
  = [Some 1; Some 1; Some 2; Some 8; Some 29; Some 166; Some 1023; Some 6922].
Proof.
  cbn [map]. rewrite !generate_polycubes_quick by lia.
  vm_cast_no_check
    (eq_refl [Some 1; Some 1; Some 2; Some 8; Some 29; Some 166; Some 1023; Some 6922]).
Qed.



(** * Further properties of the program *)

(** ** crop_cube on all-zero and on tight arrays *)

Lemma strip_leading_zero (m nx : nat) (d : list Z) :
  (forall p, nth p d 0%Z = 0%Z) -> strip_leading nx m d = Raise IndexError.
Proof.
  revert d. induction nx as [|nx IH]; intros d Hz; [reflexivity|].
  simpl. replace (all_zero (take m d)) with true.
  - apply IH. intros p. rewrite nth_skipn. apply Hz.
  - symmetry. apply all_zero_true. intros p _. rewrite nth_firstn.
    destruct (p <? m); [apply Hz | reflexivity].
Qed.

Lemma get_all_zero g i : all_zero (flat g) = true -> get g i = 0%Z.
Proof.
  intros H. unfold get.
  destruct (Nat.lt_ge_cases (offset (shape g) i) (length (flat g))) as [Hlt|Hge].
  - apply (proj1 (all_zero_true _) H), Hlt.
  - apply nth_overflow, Hge.
Qed.

Lemma all_zero_not_occupied g :
  wf g -> (all_zero (flat g) = true <-> forall i, ~ occupied g i).
Proof.
  intros W. split.
  - intros H i [_ Hn]. apply Hn, get_all_zero, H.
  - intros H. apply all_zero_true. intros p Hp. rewrite W in Hp.
    destruct (offset_surj _ p Hp) as (i & Hi & <-).
    destruct (Z.eq_dec (get g i) 0%Z) as [E|E]; [exact E|].
    exfalso. apply (H i). split; assumption.
Qed.

(** On an all-zero array the first [cube[0]] that is reached is on an
    array without rows. *)
Lemma crop_cube_all_zero (g : grid) :
  all_zero (flat g) = true -> crop_cube g = Raise IndexError.
Proof.
  intros H. unfold crop_cube, crop_axis.
  destruct (shape (swapaxes g Ax0 Ax0)) as [[nx ny] nz].
  rewrite strip_leading_zero; [reflexivity|].
  intros p. unfold swapaxes, tabulate. cbn [flat].
  destruct (Nat.lt_ge_cases p (length (indices (swap3 Ax0 Ax0 (shape g)))))
    as [Hlt|Hge].
  - rewrite (nth_indep _ 0%Z (get g (swap3 Ax0 Ax0 (0, 0, 0))))
      by (rewrite length_map; exact Hlt).
    etransitivity;
      [apply (map_nth (fun i => get g (swap3 Ax0 Ax0 i)) _ (0, 0, 0) p)|].
    apply get_all_zero, H.
  - apply nth_overflow. rewrite length_map. exact Hge.
Qed.

(** X1: on a 3-D array, [crop_cube] raises [IndexError] exactly when every
    cell of the array is zero (an array with a zero dimension included);
    otherwise it returns a grid. *)
Theorem crop_cube_raises_iff_all_zero (g : grid) :
  wf g ->
  (crop_cube g = Raise IndexError <-> all_zero (flat g) = true) /\
  ((exists y, crop_cube g = Ok y) <-> all_zero (flat g) = false).
Proof.
  intros W.
  pose proof (crop_cube_all_zero g) as Z.
  assert (NZ : all_zero (flat g) = false -> exists y, crop_cube g = Ok y).
  { intros H. destruct (crop_cube_spec g W) as (y & lo & E & _).
    - apply all_zero_false in H. destruct H as (p & Hp & Hn). rewrite W in Hp.
      destruct (offset_surj _ p Hp) as (i & Hi & <-). exists i. split; assumption.
    - exists y. exact E. }
  split; split.
  - intros E. destruct (all_zero (flat g)) eqn:A; [reflexivity|].
    destruct (NZ eq_refl) as (y & Ey). congruence.
  - exact Z.
  - intros (y & Ey). destruct (all_zero (flat g)) eqn:A; [|reflexivity].
    rewrite (Z eq_refl) in Ey. discriminate.
  - exact NZ.
Qed.

Lemma crop_cube_raises_iff_all_zero_witness :
  let g := Grid (2, 1, 2) [0; 0; 0; 0]%Z in
  wf g /\
  (crop_cube g = Raise IndexError <-> all_zero (flat g) = true) /\
  ((exists y, crop_cube g = Ok y) <-> all_zero (flat g) = false).
Proof.
  intros g. assert (W : wf g) by reflexivity.
  split; [exact W|]. exact (crop_cube_raises_iff_all_zero g W).
Defined.

Lemma tight_window_id g y lo :
  wf g -> tight g -> is_window g y lo -> y = g.
Proof.
  intros W T Hw.
  assert (H : forall a, proj a lo = 0 /\ proj a (shape y) = proj a (shape g)).
  { intros a. destruct (T a) as [(i0 & Hi0 & Z0) (i1 & Hi1 & Z1)].
    pose proof (win_all _ _ _ Hw i0 Hi0 a). pose proof (win_all _ _ _ Hw i1 Hi1 a).
    pose proof (win_fits _ _ _ Hw a). lia. }
  apply grid_ext; [apply (win_wf _ _ _ Hw) | exact W | |].
  - apply triple_ext. intros a. apply H.
  - intros i Hi. rewrite (win_get _ _ _ Hw) by exact Hi. f_equal.
    apply triple_ext. intros a. rewrite proj_add3. destruct (H a) as [-> _]. lia.
Qed.

(** X2: [crop_cube] leaves a bounding-box-tight grid unchanged, and hence
    cropping twice is the same as cropping once. *)
Theorem crop_cube_idempotent (g : grid) :
  wf g ->
  (tight g -> crop_cube g = Ok g) /\
  (forall y, crop_cube g = Ok y -> crop_cube y = Ok y).
Proof.
  intros W.
  assert (Fix : forall h, wf h -> tight h -> crop_cube h = Ok h).
  { intros h Wh Th.
    destruct (crop_cube_spec h Wh (tight_occupied h Th)) as (y & lo & E & Hw & _).
    rewrite E. f_equal. apply (tight_window_id h y lo Wh Th Hw). }
  split; [apply Fix, W|].
  intros y E.
  destruct (all_zero (flat g)) eqn:A.
  - rewrite (crop_cube_all_zero g A) in E. discriminate.
  - destruct (crop_cube_spec g W) as (y' & lo & E' & Hw & Ht).
    + apply all_zero_false in A. destruct A as (p & Hp & Hn). rewrite W in Hp.
      destruct (offset_surj _ p Hp) as (i & Hi & <-). exists i. split; assumption.
    + rewrite E in E'. injection E' as <-.
      apply Fix; [apply (win_wf _ _ _ Hw) | exact Ht].
Qed.

Lemma crop_cube_idempotent_witness :
  let g := Grid (2, 2, 2) [0; 0; 0; 1; 0; 0; 0; 1]%Z in
  wf g /\
  (tight g -> crop_cube g = Ok g) /\
  (forall y, crop_cube g = Ok y -> crop_cube y = Ok y).
Proof.
  intros g. assert (W : wf g) by reflexivity.
  split; [exact W|]. exact (crop_cube_idempotent g W).
Defined.

(** X3: cropping keeps the number of occupied cells, and the cropped grid
    is connected exactly when the input is. *)
Theorem crop_cube_preserves (g y : grid) :
  wf g -> crop_cube g = Ok y ->
  count_occupied y = count_occupied g /\ (connected y <-> connected g).
Proof.
  intros W E.
  destruct (all_zero (flat g)) eqn:A.
  - rewrite (crop_cube_all_zero g A) in E. discriminate.
  - destruct (crop_cube_spec g W) as (y' & lo & E' & Hw & _).
    + apply all_zero_false in A. destruct A as (p & Hp & Hn). rewrite W in Hp.
      destruct (offset_surj _ p Hp) as (i & Hi & <-). exists i. split; assumption.
    + rewrite E in E'. injection E' as <-. split.
      * apply (window_count _ _ _ Hw).
      * split; [apply (window_connected_up _ _ _ Hw)
               | apply (window_connected_down _ _ _ Hw)].
Qed.

Lemma crop_cube_preserves_witness :
  let g := Grid (2, 2, 2) [0; 0; 0; 1; 0; 0; 0; 1]%Z in
  let y := Grid (2, 1, 1) [1; 1]%Z in
  wf g /\ crop_cube g = Ok y /\
  count_occupied y = count_occupied g /\ (connected y <-> connected g).
Proof.
  intros g y. assert (W : wf g) by reflexivity.
  assert (E : crop_cube g = Ok y) by reflexivity.
  split; [exact W|]. split; [exact E|]. exact (crop_cube_preserves g y W E).
Defined.

(** ** expand_cube: the frontier and what is yielded *)

Lemma shift_down_up a p : shift_down a (shift_up a p) = p.
Proof.
  apply triple_ext. intros c. rewrite proj_shift_down, proj_shift_up.
  destruct (axis_eqb c a); lia.
Qed.

Lemma in_expand_touched g a q :
  occupied (pad g) q ->
  In (shift_up a q) (expand_touched g) /\ In (shift_down a q) (expand_touched g).
Proof.
  intros Hq. apply in_nonzero in Hq. unfold expand_touched, expand_padded.
  rewrite !in_app_iff. destruct a; split; auto 10 using in_map.
Qed.

Lemma expand_touched_range g :
  Forall (in_range (shape (pad g))) (expand_touched g).
Proof.
  apply Forall_forall. intros q Hq. apply list_elem_of_In in Hq.
  apply (expand_touched_spec g q Hq).
Qed.

Lemma expand_positions_touched g p :
  In p (expand_positions g) -> In p (expand_touched g).
Proof.
  unfold expand_positions. rewrite in_nonzero, expand_output_touched.
  unfold expand_padded, occupied. intros [Hr Hn].
  change (shape (xor (set_cells (pad g) (expand_touched g) 1) (pad g)))
    with (shape (set_cells (pad g) (expand_touched g) 1)) in Hr.
  rewrite shape_set_cells in Hr.
  rewrite get_xor in Hn;
    [| apply wf_set_cells, wf_pad | apply wf_pad | apply shape_set_cells
     | rewrite shape_set_cells; exact Hr].
  destruct (in_dec index_eq_dec p (expand_touched g)) as [Hin|Hnot]; [exact Hin|].
  rewrite get_set_cells_notin in Hn by (apply expand_touched_range || assumption).
  rewrite Z.lxor_nilpotent in Hn. congruence.
Qed.

Lemma length_expand_touched g : length (expand_touched g) = 6 * count_occupied (pad g).
Proof.
  unfold expand_touched, expand_padded, count_occupied.
  rewrite !length_app, !length_map. lia.
Qed.

(** X4: [expand_cube] never raises.  It yields one grid per frontier cell,
    so nothing for an all-zero grid and at most [6 k] grids for a grid
    with [k] occupied cells. *)
Theorem expand_cube_total (g : grid) :
  wf g ->
  exists l, expand_cube g = Ok l /\
            length l = length (expand_positions g) /\
            length l <= 6 * count_occupied g.
Proof.
  intros W. destruct (expand_cube_spec g) as (l & E & Hl).
  exists l. split; [exact E|].
  assert (Hlen : length l = length (expand_positions g)).
  { rewrite <- (Forall2_length _ _ _ Hl). unfold expand_candidates.
    apply length_map. }
  split; [exact Hlen|]. rewrite Hlen.
  rewrite (window_count _ _ _ (window_pad g W)), <- length_expand_touched.
  apply NoDup_incl_length; [apply NoDup_nonzero|].
  intros p Hp. apply expand_positions_touched, Hp.
Qed.

Lemma expand_cube_total_witness :
  let g := ones (2, 1, 1) in
  wf g /\
  exists l, expand_cube g = Ok l /\
            length l = length (expand_positions g) /\
            length l <= 6 * count_occupied g.
Proof.
  intros g. assert (W : wf g) by reflexivity.
  split; [exact W|]. exact (expand_cube_total g W).
Defined.

(** An empty cell of the padded grid next to an occupied one is filled. *)
Lemma expand_positions_intro (g : grid) (p q : index) :
  in_range (shape (pad g)) p -> get (pad g) p = 0%Z ->
  occupied (pad g) q -> adjacent q p -> In p (expand_positions g).
Proof.
  intros Hr H0 Hq (a & Hadj).
  assert (Hin : In p (expand_touched g)).
  { destruct Hadj as [-> | ->].
    - apply (in_expand_touched g a q Hq).
    - pose proof (proj2 (in_expand_touched g a _ Hq)) as H.
      rewrite shift_down_up in H. exact H. }
  unfold expand_positions. rewrite in_nonzero, expand_output_touched.
  unfold expand_padded. split.
  - change (shape (xor (set_cells (pad g) (expand_touched g) 1) (pad g)))
      with (shape (set_cells (pad g) (expand_touched g) 1)).
    rewrite shape_set_cells. exact Hr.
  - rewrite get_xor;
      [| apply wf_set_cells, wf_pad | apply wf_pad | apply shape_set_cells
       | rewrite shape_set_cells; exact Hr].
    rewrite get_set_cells_in
      by (apply wf_pad || apply expand_touched_range || exact Hin).
    rewrite H0. discriminate.
Qed.

(** X5: on a {0,1} grid, the cells [expand_cube] fills are exactly the
    empty cells of the padded grid that are face-adjacent to an occupied
    cell. *)
Theorem expand_positions_frontier (g : grid) (p : index) :
  binary g ->
  In p (expand_positions g) <->
  in_range (shape (pad g)) p /\ get (pad g) p = 0%Z /\
  exists q, occupied (pad g) q /\ adjacent q p.
Proof.
  intros B. split.
  - intros Hp. destruct (expand_positions_spec g p Hp) as (Hr & Hn & Hq).
    split; [exact Hr|]. split; [|exact Hq].
    destruct (binary_get_pad g p B Hr); [assumption | contradiction].
  - intros (Hr & H0 & q & Hq & Hadj).
    exact (expand_positions_intro g p q Hr H0 Hq Hadj).
Qed.

Lemma expand_positions_frontier_witness :
  let g := ones (1, 1, 1) in
  binary g /\
  (In (0, 1, 1) (expand_positions g) <->
   in_range (shape (pad g)) (0, 1, 1) /\ get (pad g) (0, 1, 1) = 0%Z /\
   exists q, occupied (pad g) q /\ adjacent q (0, 1, 1)).
Proof.
  intros g. assert (B : binary g) by apply binary_ones.
  split; [exact B|]. exact (expand_positions_frontier g (0, 1, 1) B).
Defined.

Lemma binary_window c y lo : is_window c y lo -> binary c -> binary y.
Proof.
  intros Hw B. apply List.Forall_forall. intros v Hv.
  destruct (In_nth _ _ 0%Z Hv) as (k & Hk & <-).
  rewrite (win_wf _ _ _ Hw) in Hk.
  destruct (offset_surj _ k Hk) as (i & Hi & <-).
  change (nth (offset (shape y) i) (flat y) 0%Z) with (get y i).
  rewrite (win_get _ _ _ Hw) by exact Hi. apply binary_get, B.
Qed.

Lemma binary_pad g : binary g -> binary (pad g).
Proof.
  intros B. apply List.Forall_forall. intros v Hv. unfold pad in Hv.
  destruct (shape g) as [[nx ny] nz]. unfold tabulate in Hv. cbn [flat] in Hv.
  apply in_map_iff in Hv. destruct Hv as ([[x y] z] & <- & _).
  match goal with |- context [if ?c then _ else _] => destruct c end;
    [apply binary_get, B | left; reflexivity].
Qed.

Lemma binary_set_cell g p : binary g -> binary (set_cell g p 1).
Proof.
  intros B. unfold binary, set_cell. cbn [flat].
  apply list.Forall_insert; [exact B | right; reflexivity].
Qed.

(** X6: every grid yielded by [expand_cube] on a {0,1} grid is the input
    with one more cell.  It is a tight {0,1} grid, and for one translation
    [lo] its occupied cells are exactly the occupied cells of the padded
    input and one new cell [p]: each of them appears in the grid, and there
    is no other occupied cell.  The new cell was empty and is
    face-adjacent to a cell of the input. *)
Theorem expand_cube_extends (g : grid) (l : list grid) :
  wf g -> binary g -> expand_cube g = Ok l ->
  forall y, In y l ->
  wf y /\ binary y /\ tight y /\
  exists lo p,
    (forall i, occupied y i <->
               add3 i lo = p \/
               exists q, occupied g q /\ add3 i lo = add3 q (1, 1, 1)) /\
    (exists i, occupied y i /\ add3 i lo = p) /\
    (forall q, occupied g q ->
               exists i, occupied y i /\ add3 i lo = add3 q (1, 1, 1)) /\
    (forall q, occupied g q -> p <> add3 q (1, 1, 1)) /\
    (exists q, occupied g q /\ adjacent (add3 q (1, 1, 1)) p).
Proof.
  intros W B E y Hy. destruct (expand_cube_spec g) as (l' & E' & Hl).
  rewrite E in E'. injection E' as <-.
  destruct (Forall2_In_r _ _ _ _ Hl Hy) as (c & _ & p & lo & Hp & -> & _ & Hw & Ty).
  destruct (expand_positions_spec g p Hp) as (Hr & Hn1 & q0 & Hq0 & Hadj).
  assert (Oc : forall j, occupied (set_cell (pad g) p 1) j
                         <-> occupied (pad g) j \/ j = p)
    by (intros j; apply occupied_set_cell; [apply wf_pad | exact Hr]).
  pose proof (window_pad g W) as Hpad.
  split; [apply (win_wf _ _ _ Hw)|].
  split; [apply (binary_window _ _ _ Hw), binary_set_cell, binary_pad, B|].
  split; [exact Ty|].
  exists lo, p. split; [|split; [|split; [|split]]].
  - intros i. split.
    + intros Hi. pose proof (window_up _ _ _ Hw i Hi) as Hj. apply Oc in Hj.
      destruct Hj as [Hj | Hj]; [right | left; exact Hj].
      destruct (window_down _ _ _ Hpad _ Hj) as [Hq Eq].
      exists (sub3 (add3 i lo) (1, 1, 1)). split; [exact Hq | symmetry; exact Eq].
    + intros [Hi | (q & Hq & Hi)].
      * rewrite <- (sub3_add3 i lo), Hi.
        apply (window_down _ _ _ Hw), Oc. right. reflexivity.
      * rewrite <- (sub3_add3 i lo), Hi.
        apply (window_down _ _ _ Hw), Oc. left. apply (window_up _ _ _ Hpad), Hq.
  - exists (sub3 p lo). apply (window_down _ _ _ Hw), Oc. right. reflexivity.
  - intros q Hq. exists (sub3 (add3 q (1, 1, 1)) lo).
    apply (window_down _ _ _ Hw), Oc. left. apply (window_up _ _ _ Hpad), Hq.
  - intros q Hq ->. pose proof (window_up _ _ _ Hpad q Hq) as [_ Hne].
    destruct (binary_get_pad g _ B Hr) as [H0 | H1]; contradiction.
  - destruct (window_down _ _ _ Hpad q0 Hq0) as [Hq Eq].
    exists (sub3 q0 (1, 1, 1)). split; [exact Hq|]. rewrite Eq. exact Hadj.
Qed.

Lemma expand_cube_extends_witness :
  let g := ones (1, 1, 1) in
  let l := [ones (2, 1, 1); ones (1, 2, 1); ones (1, 1, 2);
            ones (1, 1, 2); ones (1, 2, 1); ones (2, 1, 1)] in
  wf g /\ binary g /\ expand_cube g = Ok l /\
  forall y, In y l ->
  wf y /\ binary y /\ tight y /\
  exists lo p,
    (forall i, occupied y i <->
               add3 i lo = p \/
               exists q, occupied g q /\ add3 i lo = add3 q (1, 1, 1)) /\
    (exists i, occupied y i /\ add3 i lo = p) /\
    (forall q, occupied g q ->
               exists i, occupied y i /\ add3 i lo = add3 q (1, 1, 1)) /\
    (forall q, occupied g q -> p <> add3 q (1, 1, 1)) /\
    (exists q, occupied g q /\ adjacent (add3 q (1, 1, 1)) p).
Proof.
  intros g l. assert (W : wf g) by reflexivity.
  assert (B : binary g) by apply binary_ones.
  assert (E : expand_cube g = Ok l) by reflexivity.
  split; [exact W|]. split; [exact B|]. split; [exact E|].
  exact (expand_cube_extends g l W B E).
Defined.

(** X7: on a connected {0,1} grid, every grid yielded by [expand_cube] is
    again a connected {0,1} grid with a consistent shape. *)
Theorem expand_cube_keeps_connected (g : grid) (l : list grid) :
  wf g -> binary g -> connected g -> expand_cube g = Ok l ->
  forall y, In y l -> wf y /\ binary y /\ connected y.
Proof.
  intros W B C E y Hy.
  destruct (expand_cube_connected g l W C E y Hy) as [Wy Cy].
  split; [exact Wy|]. split; [|exact Cy].
  destruct (expand_cube_spec g) as (l' & E' & Hl).
  rewrite E in E'. injection E' as <-.
  destruct (Forall2_In_r _ _ _ _ Hl Hy) as (c & _ & p & lo & _ & -> & _ & Hw & _).
  apply (binary_window _ _ _ Hw), binary_set_cell, binary_pad, B.
Qed.

Lemma expand_cube_keeps_connected_witness :
  let g := ones (1, 1, 1) in
  let l := [ones (2, 1, 1); ones (1, 2, 1); ones (1, 1, 2);
            ones (1, 1, 2); ones (1, 2, 1); ones (2, 1, 1)] in
  wf g /\ binary g /\ connected g /\ expand_cube g = Ok l /\
  forall y, In y l -> wf y /\ binary y /\ connected y.
Proof.
  intros g l. assert (W : wf g) by reflexivity.
  assert (B : binary g) by apply binary_ones.
  assert (C : connected g) by apply connected_monocube.
  assert (E : expand_cube g = Ok l) by reflexivity.
  split; [exact W|]. split; [exact B|]. split; [exact C|]. split; [exact E|].
  exact (expand_cube_keeps_connected g l W B C E).
Defined.

(** ** What rotations keep *)

Module RotationKeeps.
Import Rotation RotationFacts ImageFacts.

Lemma occupied_act e g i :
  occupied (act e g) i <->
  in_range (rotated_shape e (shape g)) i /\ get g (preimage e (shape g) i) <> 0%Z.
Proof.
  unfold occupied. change (shape (act e g)) with (rotated_shape e (shape g)).
  split; intros [Hr Hn]; (split; [exact Hr|]).
  - unfold act in Hn. rewrite get_tabulate in Hn by exact Hr. exact Hn.
  - unfold act. rewrite get_tabulate by exact Hr. exact Hn.
Qed.

Lemma occupied_act_image e g i :
  is_perm e = true ->
  occupied (act e g) i <-> exists c, occupied g c /\ i = image e (shape g) c.
Proof.
  intros P. rewrite occupied_act. split.
  - intros [Hr Hn]. exists (preimage e (shape g) i). split.
    + split; [apply in_range_preimage; assumption | exact Hn].
    + symmetry. apply image_preimage; assumption.
  - intros (c & [Hc Hn] & ->). split; [apply image_in_range, Hc|].
    rewrite preimage_image by assumption. exact Hn.
Qed.

Lemma count_act e g :
  is_perm e = true -> count_occupied (act e g) = count_occupied g.
Proof.
  intros P. unfold count_occupied.
  rewrite <- (length_map (image e (shape g)) (nonzero g)).
  apply Permutation_length, Permutation.NoDup_Permutation.
  - apply NoDup_nonzero.
  - apply Finite.Injective_map_NoDup_in; [|apply NoDup_nonzero].
    intros c c' Hc Hc' E. apply in_nonzero in Hc, Hc'.
    rewrite <- (preimage_image e (shape g) c P (proj1 Hc)).
    rewrite <- (preimage_image e (shape g) c' P (proj1 Hc')).
    rewrite E. reflexivity.
  - intros i. rewrite in_nonzero, occupied_act_image, in_map_iff by exact P.
    split; intros (c & H1 & H2); exists c.
    + split; [symmetry; exact H2 | apply in_nonzero, H1].
    + split; [apply in_nonzero, H2 | symmetry; exact H1].
Qed.

Lemma binary_act e g : binary g -> binary (act e g).
Proof.
  intros B. apply List.Forall_forall. intros c Hc.
  unfold act, tabulate in Hc. cbn [flat] in Hc.
  apply in_map_iff in Hc. destruct Hc as (i & <- & _). apply binary_get, B.
Qed.

Lemma tight_act e g : is_perm e = true -> tight g -> tight (act e g).
Proof.
  intros P T a. set (b := source e a).
  destruct (T b) as [(i0 & Hi0 & Z0) (i1 & Hi1 & Z1)].
  assert (O0 : occupied (act e g) (image e (shape g) i0))
    by (apply occupied_act_image; [exact P | exists i0; auto]).
  assert (O1 : occupied (act e g) (image e (shape g) i1))
    by (apply occupied_act_image; [exact P | exists i1; auto]).
  unfold tight_axis.
  change (shape (act e g)) with (rotated_shape e (shape g)).
  rewrite proj_rotated_shape. fold b.
  assert (E0 : proj a (image e (shape g) i0)
               = if flipped e b then proj b (shape g) - 1 else 0).
  { rewrite proj_image. fold b. rewrite Z0. destruct (flipped e b); lia. }
  assert (E1 : proj a (image e (shape g) i1)
               = if flipped e b then 0 else proj b (shape g) - 1).
  { rewrite proj_image. fold b. destruct (flipped e b); lia. }
  pose proof (proj1 Hi1) as R1. rewrite in_range_proj in R1. specialize (R1 b).
  destruct (flipped e b); split.
  - exists (image e (shape g) i1). split; [exact O1 | exact E1].
  - exists (image e (shape g) i0). split; [exact O0 | rewrite E0; lia].
  - exists (image e (shape g) i0). split; [exact O0 | exact E0].
  - exists (image e (shape g) i1). split; [exact O1 | rewrite E1; lia].
Qed.

Lemma adjacent_image e s i j :
  is_perm e = true -> in_range s i -> in_range s j ->
  adjacent i j -> adjacent (image e s i) (image e s j).
Proof.
  intros P Hi Hj.
  assert (Up : forall b x y, in_range s x -> in_range s y -> y = shift_up b x ->
               adjacent (image e s x) (image e s y)).
  { intros b x y Hx Hy ->. exists (target e b).
    rewrite in_range_proj in Hx, Hy. specialize (Hx b). specialize (Hy b).
    rewrite proj_shift_up in Hy.
    replace (axis_eqb b b) with true in Hy by (destruct b; reflexivity).
    destruct (flipped e b) eqn:F; [right | left]; apply triple_ext; intros c;
      rewrite proj_shift_up, !proj_image, !proj_shift_up;
      destruct (axis_eqb c (target e b)) eqn:Ec.
    - apply axis_eqb_eq in Ec. subst c. rewrite source_target by exact P.
      replace (axis_eqb b b) with true by (destruct b; reflexivity).
      rewrite F. lia.
    - assert (Eb : axis_eqb (source e c) b = false).
      { destruct (axis_eqb (source e c) b) eqn:Eb; [|reflexivity].
        apply axis_eqb_eq in Eb. subst b. rewrite target_source in Ec by exact P.
        destruct c; discriminate. }
      rewrite Eb. reflexivity.
    - apply axis_eqb_eq in Ec. subst c. rewrite source_target by exact P.
      replace (axis_eqb b b) with true by (destruct b; reflexivity).
      rewrite F. lia.
    - assert (Eb : axis_eqb (source e c) b = false).
      { destruct (axis_eqb (source e c) b) eqn:Eb; [|reflexivity].
        apply axis_eqb_eq in Eb. subst b. rewrite target_source in Ec by exact P.
        destruct c; discriminate. }
      rewrite Eb. reflexivity. }
  intros (b & [H | H]).
  - apply (Up b i j Hi Hj H).
  - apply adjacent_sym, (Up b j i Hj Hi H).
Qed.

Lemma path_image e g i j :
  is_perm e = true -> path g i j ->
  path (act e g) (image e (shape g) i) (image e (shape g) j).
Proof.
  intros P. induction 1 as [i Hi | i k j Hi Hadj Hp IH].
  - apply path_here, occupied_act_image; [exact P | exists i; auto].
  - eapply path_step; [| | exact IH].
    + apply occupied_act_image; [exact P | exists i; auto].
    + apply adjacent_image; [exact P | apply Hi | | exact Hadj].
      apply (path_occupied_l _ _ _ Hp).
Qed.

Lemma connected_act e g : is_perm e = true -> connected g -> connected (act e g).
Proof.
  intros P C i j Hi Hj.
  apply occupied_act_image in Hi, Hj; try exact P.
  destruct Hi as (c & Hc & ->), Hj as (c' & Hc' & ->).
  apply path_image; [exact P | apply C; assumption].
Qed.

End RotationKeeps.

Lemma all_rotations_binary (g r : grid) :
  wf g -> binary g -> In r (all_rotations g) -> binary r.
Proof.
  intros W B Hr. rewrite RotationFacts.all_rotations_act in Hr by exact W.
  apply in_map_iff in Hr. destruct Hr as (e & <- & _).
  apply RotationKeeps.binary_act, B.
Qed.

(** X8: each of the 24 grids yielded by [all_rotations] has a consistent
    shape and as many occupied cells as the input; it is a {0,1} grid when
    the input is one. *)
Theorem all_rotations_keep_cells (g r : grid) :
  wf g -> In r (all_rotations g) ->
  wf r /\ count_occupied r = count_occupied g /\ (binary g -> binary r).
Proof.
  intros W Hr. rewrite RotationFacts.all_rotations_act in Hr by exact W.
  apply in_map_iff in Hr. destruct Hr as (e & <- & He).
  pose proof (GroupFacts.is_perm_yielded e He) as P.
  split; [apply RotationFacts.wf_act|]. split.
  - apply RotationKeeps.count_act, P.
  - apply RotationKeeps.binary_act.
Qed.

Lemma all_rotations_keep_cells_witness :
  let g := Grid (2, 1, 2) [1; 0; 1; 1]%Z in
  let r := Grid (2, 2, 1) [0; 1; 1; 1]%Z in
  wf g /\ In r (all_rotations g) /\
  wf r /\ count_occupied r = count_occupied g /\ (binary g -> binary r).
Proof.
  intros g r. assert (W : wf g) by reflexivity.
  assert (H : In r (all_rotations g)) by (right; left; reflexivity).
  split; [exact W|]. split; [exact H|]. exact (all_rotations_keep_cells g r W H).
Defined.

(** X9: each of the 24 grids yielded by [all_rotations] on a tight grid is
    tight, and on a connected grid is connected. *)
Theorem all_rotations_keep_shape (g r : grid) :
  wf g -> In r (all_rotations g) ->
  (tight g -> tight r) /\ (connected g -> connected r).
Proof.
  intros W Hr. rewrite RotationFacts.all_rotations_act in Hr by exact W.
  apply in_map_iff in Hr. destruct Hr as (e & <- & He).
  pose proof (GroupFacts.is_perm_yielded e He) as P. split.
  - apply RotationKeeps.tight_act, P.
  - apply RotationKeeps.connected_act, P.
Qed.

Lemma all_rotations_keep_shape_witness :
  let g := Grid (2, 1, 2) [1; 0; 1; 1]%Z in
  let r := Grid (2, 2, 1) [0; 1; 1; 1]%Z in
  wf g /\ In r (all_rotations g) /\
  (tight g -> tight r) /\ (connected g -> connected r).
Proof.
  intros g r. assert (W : wf g) by reflexivity.
  assert (H : In r (all_rotations g)) by (right; left; reflexivity).
  split; [exact W|]. split; [exact H|]. exact (all_rotations_keep_shape g r W H).
Defined.

(** ** The 24 rotations as a whole *)

Module RotationOrbit.
Import Rotation RotationFacts GroupFacts.

Lemma rots_translate_all :
  Forall (fun e => base.NoDup (map (comp e) all_rotations_rots)
                   /\ Forall (fun x => x ∈ all_rotations_rots)
                             (map (comp e) all_rotations_rots))
         all_rotations_rots.
Proof. apply (bool_decide_unpack _). vm_compute. exact I. Qed.

(** Composing all 24 elements with one of them lists the 24 elements again. *)
Lemma rots_translate e :
  In e all_rotations_rots ->
  Permutation (map (comp e) all_rotations_rots) all_rotations_rots.
Proof.
  intros He. apply list_elem_of_In in He.
  destruct (proj1 (Forall_forall _ _) rots_translate_all e He) as [N F].
  apply Permutation.NoDup_Permutation_bis.
  - apply NoDup_ListNoDup, N.
  - rewrite length_map. reflexivity.
  - intros x Hx. apply list_elem_of_In.
    apply (proj1 (Forall_forall _ _) F). apply list_elem_of_In, Hx.
Qed.

Lemma quarter_turns a b :
  a <> b ->
  let q := rot90_rot 1 (a, b) in
  rot90_rot 2 (a, b) = comp q q /\
  rot90_rot 3 (a, b) = comp (comp q q) q /\
  comp (comp (comp q q) q) q = rot_id.
Proof. destruct a, b; intros H; try contradiction; repeat split. Qed.

End RotationOrbit.

(** X10: the 24 rotations of any rotation of [g] are the 24 rotations of
    [g], in another order. *)
Theorem all_rotations_of_rotation (g r : grid) :
  wf g -> In r (all_rotations g) ->
  Permutation (all_rotations r) (all_rotations g).
Proof.
  intros W Hr. rewrite (RotationFacts.all_rotations_act g W) in *.
  apply in_map_iff in Hr. destruct Hr as (e & <- & He).
  rewrite RotationFacts.all_rotations_act by apply RotationFacts.wf_act.
  pose proof (GroupFacts.is_perm_yielded e He) as P.
  rewrite (map_ext_in _ (fun x => Rotation.act (Rotation.comp e x) g)).
  - rewrite <- (map_map (Rotation.comp e) (fun x => Rotation.act x g)).
    apply Permutation_map, RotationOrbit.rots_translate, He.
  - intros x Hx. apply RotationFacts.act_comp; [exact P|].
    apply GroupFacts.is_perm_yielded, Hx.
Qed.

Lemma all_rotations_of_rotation_witness :
  let g := Grid (2, 1, 2) [1; 0; 1; 1]%Z in
  let r := Grid (2, 2, 1) [0; 1; 1; 1]%Z in
  wf g /\ In r (all_rotations g) /\
  Permutation (all_rotations r) (all_rotations g).
Proof.
  intros g r. assert (W : wf g) by reflexivity.
  assert (H : In r (all_rotations g)) by (right; left; reflexivity).
  split; [exact W|]. split; [exact H|]. exact (all_rotations_of_rotation g r W H).
Defined.

(** X11: [single_axis_rotation] yields the grid itself and then its
    successive quarter turns in the plane of the two axes; a fourth
    quarter turn gives the grid back. *)
Theorem single_axis_rotation_quarter_turns (g : grid) (a b : axis) :
  wf g -> a <> b ->
  let q := fun x => rot90 x 1 (a, b) in
  single_axis_rotation g (a, b) = [g; q g; q (q g); q (q (q g))] /\
  q (q (q (q g))) = g.
Proof.
  intros W Hab q. subst q. cbv beta.
  destruct (RotationOrbit.quarter_turns a b Hab) as (E2 & E3 & E4).
  set (e := Rotation.rot90_rot 1 (a, b)) in *.
  assert (P : Rotation.is_perm e = true) by apply RotationFacts.is_perm_rot90_rot.
  assert (Q1 : rot90 g 1 (a, b) = Rotation.act e g)
    by apply RotationFacts.rot90_act, W.
  assert (Q2 : rot90 (Rotation.act e g) 1 (a, b)
               = Rotation.act (Rotation.comp e e) g).
  { rewrite RotationFacts.rot90_act by apply RotationFacts.wf_act.
    apply RotationFacts.act_comp; exact P. }
  assert (P2 : Rotation.is_perm (Rotation.comp e e) = true)
    by (apply RotationFacts.is_perm_comp; exact P).
  assert (Q3 : rot90 (Rotation.act (Rotation.comp e e) g) 1 (a, b)
               = Rotation.act (Rotation.comp (Rotation.comp e e) e) g).
  { rewrite RotationFacts.rot90_act by apply RotationFacts.wf_act.
    apply RotationFacts.act_comp; assumption. }
  assert (P3 : Rotation.is_perm (Rotation.comp (Rotation.comp e e) e) = true)
    by (apply RotationFacts.is_perm_comp; assumption).
  rewrite Q1, Q2, Q3. split.
  - unfold single_axis_rotation. cbn [map seq].
    rewrite (RotationFacts.rot90_act g 2), (RotationFacts.rot90_act g 3) by exact W.
    change (Z.of_nat 2) with 2%Z. change (Z.of_nat 3) with 3%Z.
    rewrite E2, E3. change (Z.of_nat 1) with 1%Z. rewrite Q1. reflexivity.
  - rewrite RotationFacts.rot90_act by apply RotationFacts.wf_act.
    rewrite RotationFacts.act_comp by assumption.
    fold e. rewrite E4. apply RotationFacts.act_id, W.
Qed.

Lemma single_axis_rotation_quarter_turns_witness :
  let g := Grid (2, 1, 2) [1; 0; 1; 1]%Z in
  wf g /\ Ax1 <> Ax2 /\
  let q := fun x => rot90 x 1 (Ax1, Ax2) in
  single_axis_rotation g (Ax1, Ax2) = [g; q g; q (q g); q (q (q g))] /\
  q (q (q (q g))) = g.
Proof.
  intros g. assert (W : wf g) by reflexivity.
  assert (H : Ax1 <> Ax2) by discriminate.
  split; [exact W|]. split; [exact H|].
  exact (single_axis_rotation_quarter_turns g Ax1 Ax2 W H).
Defined.

(** ** The duplicate check against a set of fingerprints *)

Lemma elem_of_fingerprints_from (l : list grid) (s : gset (list Z)) (x : list Z) :
  x ∈ fold_left (fun s p => set_add (rle p) s) l s
  <-> x ∈ s \/ exists p, In p l /\ x = rle p.
Proof.
  revert s. induction l as [|p l IH]; intros s; simpl.
  - split; [auto | intros [H | (p & [] & _)]; exact H].
  - rewrite IH, elem_of_set_add. split.
    + intros [[-> | H] | (p' & Hp' & ->)]; eauto.
    + intros [H | (p' & [<- | Hp'] & ->)]; eauto.
Qed.

Lemma elem_of_fingerprints (l : list grid) (x : list Z) :
  x ∈ fingerprints l <-> exists p, In p l /\ x = rle p.
Proof.
  unfold fingerprints. rewrite elem_of_fingerprints_from. split; [|auto].
  intros [H | H]; [|exact H]. exfalso. revert H. apply not_elem_of_empty.
Qed.

(** Equal fingerprints of {0,1} grids belong to equal grids, so a hit of
    the duplicate check is a listed rotation. *)
Lemma cube_exists_rle_fingerprints (g : grid) (l : list grid) :
  wf g -> binary g -> Forall binary l ->
  cube_exists_rle g (fingerprints l) = true
  <-> exists p, In p l /\ In p (all_rotations g).
Proof.
  intros W B Bl. unfold cube_exists_rle. rewrite existsb_exists. split.
  - intros (r & Hr & Hs). apply bool_decide_eq_true_1 in Hs.
    apply elem_of_fingerprints in Hs. destruct Hs as (p & Hp & E).
    exists p. split; [exact Hp|].
    assert (Br : binary r) by (apply (all_rotations_binary g r W B Hr)).
    assert (Bp : binary p).
    { apply (proj1 (Forall_forall _ _) Bl). apply list_elem_of_In, Hp. }
    pose proof (rle_decode_rle r Br) as Dr.
    pose proof (rle_decode_rle p Bp) as Dp.
    rewrite E, Dp in Dr. injection Dr as <-. exact Hr.
  - intros (p & Hp & Hr). exists p. split; [exact Hr|].
    apply bool_decide_eq_true_2, elem_of_fingerprints. exists p. auto.
Qed.

(** X12: against the fingerprints of a list of {0,1} grids, the duplicate
    check answers [True] exactly when one of the listed grids is a rotation
    of the candidate: there are no false positives from colliding
    fingerprints, and on the empty set the answer is [False]. *)
Theorem cube_exists_rle_exact (g : grid) (l : list grid) :
  wf g -> binary g -> Forall binary l ->
  (cube_exists_rle g (fingerprints l) = true
   <-> exists p, In p l /\ In p (all_rotations g)) /\
  cube_exists_rle g ∅ = false.
Proof.
  intros W B Bl. split.
  - exact (cube_exists_rle_fingerprints g l W B Bl).
  - unfold cube_exists_rle.
    destruct (existsb _ (all_rotations g)) eqn:E; [|reflexivity].
    apply existsb_exists in E. destruct E as (r & _ & Hs).
    apply bool_decide_eq_true_1 in Hs. exfalso. revert Hs. apply not_elem_of_empty.
Qed.

Lemma cube_exists_rle_exact_witness :
  let g := ones (1, 2, 1) in
  let l := [ones (2, 1, 1)] in
  wf g /\ binary g /\ Forall binary l /\
  (cube_exists_rle g (fingerprints l) = true
   <-> exists p, In p l /\ In p (all_rotations g)) /\
  cube_exists_rle g ∅ = false.
Proof.
  intros g l. assert (W : wf g) by reflexivity.
  assert (B : binary g) by apply binary_ones.
  assert (Bl : Forall binary l) by (constructor; [apply binary_ones | constructor]).
  split; [exact W|]. split; [exact B|]. split; [exact Bl|].
  exact (cube_exists_rle_exact g l W B Bl).
Defined.

(** ** The runs of a fingerprint *)

Lemma length_decode_run v : Z.of_nat (length (decode_run v)) = Z.abs v.
Proof.
  unfold decode_run. destruct (Z.ltb_spec 0 v); rewrite repeat_length; lia.
Qed.

Lemma length_decode_runs runs : Z.of_nat (length (decode_runs runs)) = abs_sum runs.
Proof.
  induction runs as [|v runs IH]; [reflexivity|].
  rewrite decode_runs_cons, length_app, Nat2Z.inj_add, length_decode_run, IH.
  reflexivity.
Qed.

Lemma count_ones_app d d' : count_ones (d ++ d') = count_ones d + count_ones d'.
Proof. unfold count_ones. rewrite List.filter_app, length_app. reflexivity. Qed.

Lemma count_ones_repeat c n :
  count_ones (repeat c n) = if (c =? 0)%Z then 0 else n.
Proof.
  unfold count_ones. induction n as [|n IH]; simpl.
  - destruct (c =? 0)%Z; reflexivity.
  - destruct (c =? 0)%Z eqn:E; simpl; [exact IH | rewrite IH; reflexivity].
Qed.

Lemma count_ones_decode_runs runs :
  Z.of_nat (count_ones (decode_runs runs)) = pos_sum runs.
Proof.
  induction runs as [|v runs IH]; [reflexivity|].
  rewrite decode_runs_cons, count_ones_app, Nat2Z.inj_add, IH.
  cbn [pos_sum fold_right]. fold (pos_sum runs). f_equal.
  unfold decode_run. destruct (Z.ltb_spec 0 v); rewrite count_ones_repeat; simpl; lia.
Qed.

Lemma count_occupied_flat g : wf g -> count_occupied g = count_ones (flat g).
Proof.
  intros W. rewrite <- (tabulate_get g W) at 2.
  unfold count_occupied, nonzero, count_ones, tabulate. cbn [flat].
  induction (indices (shape g)) as [|i l IH]; [reflexivity|].
  simpl. destruct (get g i =? 0)%Z; simpl; rewrite IH; reflexivity.
Qed.

(** X13: the fingerprint of a {0,1} grid is its three dimensions followed
    by runs whose lengths add up to the number of cells; the positive runs
    add up to the number of occupied cells. *)
Theorem rle_run_lengths (g : grid) :
  wf g -> binary g ->
  take 3 (rle g) = shape_list (shape g) /\
  abs_sum (runs_of (rle g)) = Z.of_nat (vol (shape g)) /\
  pos_sum (runs_of (rle g)) = Z.of_nat (count_occupied g).
Proof.
  intros W B. destruct (rle_shape_runs g B) as (runs & E & D).
  rewrite E. unfold runs_of.
  assert (L : length (shape_list (shape g)) = 3)
    by (destruct (shape g) as [[? ?] ?]; reflexivity).
  rewrite take_app_length' by (symmetry; exact L).
  rewrite drop_app_length' by (symmetry; exact L).
  split; [reflexivity|]. split.
  - rewrite <- length_decode_runs, D, W. reflexivity.
  - rewrite <- count_ones_decode_runs, D, count_occupied_flat by exact W.
    reflexivity.
Qed.

Lemma rle_run_lengths_witness :
  let g := Grid (2, 1, 2) [1; 0; 1; 1]%Z in
  wf g /\ binary g /\
  take 3 (rle g) = shape_list (shape g) /\
  abs_sum (runs_of (rle g)) = Z.of_nat (vol (shape g)) /\
  pos_sum (runs_of (rle g)) = Z.of_nat (count_occupied g).
Proof.
  intros g. assert (W : wf g) by reflexivity.
  assert (B : binary g) by (repeat constructor; auto).
  split; [exact W|]. split; [exact B|]. exact (rle_run_lengths g W B).
Defined.

(** ** What generate_polycubes returns *)

Lemma consider_members st c y :
  In y (fst (consider st c)) -> In y (fst st) \/ y = c.
Proof.
  destruct st as [ps s]. unfold consider.
  destruct (cube_exists_rle c s); simpl; [auto|].
  rewrite in_app_iff. simpl. intros [H | [H | []]]; auto.
Qed.

Lemma fold_consider_members ys st y :
  In y (fst (fold_left consider ys st)) -> In y (fst st) \/ In y ys.
Proof.
  revert st. induction ys as [|c ys IH]; intros st H; [auto|].
  simpl in H. destruct (IH _ H) as [H' | H']; [|right; right; exact H'].
  destruct (consider_members st c y H') as [H'' | ->]; [auto | right; left; reflexivity].
Qed.

Lemma foldM_grow_members base st st' y :
  foldM grow base st = Ok st' -> In y (fst st') ->
  In y (fst st) \/ exists g ys, In g base /\ expand_cube g = Ok ys /\ In y ys.
Proof.
  revert st. induction base as [|g base IH]; intros st E Hy.
  - simpl in E. injection E as <-. auto.
  - simpl in E. unfold grow at 1 in E.
    destruct (expand_cube g) as [ys|e] eqn:Eg; [|discriminate]. simpl in E.
    destruct (IH _ E Hy) as [H | (g' & ys' & Hg' & E' & Hy')].
    + destruct (fold_consider_members ys st y H) as [H' | H']; [auto|].
      right. exists g, ys. split; [left; reflexivity | auto].
    + right. exists g', ys'. split; [right; exact Hg' | auto].
Qed.

(** Every grid of a new level was yielded by [expand_cube] on a grid of
    the level below. *)
Lemma next_level_members base l y :
  next_level base = Ok l -> In y l ->
  exists g ys, In g base /\ expand_cube g = Ok ys /\ In y ys.
Proof.
  unfold next_level. intros E Hy.
  destruct (foldM grow base ([], ∅)) as [st|e] eqn:Ef; [|discriminate].
  simpl in E. injection E as <-.
  destruct (foldM_grow_members base _ st y Ef Hy) as [[] | H]. exact H.
Qed.

Lemma expand_cube_count g l y :
  wf g -> binary g -> expand_cube g = Ok l -> In y l ->
  count_occupied y = count_occupied g + 1.
Proof.
  intros W B E Hy. destruct (expand_cube_spec g) as (l' & E' & Hl).
  rewrite E in E'. injection E' as <-.
  destruct (Forall2_In_r _ _ _ _ Hl Hy) as (c & _ & p & lo & Hp & -> & _ & Hw & _).
  destruct (expand_positions_spec g p Hp) as (Hr & Hn1 & _).
  rewrite (window_count _ _ _ Hw).
  rewrite count_set_cell; [| apply wf_pad | exact Hr |].
  - rewrite <- (window_count _ _ _ (window_pad g W)). reflexivity.
  - destruct (binary_get_pad g p B Hr); [assumption | contradiction].
Qed.

Lemma generate_level_count (n : nat) :
  forall l, generate_level n = Ok l ->
  forall g, In g l -> count_occupied g = n.
Proof.
  induction n as [|n IH]; intros l E g Hg.
  - injection E as <-. destruct Hg.
  - destruct n as [|[|n]].
    + injection E as <-. destruct Hg as [<- | []]. reflexivity.
    + injection E as <-. destruct Hg as [<- | []]. reflexivity.
    + change (generate_level (S (S (S n))))
        with (let* base_cubes := generate_level (S (S n)) in next_level base_cubes)
        in E.
      destruct (generate_level_quick (S (S n))) as [Eb Gb].
      rewrite Eb in E. cbv beta iota delta [bind] in E.
      destruct (next_level_members _ _ g E Hg) as (b & ys & Hb & Ey & Hy).
      destruct (proj1 (List.Forall_forall _ _) Gb b Hb) as (Wb & _ & Bb).
      rewrite (expand_cube_count b ys g Wb Bb Ey Hy).
      rewrite (IH _ Eb b Hb). lia.
Qed.

(** X14: for [n >= 1], every grid returned by [generate_polycubes n] is a
    {0,1} grid with a consistent shape, bounding-box-tight, with exactly
    [n] occupied cells. *)
Theorem generate_polycubes_cells (n : Z) :
  (1 <= n)%Z ->
  exists l, generate_polycubes n = Ok l /\
            forall g, In g l ->
                      wf g /\ binary g /\ tight g /\
                      Z.of_nat (count_occupied g) = n.
Proof.
  intros Hn. rewrite generate_polycubes_level by exact Hn.
  destruct (generate_level_quick (Z.to_nat n)) as [E G].
  exists (quick_level (Z.to_nat n)). split; [exact E|].
  intros g Hg.
  destruct (proj1 (List.Forall_forall _ _) G g Hg) as (W & T & B).
  split; [exact W|]. split; [exact B|]. split; [exact T|].
  rewrite (generate_level_count _ _ E g Hg). lia.
Qed.

Lemma generate_polycubes_cells_witness :
  (1 <= 4)%Z /\
  exists l, generate_polycubes 4 = Ok l /\
            forall g, In g l ->
                      wf g /\ binary g /\ tight g /\
                      Z.of_nat (count_occupied g) = 4%Z.
Proof.
  assert (H : (1 <= 4)%Z) by lia.
  split; [exact H|]. exact (generate_polycubes_cells 4 H).
Defined.

(** X15: for [n >= 3], every grid returned by [generate_polycubes n] was
    yielded by [expand_cube] on one of the grids returned for [n - 1]. *)
Theorem generate_polycubes_grown (n : Z) (l : list grid) :
  (3 <= n)%Z -> generate_polycubes n = Ok l ->
  exists base, generate_polycubes (n - 1) = Ok base /\
    forall y, In y l ->
    exists g ys, In g base /\ expand_cube g = Ok ys /\ In y ys.
Proof.
  intros Hn E. rewrite generate_polycubes_level in * by lia.
  replace (Z.to_nat n) with (S (Z.to_nat (n - 1))) in E by lia.
  destruct (Z.to_nat (n - 1)) as [|[|m]] eqn:Em; [lia | lia |].
  change (generate_level (S (S (S m))))
    with (let* base_cubes := generate_level (S (S m)) in next_level base_cubes) in E.
  destruct (generate_level (S (S m))) as [base|e] eqn:Eb; [|discriminate].
  exists base. split; [reflexivity|].
  intros y Hy. cbv beta iota delta [bind] in E.
  apply (next_level_members base l y E Hy).
Qed.

Lemma generate_polycubes_grown_witness :
  (3 <= 3)%Z /\ generate_polycubes 3 = Ok [ones (3, 1, 1); Grid (2, 2, 1) [1; 1; 0; 1]%Z] /\
  exists base, generate_polycubes (3 - 1) = Ok base /\
    forall y, In y [ones (3, 1, 1); Grid (2, 2, 1) [1; 1; 0; 1]%Z] ->
    exists g ys, In g base /\ expand_cube g = Ok ys /\ In y ys.
Proof.
  assert (H : (3 <= 3)%Z) by lia.
  assert (E : generate_polycubes 3
              = Ok [ones (3, 1, 1); Grid (2, 2, 1) [1; 1; 0; 1]%Z]) by reflexivity.
  split; [exact H|]. split; [exact E|].
  exact (generate_polycubes_grown 3 _ H E).
Defined.

(** ** generate_polycubes with its cache *)

Lemma generate_level_step (n : nat) :
  generate_level (S (S (S n)))
  = (let* base_cubes := generate_level (S (S n)) in next_level base_cubes).
Proof. reflexivity. Qed.

Lemma generate_cached_level_step (n : nat) (use_cache : bool)
  (files : gmap Z (list grid)) :
  generate_cached_level (S (S (S n))) use_cache files
  = match (if use_cache then files !! Z.of_nat (S (S (S n))) else None) with
    | Some polycubes => Ok (polycubes, files)
    | None =>
        let* (base_cubes, files) := generate_cached_level (S (S n)) use_cache files in
        let* polycubes := next_level base_cubes in
        Ok (polycubes,
            if use_cache then <[Z.of_nat (S (S (S n))) := polycubes]> files
            else files)
    end.
Proof. reflexivity. Qed.

Lemma generate_cached_level_off (n : nat) (files : gmap Z (list grid)) :
  generate_cached_level n false files
  = (let* l := generate_level n in Ok (l, files)).
Proof.
  induction n as [|n IH]; [reflexivity|].
  destruct n as [|[|n]]; [reflexivity | reflexivity |].
  rewrite generate_cached_level_step, generate_level_step, IH.
  destruct (generate_level (S (S n))) as [base|e]; [|reflexivity].
  cbv beta iota delta [bind].
  destruct (next_level base); reflexivity.
Qed.

(** X16: with [use_cache=False] the files are neither read nor written:
    whatever they hold, the call returns what [generate_polycubes n]
    returns and leaves them as they were. *)
Theorem generate_polycubes_cache_off (n : Z) (files : gmap Z (list grid)) :
  generate_polycubes_cached n false files
  = (let* l := generate_polycubes n in Ok (l, files)).
Proof.
  unfold generate_polycubes_cached, generate_polycubes.
  destruct (n <? 1)%Z; [reflexivity|]. apply generate_cached_level_off.
Qed.

Lemma coherent_level (files : gmap Z (list grid)) (n : nat) (l : list grid) :
  coherent files -> 3 <= n -> files !! Z.of_nat n = Some l ->
  generate_level n = Ok l.
Proof.
  intros C Hn Hl. rewrite <- (C _ _ Hl) by lia.
  rewrite generate_polycubes_level by lia. rewrite Nat2Z.id. reflexivity.
Qed.

Lemma generate_cached_level_coherent (n : nat) :
  forall files, coherent files ->
  exists l files',
    generate_cached_level n true files = Ok (l, files') /\
    generate_level n = Ok l /\
    coherent files' /\
    (forall k v, files !! k = Some v -> files' !! k = Some v) /\
    (3 <= n -> files' !! Z.of_nat n = Some l).
Proof.
  induction n as [|n IH]; intros files C.
  - exists [], files. repeat split; auto. lia.
  - destruct n as [|[|n]].
    + exists [ones (1, 1, 1)], files. repeat split; auto. lia.
    + exists [ones (2, 1, 1)], files. repeat split; auto. lia.
    + rewrite generate_cached_level_step.
      destruct (files !! Z.of_nat (S (S (S n)))) as [l|] eqn:Hl.
      * exists l, files. split; [reflexivity|].
        split; [apply (coherent_level files); [exact C | lia | exact Hl]|].
        repeat split; auto.
      * destruct (IH files C) as (base & files1 & E1 & Eb & C1 & K1 & _).
        rewrite E1. cbv beta iota delta [bind].
        destruct (generate_level_inv (S (S (S n)))) as (l & El & _).
        pose proof El as El'. rewrite generate_level_step, Eb in El'.
        cbv beta iota delta [bind] in El'. rewrite El'.
        exists l, (<[Z.of_nat (S (S (S n))) := l]> files1).
        split; [reflexivity|]. split; [exact El|]. split; [|split].
        -- intros k v Hk Hk3.
           destruct (decide (k = Z.of_nat (S (S (S n))))) as [->|Hne].
           ++ rewrite lookup_insert_eq in Hk. injection Hk as <-.
              rewrite generate_polycubes_level by lia. rewrite Nat2Z.id. exact El.
           ++ rewrite lookup_insert_ne in Hk by congruence. apply (C1 k v Hk Hk3).
        -- intros k v Hk.
           destruct (decide (k = Z.of_nat (S (S (S n))))) as [->|Hne];
             [congruence|].
           rewrite lookup_insert_ne by congruence. apply K1, Hk.
        -- intros _. apply lookup_insert_eq.
Qed.

(** X18: with [use_cache=True] and files that hold, for every cached
    [k >= 3], what the program computes for [k] (no file at all included),
    the call returns what [generate_polycubes n] returns; afterwards the
    files still hold computed levels only, every file is kept as it was,
    and for [n >= 3] the result is stored under [n]. *)
Theorem generate_polycubes_cache_coherent (n : Z) (files : gmap Z (list grid)) :
  coherent files ->
  exists l files',
    generate_polycubes_cached n true files = Ok (l, files') /\
    generate_polycubes n = Ok l /\
    coherent files' /\
    (forall k v, files !! k = Some v -> files' !! k = Some v) /\
    ((3 <= n)%Z -> files' !! n = Some l).
Proof.
  intros C. unfold generate_polycubes_cached, generate_polycubes.
  destruct (Z.ltb_spec n 1) as [Hlt|Hge].
  - exists [], files. repeat split; auto. lia.
  - destruct (generate_cached_level_coherent (Z.to_nat n) files C)
      as (l & files' & E & El & C' & K & S).
    exists l, files'. repeat split; auto.
    intros Hn. rewrite <- (Z2Nat.id n) at 1 by lia. apply S. lia.
Qed.

Lemma coherent_empty : coherent ∅.
Proof. intros k l H. rewrite lookup_empty in H. discriminate. Qed.

Lemma generate_polycubes_cache_coherent_witness :
  coherent ∅ /\
  exists l files',
    generate_polycubes_cached 4 true ∅ = Ok (l, files') /\
    generate_polycubes 4 = Ok l /\
    coherent files' /\
    (forall k v, (∅ : gmap Z (list grid)) !! k = Some v -> files' !! k = Some v) /\
    ((3 <= 4)%Z -> files' !! 4%Z = Some l).
Proof.
  split; [exact coherent_empty|].
  exact (generate_polycubes_cache_coherent 4 ∅ coherent_empty).
Defined.

(** ** Every polycube is generated *)

Lemma proj_zidx a i : proj a (zidx i) = Z.of_nat (proj a i).
Proof. exact (proj_mk3 (fun a => Z.of_nat (proj a i)) a). Qed.

Lemma proj_padd a v d : proj a (padd v d) = (proj a v + proj a d)%Z.
Proof. exact (proj_mk3 (fun a => (proj a v + proj a d)%Z) a). Qed.

Lemma zidx_inj i j : zidx i = zidx j -> i = j.
Proof.
  intros E. apply triple_ext. intros a. apply Nat2Z.inj.
  rewrite <- !proj_zidx, E. reflexivity.
Qed.

Lemma zidx_add3 i lo : zidx (add3 i lo) = padd (zidx i) (zidx lo).
Proof.
  apply triple_ext. intros a. rewrite proj_padd, !proj_zidx, proj_add3. lia.
Qed.

Lemma padd_inj v v' d : padd v d = padd v' d -> v = v'.
Proof.
  intros E. apply triple_ext. intros a.
  assert (H : proj a (padd v d) = proj a (padd v' d)) by (rewrite E; reflexivity).
  rewrite !proj_padd in H. lia.
Qed.

Lemma cell_zidx g i : cell g (zidx i) <-> occupied g i.
Proof.
  split.
  - intros (j & Hj & E). apply zidx_inj in E. subst. exact Hj.
  - intros H. exists i. auto.
Qed.

Lemma window_cells g g' lo :
  is_window g g' lo ->
  forall w, cell g w <-> exists v, cell g' v /\ w = padd v (zidx lo).
Proof.
  intros Hw w. split.
  - intros (j & Hj & ->). destruct (window_down _ _ _ Hw j Hj) as [Ho E].
    exists (zidx (sub3 j lo)). split; [apply cell_zidx, Ho|].
    rewrite <- zidx_add3, E. reflexivity.
  - intros (v & (i & Hi & ->) & ->). exists (add3 i lo).
    split; [apply (window_up _ _ _ Hw), Hi | symmetry; apply zidx_add3].
Qed.

Lemma set_cell_cells g p :
  wf g -> in_range (shape g) p ->
  forall w, cell (set_cell g p 1) w <-> cell g w \/ w = zidx p.
Proof.
  intros W Hp w. split.
  - intros (i & Hi & ->). apply occupied_set_cell in Hi; [|assumption..].
    destruct Hi as [Hi | ->]; [left; apply cell_zidx, Hi | right; reflexivity].
  - intros [(i & Hi & ->) | ->]; apply cell_zidx, occupied_set_cell; auto.
Qed.

Lemma zidx_image e s c :
  in_range s c -> zidx (image e s c) = move e (act_shift e s) (zidx c).
Proof.
  intros Hc. apply triple_ext. intros a.
  rewrite proj_zidx, ImageFacts.proj_image.
  unfold move, act_shift. rewrite !proj_mk3. cbv zeta.
  rewrite in_range_proj in Hc. specialize (Hc (Rotation.source e a)).
  rewrite proj_zidx.
  destruct (Rotation.flipped e (Rotation.source e a)); lia.
Qed.

Lemma moved_act e g :
  Rotation.is_perm e = true ->
  moved e (act_shift e (shape g)) g (Rotation.act e g).
Proof.
  intros P w. split.
  - intros (i & Hi & ->).
    apply (RotationKeeps.occupied_act_image e g i P) in Hi.
    destruct Hi as (c & Hc & ->). exists (zidx c).
    split; [apply cell_zidx, Hc | apply zidx_image, Hc].
  - intros (v & (c & Hc & ->) & ->). rewrite <- zidx_image by apply Hc.
    apply cell_zidx, RotationKeeps.occupied_act_image; [exact P|].
    exists c. auto.
Qed.

(** A tight {0,1} grid is determined by its occupied cells. *)
Lemma cells_ext a b :
  good a -> good b -> (forall w, cell a w <-> cell b w) -> a = b.
Proof.
  intros (Wa & Ta & Ba) (Wb & Tb & Bb) H.
  assert (O : forall i, occupied a i <-> occupied b i)
    by (intros i; rewrite <- !cell_zidx; apply H).
  assert (S : shape a = shape b).
  { apply triple_ext. intros x.
    destruct (Ta x) as [_ (i & Hi & Ei)]. destruct (Tb x) as [_ (j & Hj & Ej)].
    pose proof (proj1 (proj1 (O i) Hi)) as Ri.
    pose proof (proj1 (proj2 (O j) Hj)) as Rj.
    rewrite in_range_proj in Ri, Rj. specialize (Ri x). specialize (Rj x). lia. }
  apply grid_ext; [exact Wa | exact Wb | exact S |].
  intros i Hi.
  destruct (binary_get a i Ba) as [E0 | E1], (binary_get b i Bb) as [F0 | F1];
    try congruence.
  - exfalso. assert (Hb : occupied b i)
      by (split; [rewrite <- S; exact Hi | rewrite F1; discriminate]).
    apply O in Hb. destruct Hb as [_ Hn]. contradiction.
  - exfalso. assert (Ha : occupied a i)
      by (split; [exact Hi | rewrite E1; discriminate]).
    apply O in Ha. destruct Ha as [_ Hn]. contradiction.
Qed.

(** Two tight {0,1} grids with the same occupied cells up to a translation
    are equal. *)
Lemma cells_shift_eq a b d :
  good a -> good b -> (forall w, cell a w <-> cell b (padd w d)) -> a = b.
Proof.
  intros Ga Gb H.
  assert (D : forall x, proj x d = 0%Z).
  { intros x.
    destruct Ga as (_ & Ta & _), Gb as (_ & Tb & _).
    destruct (Ta x) as [(i & Hi & Ei) _]. destruct (Tb x) as [(j & Hj & Ej) _].
    apply cell_zidx, H in Hi. destruct Hi as (i' & _ & Ei').
    assert (Hj' : cell b (padd (mk3 (fun y => (proj y (zidx j) - proj y d)%Z)) d)).
    { replace (padd _ d) with (zidx j); [apply cell_zidx, Hj|].
      apply triple_ext. intros y. rewrite proj_padd, proj_mk3. lia. }
    apply H in Hj'. destruct Hj' as (j' & _ & Ej').
    assert (E1 : proj x (padd (zidx i) d) = proj x (zidx i')) by (rewrite Ei'; reflexivity).
    assert (E2 : proj x (mk3 (fun y => (proj y (zidx j) - proj y d)%Z)) = proj x (zidx j'))
      by (rewrite Ej'; reflexivity).
    rewrite proj_padd, !proj_zidx in E1. rewrite proj_mk3, !proj_zidx in E2. lia. }
  apply cells_ext; [exact Ga | exact Gb |].
  intros w. rewrite H. replace (padd w d) with w; [reflexivity|].
  apply triple_ext. intros y. rewrite proj_padd, D. lia.
Qed.

Lemma move_shift e d d' v :
  move e d' v = padd (move e d v) (mk3 (fun a => (proj a d' - proj a d)%Z)).
Proof.
  apply triple_ext. intros a. rewrite proj_padd. unfold move. rewrite !proj_mk3. lia.
Qed.

(** The images of one grid under one rotation, whatever the origin, are
    the same tight grid. *)
Lemma moved_unique e d d' x a b :
  good a -> good b -> moved e d x a -> moved e d' x b -> a = b.
Proof.
  intros Ga Gb Ha Hb.
  apply (cells_shift_eq a b (mk3 (fun y => (proj y d' - proj y d)%Z)) Ga Gb).
  intros w. rewrite (Ha w), (Hb _). split.
  - intros (v & Hv & ->). exists v. split; [exact Hv|]. symmetry. apply move_shift.
  - intros (v & Hv & E). exists v. split; [exact Hv|].
    rewrite (move_shift e d d') in E. apply padd_inj in E. exact E.
Qed.

Lemma move_unmove e d w :
  Rotation.is_perm e = true -> move e d (unmove e d w) = w.
Proof.
  intros P. apply triple_ext. intros a. unfold move, unmove.
  rewrite !proj_mk3. cbv zeta. rewrite ?proj_mk3.
  rewrite (RotationFacts.target_source e a P).
  destruct (Rotation.flipped e (Rotation.source e a)); lia.
Qed.

Lemma near_unmove e d w w' :
  Rotation.is_perm e = true -> near w w' -> near (unmove e d w) (unmove e d w').
Proof.
  intros P (a & Ha & Hb). exists (Rotation.source e a). split.
  - unfold unmove. rewrite !proj_mk3. cbv zeta.
    rewrite (RotationFacts.target_source e a P).
    destruct (Rotation.flipped e (Rotation.source e a)); lia.
  - intros b Hne. unfold unmove. rewrite !proj_mk3. cbv zeta.
    assert (Ht : Rotation.target e b <> a).
    { intros E. apply Hne. rewrite <- E. symmetry.
      apply RotationFacts.source_target, P. }
    rewrite (Hb _ Ht). reflexivity.
Qed.

Lemma near_padd u v d : near u v -> near (padd u d) (padd v d).
Proof.
  intros (a & Ha & Hb). exists a. split.
  - rewrite !proj_padd. lia.
  - intros b Hne. rewrite !proj_padd, (Hb b Hne). reflexivity.
Qed.

Lemma adjacent_near i j : adjacent i j <-> near (zidx i) (zidx j).
Proof.
  split.
  - intros (a & [-> | ->]); exists a; split.
    + left. rewrite !proj_zidx, proj_shift_up.
      rewrite (proj2 (RotationFacts.axis_eqb_eq a a) eq_refl). lia.
    + intros b Hne. rewrite !proj_zidx, proj_shift_up.
      destruct (axis_eqb b a) eqn:E; [|reflexivity].
      apply RotationFacts.axis_eqb_eq in E. contradiction.
    + right. rewrite !proj_zidx, proj_shift_up.
      rewrite (proj2 (RotationFacts.axis_eqb_eq a a) eq_refl). lia.
    + intros b Hne. rewrite !proj_zidx, proj_shift_up.
      destruct (axis_eqb b a) eqn:E; [|reflexivity].
      apply RotationFacts.axis_eqb_eq in E. contradiction.
  - intros (a & Ha & Hb). exists a.
    assert (K : forall (u v : index),
               proj a v = proj a u + 1 ->
               (forall b, b <> a -> proj b (zidx u) = proj b (zidx v)) ->
               v = shift_up a u).
    { intros u v E H. apply triple_ext. intros b. rewrite proj_shift_up.
      destruct (axis_eqb b a) eqn:Eb.
      - apply RotationFacts.axis_eqb_eq in Eb. subst b. exact E.
      - assert (Hne : b <> a)
          by (intros ->; rewrite (proj2 (RotationFacts.axis_eqb_eq a a) eq_refl) in Eb;
              discriminate).
        specialize (H b Hne). rewrite !proj_zidx in H. lia. }
    rewrite !proj_zidx in Ha. destruct Ha as [Ha | Ha].
    + left. apply K; [lia | exact Hb].
    + right. apply K; [lia|]. intros b Hne. symmetry. apply Hb, Hne.
Qed.

(** ** Growing a connected part of a connected grid *)

Lemma occupied_dec g i : {occupied g i} + {~ occupied g i}.
Proof.
  destruct (in_dec index_eq_dec i (nonzero g)) as [H | H].
  - left. apply in_nonzero, H.
  - right. intros O. apply H, in_nonzero, O.
Qed.

(** A path that starts inside a part and ends outside it leaves it
    somewhere. *)
Lemma path_exit g (inside : index -> Prop) i j :
  (forall x, {inside x} + {~ inside x}) ->
  path g i j -> inside i -> ~ inside j ->
  exists q c, inside q /\ occupied g c /\ ~ inside c /\ adjacent q c.
Proof.
  intros Dec Hp. induction Hp as [i Hi | i j k Hi Hadj Hp IH]; intros Hin Hout.
  - contradiction.
  - destruct (Dec j) as [Hj | Hj].
    + apply IH; assumption.
    + exists i, j. split; [exact Hin|]. split; [|auto].
      apply (path_occupied_l _ _ _ Hp).
Qed.

(** A part of a connected grid that has fewer cells can be grown by a
    cell of the grid that is face-adjacent to the part. *)
Lemma grow_cell g s :
  connected g ->
  (forall i, occupied s i -> occupied g i) ->
  (exists i, occupied s i) ->
  count_occupied s < count_occupied g ->
  exists q c, occupied s q /\ occupied g c /\ ~ occupied s c /\ adjacent q c.
Proof.
  intros C Sub (i0 & Hi0) Hlt.
  assert (Hc : exists c, occupied g c /\ ~ occupied s c).
  { destruct (List.Forall_Exists_dec (fun i => occupied s i)
                (fun i => occupied_dec s i) (nonzero g)) as [F | E].
    - exfalso. unfold count_occupied in Hlt.
      assert (Hle : length (nonzero g) <= length (nonzero s)); [|lia].
      apply List.NoDup_incl_length; [apply NoDup_nonzero|].
      intros i Hi. apply in_nonzero.
      apply (proj1 (List.Forall_forall _ _) F i Hi).
    - apply List.Exists_exists in E. destruct E as (c & Hc & Hn).
      exists c. split; [apply in_nonzero, Hc | exact Hn]. }
  destruct Hc as (c & Hc & Hn).
  apply (path_exit g (occupied s) i0 c (occupied_dec s)); [|exact Hi0 | exact Hn].
  apply C; [apply Sub, Hi0 | exact Hc].
Qed.

(** A part with as many cells as the grid is the whole grid. *)
Lemma full_part g s :
  wf g -> wf s -> binary g -> binary s -> shape s = shape g ->
  (forall i, occupied s i -> occupied g i) ->
  count_occupied s = count_occupied g -> s = g.
Proof.
  intros Wg Ws Bg Bs S Sub Hc.
  assert (Sup : forall i, occupied g i -> occupied s i).
  { intros i Hi. apply in_nonzero.
    assert (Hle : length (nonzero g) <= length (nonzero s))
      by (unfold count_occupied in Hc; lia).
    assert (Hin : incl (nonzero s) (nonzero g))
      by (intros j Hj; apply in_nonzero, Sub, in_nonzero, Hj).
    apply (List.NoDup_length_incl (NoDup_nonzero s) Hle Hin), in_nonzero, Hi. }
  apply grid_ext; [exact Ws | exact Wg | exact S |].
  intros i Hi.
  destruct (binary_get s i Bs) as [E0 | E1], (binary_get g i Bg) as [F0 | F1];
    try congruence.
  - exfalso. assert (Hg : occupied g i)
      by (split; [rewrite <- S; exact Hi | rewrite F1; discriminate]).
    apply Sup in Hg. destruct Hg as [_ Hn]. contradiction.
  - exfalso. assert (Hs : occupied s i)
      by (split; [exact Hi | rewrite E1; discriminate]).
    apply Sub in Hs. destruct Hs as [_ Hn]. contradiction.
Qed.

(** ** The generation loop misses no shape *)

Lemma fingerprints_snoc ps c :
  fingerprints (ps ++ [c]) = set_add (rle c) (fingerprints ps).
Proof. unfold fingerprints. rewrite fold_left_app. reflexivity. Qed.

Lemma covered_mono ps ps' y :
  (forall p, In p ps -> In p ps') -> covered ps y -> covered ps' y.
Proof. intros H (p & Hp & Hr). exists p. auto. Qed.

(** After the body of the inner loop the candidate has a rotation in the
    list, and nothing left the list. *)
Lemma consider_covers st c :
  fingerprinted st -> wf c -> binary c ->
  fingerprinted (consider st c) /\
  covered (fst (consider st c)) c /\
  (forall p, In p (fst st) -> In p (fst (consider st c))).
Proof.
  destruct st as [ps seen]. intros [Hs Hb] W B. simpl in Hs, Hb. subst seen.
  unfold consider. destruct (cube_exists_rle c (fingerprints ps)) eqn:E.
  - split; [split; [reflexivity | exact Hb]|]. split; [|auto].
    apply (cube_exists_rle_fingerprints c ps W B Hb), E.
  - simpl. split; [split|split].
    + symmetry. apply fingerprints_snoc.
    + apply Forall_app. split; [exact Hb | constructor; [exact B | constructor]].
    + exists c. split; [apply in_app_iff; right; left; reflexivity|].
      apply GroupFacts.all_rotations_self, W.
    + intros p Hp. apply in_app_iff. left. exact Hp.
Qed.

Lemma fold_consider_covers ys :
  forall st, fingerprinted st -> (forall y, In y ys -> wf y /\ binary y) ->
  fingerprinted (fold_left consider ys st) /\
  (forall p, In p (fst st) -> In p (fst (fold_left consider ys st))) /\
  (forall y, In y ys -> covered (fst (fold_left consider ys st)) y).
Proof.
  induction ys as [|c ys IH]; intros st J Hys.
  - split; [exact J|]. split; [auto | intros y []].
  - destruct (Hys c (or_introl eq_refl)) as [Wc Bc].
    destruct (consider_covers st c J Wc Bc) as (J' & Cc & Keep).
    destruct (IH (consider st c) J' (fun y Hy => Hys y (or_intror Hy)))
      as (J'' & Keep' & Cov).
    simpl. split; [exact J''|]. split; [auto|].
    intros y [<- | Hy]; [|apply Cov, Hy].
    apply (covered_mono _ _ _ Keep' Cc).
Qed.

Lemma expand_cube_binary g l :
  wf g -> binary g -> expand_cube g = Ok l ->
  forall y, In y l -> wf y /\ binary y.
Proof.
  intros W B E y Hy. destruct (expand_cube_spec g) as (l' & E' & Hl).
  rewrite E in E'. injection E' as <-.
  destruct (Forall2_In_r _ _ _ _ Hl Hy) as (c & _ & p & lo & _ & -> & _ & Hw & _).
  split; [apply (win_wf _ _ _ Hw)|].
  apply (binary_window _ _ _ Hw), binary_set_cell, binary_pad, B.
Qed.

Lemma foldM_grow_covers base :
  forall st st', fingerprinted st -> Forall good base ->
  foldM grow base st = Ok st' ->
  fingerprinted st' /\
  (forall p, In p (fst st) -> In p (fst st')) /\
  (forall e ys y, In e base -> expand_cube e = Ok ys -> In y ys ->
                  covered (fst st') y).
Proof.
  induction base as [|b base IH]; intros st st' J G E.
  - simpl in E. injection E as <-. split; [exact J|]. split; [auto|].
    intros e ys y [].
  - inversion G as [|? ? Gb G']; subst. destruct Gb as (Wb & _ & Bb).
    simpl in E. unfold grow at 1 in E.
    destruct (expand_cube b) as [ys|x] eqn:Eb; [|discriminate].
    cbv beta iota delta [bind] in E.
    destruct (fold_consider_covers ys st J (expand_cube_binary b ys Wb Bb Eb))
      as (J' & Keep & Cov).
    destruct (IH _ _ J' G' E) as (J'' & Keep' & Cov').
    split; [exact J''|]. split; [auto|].
    intros e ys' y [<- | He] Ee Hy.
    + rewrite Eb in Ee. injection Ee as <-.
      apply (covered_mono _ _ _ Keep'), Cov, Hy.
    + apply (Cov' e ys' y He Ee Hy).
Qed.

(** Every grid yielded by [expand_cube] on a grid of the level below has
    a rotation in the new level. *)
Lemma next_level_covers base l :
  Forall good base -> next_level base = Ok l ->
  forall e ys y, In e base -> expand_cube e = Ok ys -> In y ys -> covered l y.
Proof.
  unfold next_level. intros G E.
  destruct (foldM grow base ([], ∅)) as [st|x] eqn:Ef; [|discriminate].
  simpl in E. injection E as <-.
  apply (foldM_grow_covers base ([], ∅) st); [|exact G | exact Ef].
  split; [reflexivity | constructor].
Qed.

(** Level 2 is what the loop computes from level 1. *)
Lemma generate_level_next (k : nat) :
  1 <= k ->
  generate_level (S k) = (let* base_cubes := generate_level k in next_level base_cubes).
Proof.
  intros Hk. destruct k as [|[|k]]; [lia | | reflexivity].
  assert (G : Forall good [ones (1, 1, 1)]).
  { constructor; [|constructor]. apply good_ones. intros a. destruct a; simpl; lia. }
  change (generate_level 1) with (Ok [ones (1, 1, 1)]).
  cbv beta iota delta [bind]. unfold next_level.
  destruct (foldM_grow_quick [ones (1, 1, 1)] ([], ∅) G) as [E _]; [constructor|].
  rewrite E. vm_compute. reflexivity.
Qed.

(** ** One more cell *)

Lemma unmove_move e d v :
  Rotation.is_perm e = true -> unmove e d (move e d v) = v.
Proof.
  intros P. apply triple_ext. intros b. unfold move, unmove.
  rewrite !proj_mk3. cbv zeta. rewrite ?proj_mk3.
  rewrite (RotationFacts.source_target e b P).
  destruct (Rotation.flipped e b); lia.
Qed.

Lemma move_padd e d v t :
  padd (move e d v) t = move e (padd d t) v.
Proof.
  apply triple_ext. intros a. unfold move.
  rewrite proj_padd, !proj_mk3. cbv zeta. rewrite proj_padd. lia.
Qed.

(** A change of origin before and after a motion is a motion by the same
    rotation. *)
Lemma motion_change e d (t1 t2 t3 : point) :
  exists d', forall w u x,
    padd u t1 = padd x t2 -> (padd w t3 = move e d u <-> w = move e d' x).
Proof.
  exists (mk3 (fun a =>
            let b := Rotation.source e a in
            ((if Rotation.flipped e b then - (proj b t2 - proj b t1)
              else proj b t2 - proj b t1) + proj a d - proj a t3)%Z)).
  intros w u x E.
  assert (Eb : forall b, (proj b u + proj b t1 = proj b x + proj b t2)%Z).
  { intros b. rewrite <- !proj_padd, E. reflexivity. }
  split; intros H; apply triple_ext; intros a.
  - assert (Ha : proj a (padd w t3) = proj a (move e d u)) by (rewrite H; reflexivity).
    unfold move in *. rewrite proj_padd in Ha. rewrite !proj_mk3 in *. cbv zeta in *.
    specialize (Eb (Rotation.source e a)).
    destruct (Rotation.flipped e (Rotation.source e a)); lia.
  - assert (Ha : proj a w = proj a (move e _ x)) by (rewrite <- H; reflexivity).
    unfold move in *. rewrite proj_padd. rewrite !proj_mk3 in *. cbv zeta in *.
    rewrite ?proj_mk3 in Ha.
    specialize (Eb (Rotation.source e a)).
    destruct (Rotation.flipped e (Rotation.source e a)); lia.
Qed.

Lemma Forall2_In_l {A B} (P : A -> B -> Prop) (l : list A) (k : list B) (x : A) :
  Forall2 P l k -> In x l -> exists y, In y k /\ P x y.
Proof.
  induction 1 as [|x' y l k Hxy _ IH]; intros Hx; [contradiction|].
  destruct Hx as [<-|Hx].
  - exists y. split; [left; reflexivity | exact Hxy].
  - destruct (IH Hx) as (y' & Hy' & HP). exists y'. split; [right|]; assumption.
Qed.

Lemma proj_unit a : proj a (1, 1, 1) = 1.
Proof. destruct a; reflexivity. Qed.

(** If the bounding box of [s] is a rotation of [e], then the bounding box
    of [s] with one more cell, face-adjacent to a cell of [s], is a
    rotation of a grid that [expand_cube e] yields. *)
Lemma expand_cube_reaches (e s t : grid) (lo c q : index) :
  wf e -> binary e -> wf s -> binary s ->
  is_window s t lo -> In t (all_rotations e) ->
  in_range (shape s) c -> ~ occupied s c -> occupied s q -> adjacent q c ->
  exists ys y t',
    expand_cube e = Ok ys /\ In y ys /\
    crop_cube (set_cell s c 1) = Ok t' /\ In t' (all_rotations y).
Proof.
  intros We Be Ws Bs Hw Ht Hc Hnc Hq Hadj.
  rewrite RotationFacts.all_rotations_act in Ht by exact We.
  apply in_map_iff in Ht. destruct Ht as (r & <- & Hr).
  pose proof (GroupFacts.is_perm_yielded r Hr) as P.
  (* the cells of [s] are the images of the cells of [e] *)
  set (d1 := padd (act_shift r (shape e)) (zidx lo)).
  assert (Ms : moved r d1 e s).
  { intros w. rewrite (window_cells _ _ _ Hw w). split.
    - intros (v & Hv & ->). apply (moved_act r e P) in Hv.
      destruct Hv as (u & Hu & ->). exists u. split; [exact Hu | apply move_padd].
    - intros (u & Hu & ->). exists (move r (act_shift r (shape e)) u). split.
      + apply (moved_act r e P). exists u. auto.
      + symmetry. apply move_padd. }
  (* the new cell and its neighbour, seen from [e] *)
  apply cell_zidx, Ms in Hq. destruct Hq as (uq & Huq & Eq).
  set (uc := unmove r d1 (zidx c)).
  assert (Ec : move r d1 uc = zidx c) by apply move_unmove, P.
  assert (Nq : near uq uc).
  { replace uq with (unmove r d1 (zidx q)).
    - apply near_unmove; [exact P | apply adjacent_near, Hadj].
    - rewrite Eq. apply unmove_move, P. }
  assert (Nc : ~ cell e uc).
  { intros H. apply Hnc, cell_zidx, Ms. exists uc. split; [exact H | symmetry; exact Ec]. }
  destruct Huq as (iq & Hiq & ->).
  assert (Rng : forall a, (-1 <= proj a uc <= Z.of_nat (proj a (shape e)))%Z).
  { intros a. destruct Nq as (a0 & H0 & H1).
    pose proof (proj1 Hiq) as R. rewrite in_range_proj in R.
    destruct (decide (a = a0)) as [-> | Hne].
    - rewrite proj_zidx in H0. specialize (R a0). lia.
    - rewrite <- (H1 a Hne), proj_zidx. specialize (R a). lia. }
  (* the frontier cell of the padded [e] *)
  set (p := mk3 (fun a => Z.to_nat (proj a uc + 1)) : index).
  assert (Zp : zidx p = padd uc (zidx (1, 1, 1))).
  { apply triple_ext. intros a. rewrite proj_padd, !proj_zidx, proj_unit.
    unfold p. rewrite proj_mk3. specialize (Rng a). lia. }
  assert (Rp : in_range (shape (pad e)) p).
  { apply in_range_proj. intros a. rewrite shape_pad. unfold p. rewrite proj_mk3.
    specialize (Rng a). lia. }
  pose proof (window_cells _ _ _ (window_pad e We)) as Pad.
  assert (Gp : get (pad e) p = 0%Z).
  { destruct (Z.eq_dec (get (pad e) p) 0%Z) as [E | N]; [exact E|]. exfalso.
    assert (O : occupied (pad e) p) by (split; assumption).
    apply cell_zidx, Pad in O. destruct O as (v & Hv & E).
    rewrite Zp in E. apply padd_inj in E. subst v. exact (Nc Hv). }
  assert (Oq : occupied (pad e) (add3 iq (1, 1, 1)))
    by apply (window_up _ _ _ (window_pad e We)), Hiq.
  assert (Aq : adjacent (add3 iq (1, 1, 1)) p).
  { apply adjacent_near. rewrite zidx_add3, Zp. apply near_padd, Nq. }
  pose proof (expand_positions_intro e p _ Rp Gp Oq Aq) as Hp.
  destruct (expand_cube_spec e) as (ys & Ey & Hys).
  assert (Hcand : In (set_cell (pad e) p 1) (expand_candidates e)).
  { unfold expand_candidates, expand_padded.
    apply (in_map (fun i => set_cell (pad e) i 1)), Hp. }
  destruct (Forall2_In_l _ _ _ _ Hys Hcand)
    as (y & Hy & p' & lo' & _ & _ & _ & Hwy & Ty).
  pose proof (window_cells _ _ _ Hwy) as Cy.
  pose proof (set_cell_cells (pad e) p (wf_pad e) Rp) as Cc.
  (* the bounding box of the grown part *)
  destruct (crop_cube_spec (set_cell s c 1)) as (t' & lo'' & Et' & Hwt' & Tt').
  { apply wf_set_cell, Ws. }
  { exists c. apply occupied_set_cell; auto. }
  pose proof (window_cells _ _ _ Hwt') as Ct.
  pose proof (set_cell_cells s c Ws Hc) as Cs.
  exists ys, y, t'. split; [exact Ey|]. split; [exact Hy|]. split; [exact Et'|].
  assert (Wy : wf y) by apply (win_wf _ _ _ Hwy).
  rewrite RotationFacts.all_rotations_act by exact Wy.
  apply in_map_iff. exists r. split; [|exact Hr].
  destruct (motion_change r d1 (zidx (1, 1, 1)) (zidx lo') (zidx lo'')) as (d2 & Hd2).
  apply (moved_unique r (act_shift r (shape y)) d2 y).
  - split; [apply RotationFacts.wf_act|]. split.
    + apply RotationKeeps.tight_act; assumption.
    + apply RotationKeeps.binary_act, (binary_window _ _ _ Hwy).
      apply binary_set_cell, binary_pad, Be.
  - split; [apply (win_wf _ _ _ Hwt')|]. split; [exact Tt'|].
    apply (binary_window _ _ _ Hwt'), binary_set_cell, Bs.
  - apply moved_act, P.
  - intros w. split.
    + intros Hw'.
      assert (H : cell (set_cell s c 1) (padd w (zidx lo'')))
        by (apply Ct; exists w; auto).
      apply Cs in H. destruct H as [H | H].
      * apply Ms in H. destruct H as (u & Hu & E).
        assert (H : cell (set_cell (pad e) p 1) (padd u (zidx (1, 1, 1))))
          by (apply Cc; left; apply Pad; exists u; auto).
        apply Cy in H. destruct H as (x & Hx & Ex).
        exists x. split; [exact Hx|]. apply (Hd2 w u x Ex), E.
      * assert (H' : cell (set_cell (pad e) p 1) (zidx p))
          by (apply Cc; right; reflexivity).
        apply Cy in H'. destruct H' as (x & Hx & Ex). rewrite Zp in Ex.
        exists x. split; [exact Hx|]. apply (Hd2 w uc x Ex).
        rewrite H, Ec. reflexivity.
    + intros (x & Hx & E).
      assert (H : cell (set_cell (pad e) p 1) (padd x (zidx lo')))
        by (apply Cy; exists x; auto).
      assert (K : cell (set_cell s c 1) (padd w (zidx lo''))).
      { apply Cc in H. destruct H as [H | H].
        - apply Pad in H. destruct H as (u & Hu & Eu). symmetry in Eu.
          apply Cs. left. apply Ms. exists u. split; [exact Hu|].
          apply (Hd2 w u x Eu), E.
        - rewrite Zp in H. symmetry in H.
          apply Cs. right. rewrite <- Ec. apply (Hd2 w uc x H), E. }
      apply Ct in K. destruct K as (v & Hv & Ev). apply padd_inj in Ev.
      subst v. exact Hv.
Qed.

(** ** Every connected shape is reached *)

Lemma reached_grow (s : grid) (k : nat) (c q : index) :
  1 <= k -> wf s -> binary s -> reached s k ->
  in_range (shape s) c -> ~ occupied s c -> occupied s q -> adjacent q c ->
  reached (set_cell s c 1) (S k).
Proof.
  intros Hk Ws Bs (t & e & l & Et & El & He & Ht) Hc Hnc Hq Hadj.
  destruct (crop_cube_spec s Ws (ex_intro _ q Hq)) as (t0 & lo & Et0 & Hw & _).
  rewrite Et in Et0. injection Et0 as <-.
  destruct (generate_level_quick k) as [Eq Gq].
  rewrite El in Eq. injection Eq as ->.
  assert (Ge : good e) by apply (proj1 (List.Forall_forall _ _) Gq e He).
  destruct Ge as (We & _ & Be).
  destruct (expand_cube_reaches e s t lo c q We Be Ws Bs Hw Ht Hc Hnc Hq Hadj)
    as (ys & y & t' & Ey & Hy & Et' & Hty).
  destruct (generate_level_quick (S k)) as [Eq' _].
  pose proof Eq' as En. rewrite (generate_level_next k Hk), El in En.
  cbv beta iota delta [bind] in En.
  destruct (next_level_covers _ _ Gq En e ys y He Ey Hy) as (p & Hp & Hpy).
  exists t', p, (quick_level (S k)).
  split; [exact Et'|]. split; [exact Eq'|]. split; [exact Hp|].
  destruct (expand_cube_binary e ys We Be Ey y Hy) as [Wy _].
  apply (GroupFacts.rotation_of_rotation y p t' Wy Hpy Hty).
Qed.

Lemma no_cell_zero s i : ~ occupied (tabulate s (fun _ => 0%Z)) i.
Proof.
  intros [Hr Hn]. rewrite shape_tabulate in Hr.
  rewrite get_tabulate in Hn by exact Hr. congruence.
Qed.

(** A single cell is reached at level 1. *)
Lemma reached_one (s : nat * nat * nat) (c : index) :
  in_range s c -> reached (set_cell (tabulate s (fun _ => 0%Z)) c 1) 1.
Proof.
  intros Hc. set (z := tabulate s (fun _ => 0%Z)).
  assert (Wz : wf z) by apply wf_tabulate.
  assert (Rz : in_range (shape z) c) by (unfold z; rewrite shape_tabulate; exact Hc).
  assert (Bz : binary z).
  { apply List.Forall_forall. intros v Hv. unfold z, tabulate in Hv. cbn [flat] in Hv.
    apply in_map_iff in Hv. destruct Hv as (i & <- & _). left. reflexivity. }
  destruct (crop_cube_spec (set_cell z c 1)) as (t & lo & Et & Hw & Tt).
  { apply wf_set_cell, Wz. }
  { exists c. apply occupied_set_cell; auto. }
  exists t, (ones (1, 1, 1)), [ones (1, 1, 1)].
  split; [exact Et|]. split; [reflexivity|]. split; [left; reflexivity|].
  replace t with (ones (1, 1, 1)); [left; reflexivity|]. symmetry.
  apply (cells_shift_eq t (ones (1, 1, 1))
           (mk3 (fun a => (proj a (zidx lo) - proj a (zidx c))%Z))).
  - split; [apply (win_wf _ _ _ Hw)|]. split; [exact Tt|].
    apply (binary_window _ _ _ Hw), binary_set_cell, Bz.
  - apply good_ones. intros a. destruct a; simpl; lia.
  - intros w.
    assert (K : cell t w <-> padd w (zidx lo) = zidx c).
    { split.
      - intros H.
        assert (H' : cell (set_cell z c 1) (padd w (zidx lo)))
          by (apply (window_cells _ _ _ Hw); exists w; auto).
        apply (set_cell_cells z c Wz Rz) in H'.
        destruct H' as [(i & Hi & _) | H']; [|exact H'].
        destruct (no_cell_zero s i Hi).
      - intros H.
        assert (H' : cell (set_cell z c 1) (padd w (zidx lo)))
          by (apply (set_cell_cells z c Wz Rz); right; exact H).
        apply (window_cells _ _ _ Hw) in H'. destruct H' as (v & Hv & Ev).
        apply padd_inj in Ev. subst v. exact Hv. }
    rewrite K. split.
    + intros E. exists (0, 0, 0). split.
      * apply occupied_ones. repeat split; simpl; lia.
      * apply triple_ext. intros a.
        assert (Ea : proj a (padd w (zidx lo)) = proj a (zidx c)) by (rewrite E; reflexivity).
        rewrite !proj_padd in *. rewrite proj_mk3. rewrite !proj_zidx in *.
        destruct a; simpl; lia.
    + intros (i & Hi & E). apply occupied_ones in Hi.
      apply triple_ext. intros a.
      assert (Ea : proj a (padd w (mk3 (fun a => (proj a (zidx lo) - proj a (zidx c))%Z)))
                   = proj a (zidx i)) by (rewrite E; reflexivity).
      rewrite in_range_proj in Hi. specialize (Hi a).
      rewrite !proj_padd in *. rewrite proj_mk3 in Ea. rewrite !proj_zidx in *.
      destruct a; simpl in *; lia.
Qed.

(** A connected grid has parts of every size that are reached. *)
Lemma connected_parts (g : grid) (k : nat) :
  wf g -> binary g -> connected g ->
  1 <= k <= count_occupied g ->
  exists s, wf s /\ binary s /\ shape s = shape g /\
            (forall i, occupied s i -> occupied g i) /\
            count_occupied s = k /\ reached s k.
Proof.
  intros W B C. induction k as [|k IH]; intros Hk; [lia|].
  destruct k as [|k].
  - assert (Hc : exists c, occupied g c).
    { unfold count_occupied in Hk. destruct (nonzero g) as [|c l] eqn:E.
      - simpl in Hk. lia.
      - exists c. apply in_nonzero. rewrite E. left. reflexivity. }
    destruct Hc as (c & Hc).
    set (z := tabulate (shape g) (fun _ => 0%Z)).
    assert (Wz : wf z) by apply wf_tabulate.
    assert (Rz : in_range (shape z) c)
      by (unfold z; rewrite shape_tabulate; apply Hc).
    assert (Bz : binary z).
    { apply List.Forall_forall. intros v Hv. unfold z, tabulate in Hv.
      cbn [flat] in Hv. apply in_map_iff in Hv.
      destruct Hv as (i & <- & _). left. reflexivity. }
    exists (set_cell z c 1).
    split; [apply wf_set_cell, Wz|]. split; [apply binary_set_cell, Bz|].
    split; [rewrite shape_set_cell; apply shape_tabulate|]. split; [|split].
    + intros i Hi. apply occupied_set_cell in Hi; [|assumption..].
      destruct Hi as [Hi | ->]; [destruct (no_cell_zero _ i Hi) | exact Hc].
    + rewrite count_set_cell; [|assumption..|].
      * unfold count_occupied. destruct (nonzero z) as [|i l] eqn:E; [reflexivity|].
        exfalso. apply (no_cell_zero (shape g) i), in_nonzero. fold z.
        rewrite E. left. reflexivity.
      * unfold z. rewrite get_tabulate by apply Hc. reflexivity.
    + apply reached_one, Hc.
  - destruct IH as (s & Ws & Bs & Ss & Sub & Cs & R); [lia|].
    assert (Hne : exists i, occupied s i).
    { unfold count_occupied in Cs. destruct (nonzero s) as [|i l] eqn:E.
      - simpl in Cs. lia.
      - exists i. apply in_nonzero. rewrite E. left. reflexivity. }
    destruct (grow_cell g s C Sub Hne ltac:(lia)) as (q & c & Hq & Hc & Hnc & Hadj).
    assert (Rc : in_range (shape s) c) by (rewrite Ss; apply Hc).
    exists (set_cell s c 1).
    split; [apply wf_set_cell, Ws|]. split; [apply binary_set_cell, Bs|].
    split; [rewrite shape_set_cell; exact Ss|]. split; [|split].
    + intros i Hi. apply occupied_set_cell in Hi; [|assumption..].
      destruct Hi as [Hi | ->]; [apply Sub, Hi | exact Hc].
    + rewrite count_set_cell; [lia | assumption..|].
      destruct (Z.eq_dec (get s c) 0%Z) as [E | N]; [exact E|].
      exfalso. apply Hnc. split; assumption.
    + apply (reached_grow s (S k) c q); auto. lia.
Qed.

(** X19: the enumeration is complete.  Every face-connected {0,1} grid
    with [n >= 1] occupied cells and no empty boundary slice has exactly
    one of its 24 rotations in the list that [generate_polycubes n]
    returns. *)
Theorem generate_polycubes_complete (n : Z) (g : grid) :
  (1 <= n)%Z -> wf g -> binary g -> tight g -> connected g ->
  Z.of_nat (count_occupied g) = n ->
  exists l r, generate_polycubes n = Ok l /\
              In r l /\ In r (all_rotations g) /\
              forall r', In r' l -> In r' (all_rotations g) -> r' = r.
Proof.
  intros Hn W B T C Hc.
  destruct (connected_parts g (count_occupied g) W B C)
    as (s & Ws & Bs & Ss & Sub & Cs & R); [lia|].
  assert (Es : s = g) by (apply full_part; assumption). subst s.
  destruct R as (t & e & l & Et & El & He & Ht).
  destruct (crop_cube_spec g W (tight_occupied g T)) as (t0 & lo & Et0 & Hw & _).
  rewrite Et in Et0. injection Et0 as <-.
  assert (Eg : t = g) by apply (tight_window_id g t lo W T Hw). subst t.
  destruct (generate_level_inv (count_occupied g)) as (l' & El' & Hwc & Free).
  rewrite El in El'. injection El' as <-.
  assert (We : wf e) by apply (Hwc e He).
  assert (Hge : In e (all_rotations g)).
  { apply (GroupFacts.rotation_of_rotation e g e We Ht).
    apply GroupFacts.all_rotations_self, We. }
  exists l, e. rewrite generate_polycubes_level by lia. rewrite <- Hc, Nat2Z.id.
  split; [exact El|]. split; [exact He|]. split; [exact Hge|].
  intros r' Hr' Hgr'.
  pose proof (GroupFacts.rotation_of_rotation g r' e W Hgr' Hge) as H1.
  pose proof (GroupFacts.rotation_of_rotation g e r' W Hge Hgr') as H2.
  apply list_elem_of_In, list_elem_of_lookup_1 in He, Hr'.
  destruct He as (i & Hi). destruct Hr' as (j & Hj).
  destruct (Nat.lt_trichotomy i j) as [Hlt | [-> | Hgt]].
  - destruct (Free i j e r' Hlt Hi Hj H1).
  - congruence.
  - destruct (Free j i r' e Hgt Hj Hi H2).
Qed.

Lemma generate_polycubes_complete_witness :
  let g := Grid (1, 2, 2) [1; 1; 0; 1]%Z in
  (1 <= 3)%Z /\ wf g /\ binary g /\ tight g /\ connected g /\
  Z.of_nat (count_occupied g) = 3%Z /\
  exists l r, generate_polycubes 3 = Ok l /\
              In r l /\ In r (all_rotations g) /\
              forall r', In r' l -> In r' (all_rotations g) -> r' = r.
Proof.
  intros g. set (b := Grid (2, 2, 1) [1; 1; 0; 1]%Z).
  assert (Wb : wf b) by reflexivity.
  assert (Hb : In g (all_rotations b)) by (vm_compute; tauto).
  assert (Lb : generate_level 3 = Ok [ones (3, 1, 1); b]) by (vm_compute; reflexivity).
  assert (Gb : good b).
  { destruct (generate_level_quick 3) as [_ G].
    assert (Q : quick_level 3 = [ones (3, 1, 1); b]) by (vm_compute; reflexivity).
    rewrite Q in G. apply (proj1 (List.Forall_forall _ _) G). right. left. reflexivity. }
  assert (Cb : connected b).
  { destruct (generate_level_inv 3) as (l & E & H & _). rewrite Lb in E.
    injection E as <-. apply H. right. left. reflexivity. }
  rewrite RotationFacts.all_rotations_act in Hb by exact Wb.
  apply in_map_iff in Hb. destruct Hb as (e & Eg & He).
  pose proof (GroupFacts.is_perm_yielded e He) as P.
  destruct Gb as (_ & Tb & Bb).
  assert (H1 : (1 <= 3)%Z) by lia.
  assert (W : wf g) by reflexivity.
  assert (B : binary g) by (rewrite <- Eg; apply RotationKeeps.binary_act, Bb).
  assert (T : tight g) by (rewrite <- Eg; apply RotationKeeps.tight_act; assumption).
  assert (C : connected g) by (rewrite <- Eg; apply RotationKeeps.connected_act; assumption).
  assert (N : Z.of_nat (count_occupied g) = 3%Z) by reflexivity.
  split; [exact H1|]. split; [exact W|]. split; [exact B|]. split; [exact T|].
  split; [exact C|]. split; [exact N|].
  exact (generate_polycubes_complete 3 g H1 W B T C N).
Defined.

(** ** The script entry point *)

(** X20: run as a script on cache files that hold computed levels (or on
    no files), the number printed is the number of grids that
    [generate_polycubes n] returns, whatever the cache flag; without a
    flag the cache is on, so for [n >= 3] the result is stored under [n],
    and with [--no-cache] the files stay as they were. *)
Theorem main_prints_count (n : Z) (cache : option bool)
  (files : gmap Z (list grid)) :
  coherent files ->
  exists l files',
    generate_polycubes n = Ok l /\
    main n cache files = Ok (length l, files') /\
    (cache = Some false -> files' = files) /\
    (cache <> Some false -> (3 <= n)%Z -> files' !! n = Some l).
Proof.
  intros C. unfold main.
  assert (On : exists l files',
            generate_polycubes n = Ok l /\
            generate_polycubes_cached n true files = Ok (l, files') /\
            ((3 <= n)%Z -> files' !! n = Some l)).
  { unfold generate_polycubes_cached, generate_polycubes.
    destruct (Z.ltb_spec n 1) as [Hlt | Hge].
    - exists [], files. split; [reflexivity|]. split; [reflexivity | lia].
    - destruct (generate_cached_level_coherent (Z.to_nat n) files C)
        as (l & files' & E & El & _ & _ & S).
      exists l, files'. split; [exact El|]. split; [exact E|].
      intros Hn. rewrite <- (Z2Nat.id n) at 1 by lia. apply S. lia. }
  destruct On as (l & files' & El & Ec & S).
  destruct cache as [[|]|].
  - exists l, files'. rewrite Ec. split; [exact El|]. split; [reflexivity|].
    split; [discriminate | intros _; exact S].
  - exists l, files. split; [exact El|]. split; [|split; [reflexivity | congruence]].
    assert (Off : generate_polycubes_cached n false files = Ok (l, files)).
    { unfold generate_polycubes_cached. unfold generate_polycubes in El.
      destruct (n <? 1)%Z; [injection El as <-; reflexivity|].
      rewrite generate_cached_level_off, El. reflexivity. }
    rewrite Off. reflexivity.
  - exists l, files'. rewrite Ec. split; [exact El|]. split; [reflexivity|].
    split; [discriminate | intros _; exact S].
Qed.

Lemma main_prints_count_witness :
  coherent ∅ /\
  exists l files',
    generate_polycubes 4 = Ok l /\
    main 4 None ∅ = Ok (length l, files') /\
    (@None bool = Some false -> files' = ∅) /\
    (@None bool <> Some false -> (3 <= 4)%Z -> files' !! 4%Z = Some l).
Proof.
  split; [exact coherent_empty|].
  exact (main_prints_count 4 None ∅ coherent_empty).
Defined.

(** ** The runs of a fingerprint are maximal *)

(** The loop of [rle], started in the middle of a run of [v] cells [c]:
    what is appended starts with a run of the sign of [c]. *)
Lemma rle_loop_alternating (l : list Z) :
  Forall (fun c => c = 0%Z \/ c = 1%Z) l ->
  forall r c v, c = 0%Z \/ c = 1%Z -> (1 <= v)%Z ->
  let st := fold_left rle_step l (RleState r (Some c) v) in
  exists a tail,
    rle_r st ++ [rle_emit (rle_current st) (rle_val st)] = r ++ a :: tail /\
    (if (c =? 1)%Z then 0 < a else a < 0)%Z /\
    alternating (a :: tail).
Proof.
  induction 1 as [|x l Hx Hl IH]; intros r c v Hc Hv; simpl.
  - exists (rle_emit (Some c) v), []. split; [reflexivity|]. split; [|exact I].
    unfold rle_emit. destruct (c =? 1)%Z; lia.
  - assert (S : rle_step (RleState r (Some c) v) x
               = if (c =? x)%Z then RleState r (Some c) (v + 1)
                 else RleState (r ++ [rle_emit (Some c) v]) (Some x) 1)
      by reflexivity.
    rewrite S. clear S. destruct (Z.eqb_spec c x) as [<-|Hne].
    + apply (IH r c (v + 1)%Z Hc). lia.
    + destruct (IH (r ++ [rle_emit (Some c) v]) x 1%Z Hx ltac:(lia))
        as (a & tail & E & Sa & Alt).
      exists (rle_emit (Some c) v), (a :: tail). split; [|split].
      * rewrite E, <- app_assoc. reflexivity.
      * unfold rle_emit. destruct (c =? 1)%Z; lia.
      * split; [|exact Alt]. unfold rle_emit.
        destruct Hc as [-> | ->], Hx as [-> | ->]; try congruence; simpl in *; nia.
Qed.

(** X23: the runs of a fingerprint are maximal.  For a {0,1} array with
    at least one cell, no run is zero, consecutive runs have opposite
    signs, and the first run is positive exactly when the first cell is
    1; for an array without cells the run list is the single entry 0. *)
Theorem rle_runs_alternate (g : grid) :
  binary g ->
  (flat g = [] -> runs_of (rle g) = [0%Z]) /\
  (forall x l, flat g = x :: l ->
     exists a tail, runs_of (rle g) = a :: tail /\
       (0 < a <-> x = 1)%Z /\
       Forall (fun v => v <> 0%Z) (a :: tail) /\
       alternating (a :: tail)).
Proof.
  intros B. split.
  - intros E. unfold runs_of, rle. rewrite E.
    destruct (shape g) as [[x y] z]. reflexivity.
  - intros x l E. unfold binary in B. rewrite E in B.
    inversion B as [|? ? Hx Hl]; subst.
    destruct (rle_loop_alternating l Hl (shape_list (shape g)) x 1%Z Hx ltac:(lia))
      as (a & tail & Et & Sa & Alt).
    cbv zeta in Et.
    assert (R : rle g = shape_list (shape g) ++ a :: tail)
      by (unfold rle; rewrite E; exact Et).
    assert (D : runs_of (rle g) = a :: tail)
      by (rewrite R; unfold runs_of; destruct (shape g) as [[? ?] ?]; reflexivity).
    exists a, tail. split; [exact D|]. split; [|split; [|exact Alt]].
    + destruct Hx as [-> | ->]; simpl in Sa; lia.
    + assert (Ha : a <> 0%Z) by (destruct (x =? 1)%Z; lia).
      clear Et D R Sa. revert a Ha Alt.
      induction tail as [|b tail IHt]; intros a Ha Alt.
      * constructor; [exact Ha | constructor].
      * destruct Alt as [Hab Alt]. constructor; [exact Ha|].
        apply IHt; [nia | exact Alt].
Qed.

Lemma rle_runs_alternate_witness :
  let g := Grid (2, 2, 1) [1; 1; 0; 1]%Z in
  binary g /\
  (flat g = [] -> runs_of (rle g) = [0%Z]) /\
  (forall x l, flat g = x :: l ->
     exists a tail, runs_of (rle g) = a :: tail /\
       (0 < a <-> x = 1)%Z /\
       Forall (fun v => v <> 0%Z) (a :: tail) /\
       alternating (a :: tail)).
Proof.
  intros g.
  assert (B : binary g).
  { unfold binary, g. cbn [flat].
    repeat (apply List.Forall_cons; [auto|]). apply List.Forall_nil. }
  split; [exact B|]. exact (rle_runs_alternate g B).
Defined.

(** ** A cached level is trusted as it is *)



(** ** Padding, cropping and rotating commute *)

(** A grid has one tight window only. *)
Lemma tight_window_unique (g y y' : grid) (lo lo' : index) :
  is_window g y lo -> tight y -> is_window g y' lo' -> tight y' -> y = y'.
Proof.
  intros Hw Ty Hw' Ty'.
  assert (L : forall a, proj a lo = proj a lo' /\
                        proj a (shape y) = proj a (shape y')).
  { intros a.
    destruct (Ty a) as [(i0 & Hi0 & Z0) (i1 & Hi1 & Z1)].
    destruct (Ty' a) as [(j0 & Hj0 & Y0) (j1 & Hj1 & Y1)].
    pose proof (win_all _ _ _ Hw' _ (window_up _ _ _ Hw i0 Hi0) a) as A0.
    pose proof (win_all _ _ _ Hw' _ (window_up _ _ _ Hw i1 Hi1) a) as A1.
    pose proof (win_all _ _ _ Hw _ (window_up _ _ _ Hw' j0 Hj0) a) as B0.
    pose proof (win_all _ _ _ Hw _ (window_up _ _ _ Hw' j1 Hj1) a) as B1.
    rewrite proj_add3 in A0, A1, B0, B1. lia. }
  assert (El : lo = lo') by (apply triple_ext; intros a; apply L).
  subst lo'.
  apply grid_ext; [apply (win_wf _ _ _ Hw) | apply (win_wf _ _ _ Hw') | |].
  - apply triple_ext. intros a. apply L.
  - intros i Hi. rewrite (win_get _ _ _ Hw) by exact Hi.
    rewrite (win_get _ _ _ Hw'); [reflexivity|].
    apply in_range_proj. intros a. rewrite in_range_proj in Hi.
    specialize (Hi a). destruct (L a) as [_ <-]. exact Hi.
Qed.

(** X24: [crop_cube] undoes [np.pad]: cropping the padded array gives
    what cropping the array gives, the [IndexError] on an all-zero array
    included.  In particular a tight array comes back unchanged. *)
Theorem crop_cube_pad (g : grid) :
  wf g ->
  crop_cube (pad g) = crop_cube g /\
  (tight g -> crop_cube (pad g) = Ok g).
Proof.
  intros W.
  assert (Hpad : crop_cube (pad g) = crop_cube g).
  { destruct (all_zero (flat g)) eqn:A.
    - rewrite (crop_cube_all_zero g A). apply crop_cube_all_zero.
      apply (all_zero_not_occupied (pad g) (wf_pad g)). intros i Hi.
      destruct (window_down _ _ _ (window_pad g W) i Hi) as [[_ Hn] _].
      apply Hn, get_all_zero, A.
    - assert (Ho : exists i, occupied g i).
      { apply all_zero_false in A. destruct A as (p & Hp & Hn). rewrite W in Hp.
        destruct (offset_surj _ p Hp) as (i & Hi & <-). exists i. split; assumption. }
      destruct (crop_cube_spec g W Ho) as (y & lo & E & Hw & Ty).
      destruct Ho as (i & Hi).
      destruct (crop_cube_spec (pad g) (wf_pad g)) as (y' & lo' & E' & Hw' & Ty').
      { exists (add3 i (1, 1, 1)). apply (window_up _ _ _ (window_pad g W)), Hi. }
      rewrite E, E'. f_equal.
      apply (tight_window_unique (pad g) y' y lo' (add3 lo (1, 1, 1)) Hw' Ty');
        [|exact Ty].
      apply (window_trans _ _ _ _ _ (window_pad g W) Hw). }
  split; [exact Hpad|].
  intros T. rewrite Hpad.
  destruct (crop_cube_spec g W (tight_occupied g T)) as (y & lo & E & Hw & _).
  rewrite E. f_equal. apply (tight_window_id g y lo W T Hw).
Qed.

Lemma crop_cube_pad_witness :
  let g := Grid (1, 2, 2) [0; 0; 1; 1]%Z in
  wf g /\
  crop_cube (pad g) = crop_cube g /\
  (tight g -> crop_cube (pad g) = Ok g).
Proof.
  intros g. assert (W : wf g) by reflexivity.
  split; [exact W|]. exact (crop_cube_pad g W).
Defined.

Lemma padd_origin (v : point) : padd v (zidx (0, 0, 0)) = v.
Proof.
  apply triple_ext. intros a. rewrite proj_padd, proj_zidx.
  destruct a; simpl; lia.
Qed.

(** The bounding box of a rotated {0,1} grid is the rotated bounding
    box. *)
Lemma crop_cube_act (e : Rotation.srot) (g y : grid) :
  Rotation.is_perm e = true -> wf g -> binary g -> crop_cube g = Ok y ->
  crop_cube (Rotation.act e g) = Ok (Rotation.act e y).
Proof.
  intros P W B E.
  assert (Ho : exists i, occupied g i).
  { destruct (all_zero (flat g)) eqn:A.
    - rewrite (crop_cube_all_zero g A) in E. discriminate.
    - apply all_zero_false in A. destruct A as (p & Hp & Hn). rewrite W in Hp.
      destruct (offset_surj _ p Hp) as (i & Hi & <-). exists i. split; assumption. }
  destruct (crop_cube_spec g W Ho) as (y0 & lo & E0 & Hw & Ty).
  rewrite E in E0. injection E0 as <-.
  destruct Ho as (i & Hi).
  destruct (crop_cube_spec (Rotation.act e g) (RotationFacts.wf_act e g))
    as (z & lo' & Ez & Hwz & Tz).
  { exists (image e (shape g) i).
    apply RotationKeeps.occupied_act_image; [exact P | exists i; auto]. }
  rewrite Ez. f_equal.
  destruct (motion_change e (act_shift e (shape g))
              (zidx (0, 0, 0)) (zidx lo) (zidx lo')) as (d' & Hd).
  symmetry.
  apply (moved_unique e (act_shift e (shape y)) d' y).
  - split; [apply RotationFacts.wf_act|]. split.
    + apply RotationKeeps.tight_act; assumption.
    + apply RotationKeeps.binary_act, (binary_window _ _ _ Hw), B.
  - split; [apply (win_wf _ _ _ Hwz)|]. split; [exact Tz|].
    apply (binary_window _ _ _ Hwz), RotationKeeps.binary_act, B.
  - apply moved_act, P.
  - intros w. split.
    + intros Hz.
      assert (H : cell (Rotation.act e g) (padd w (zidx lo')))
        by (apply (window_cells _ _ _ Hwz); exists w; auto).
      apply (moved_act e g P) in H. destruct H as (v & Hv & Ev).
      apply (window_cells _ _ _ Hw) in Hv. destruct Hv as (x & Hx & ->).
      exists x. split; [exact Hx|].
      apply (Hd w (padd x (zidx lo)) x); [apply padd_origin | exact Ev].
    + intros (x & Hx & Ex).
      assert (H : cell (Rotation.act e g) (padd w (zidx lo'))).
      { apply (moved_act e g P). exists (padd x (zidx lo)). split.
        - apply (window_cells _ _ _ Hw). exists x. auto.
        - apply (Hd w (padd x (zidx lo)) x); [apply padd_origin | exact Ex]. }
      apply (window_cells _ _ _ Hwz) in H. destruct H as (v & Hv & Ev).
      apply padd_inj in Ev. subst v. exact Hv.
Qed.

(** X25: cropping commutes with the 24 rotations.  If [crop_cube g]
    returns [y] for a {0,1} array [g], then cropping the arrays yielded by
    [all_rotations g], one after the other, gives the arrays yielded by
    [all_rotations y], in the same order. *)
Theorem crop_cube_all_rotations (g y : grid) :
  wf g -> binary g -> crop_cube g = Ok y ->
  traverse crop_cube (all_rotations g) = Ok (all_rotations y).
Proof.
  intros W B E.
  assert (Wy : wf y).
  { destruct (all_zero (flat g)) eqn:A.
    - rewrite (crop_cube_all_zero g A) in E. discriminate.
    - destruct (crop_cube_spec g W) as (y0 & lo & E0 & Hw & _).
      + apply all_zero_false in A. destruct A as (p & Hp & Hn). rewrite W in Hp.
        destruct (offset_surj _ p Hp) as (i & Hi & <-). exists i. split; assumption.
      + rewrite E in E0. injection E0 as <-. apply (win_wf _ _ _ Hw). }
  rewrite (RotationFacts.all_rotations_act g W), (RotationFacts.all_rotations_act y Wy).
  assert (H : forall l, (forall e, In e l -> Rotation.is_perm e = true) ->
            traverse crop_cube (map (fun e => Rotation.act e g) l)
            = Ok (map (fun e => Rotation.act e y) l)).
  { induction l as [|e l IH]; intros Hl; [reflexivity|].
    cbn [map traverse].
    rewrite (crop_cube_act e g y (Hl e (or_introl eq_refl)) W B E).
    cbv beta iota delta [bind]. rewrite IH by (intros e' He'; apply Hl; right; exact He').
    reflexivity. }
  apply H. intros e He. apply GroupFacts.is_perm_yielded, He.
Qed.

Lemma crop_cube_all_rotations_witness :
  let g := Grid (2, 2, 2) [0; 0; 0; 1; 0; 0; 0; 1]%Z in
  let y := Grid (2, 1, 1) [1; 1]%Z in
  wf g /\ binary g /\ crop_cube g = Ok y /\
  traverse crop_cube (all_rotations g) = Ok (all_rotations y).
Proof.
  intros g y. assert (W : wf g) by reflexivity.
  assert (B : binary g).
  { unfold binary, g. cbn [flat].
    repeat (apply List.Forall_cons; [auto|]). apply List.Forall_nil. }
  assert (E : crop_cube g = Ok y) by reflexivity.
  split; [exact W|]. split; [exact B|]. split; [exact E|].
  exact (crop_cube_all_rotations g y W B E).
Defined.

(** X26: growing commutes with rotating.  For a {0,1} array [g] and any
    [r] yielded by [all_rotations g], every array that [expand_cube r]
    yields is one of the 24 rotations of an array that [expand_cube g]
    yields: which representative of a shape is expanded does not change
    the shapes obtained. *)
Theorem expand_cube_rotation (g r : grid) (ys' : list grid) :
  wf g -> binary g -> In r (all_rotations g) -> expand_cube r = Ok ys' ->
  forall y', In y' ys' ->
  exists ys y, expand_cube g = Ok ys /\ In y ys /\ In y' (all_rotations y).
Proof.
  intros W B Hr E' y' Hy'.
  assert (Wr : wf r).
  { rewrite RotationFacts.all_rotations_act in Hr by exact W.
    apply in_map_iff in Hr. destruct Hr as (e & <- & _). apply RotationFacts.wf_act. }
  pose proof (all_rotations_binary g r W B Hr) as Br.
  destruct (expand_cube_spec r) as (l & El & Hl).
  rewrite E' in El. injection El as <-.
  destruct (Forall2_In_r _ _ _ _ Hl Hy') as (c & _ & p & lo & Hp & -> & Ec & _ & _).
  destruct (expand_positions_spec r p Hp) as (Rp & Hn1 & q & Hq & Hadj).
  assert (Hno : ~ occupied (pad r) p).
  { intros [_ Hn]. destruct (binary_get_pad r p Br Rp); contradiction. }
  destruct (expand_cube_reaches g (pad r) r (1, 1, 1) p q W B (wf_pad r)
              (binary_pad r Br) (window_pad r Wr) Hr Rp Hno Hq Hadj)
    as (ys & y & t' & Ey & Hy & Et' & Hty).
  rewrite Ec in Et'. injection Et' as <-.
  exists ys, y. auto.
Qed.

Lemma expand_cube_rotation_witness :
  let g := ones (2, 1, 1) in
  let r := ones (1, 1, 2) in
  let ys' := [Grid (2, 1, 2) [1; 0; 1; 1]%Z; Grid (2, 1, 2) [0; 1; 1; 1]%Z;
              Grid (1, 2, 2) [1; 0; 1; 1]%Z; Grid (1, 2, 2) [0; 1; 1; 1]%Z;
              ones (1, 1, 3); ones (1, 1, 3);
              Grid (1, 2, 2) [1; 1; 1; 0]%Z; Grid (1, 2, 2) [1; 1; 0; 1]%Z;
              Grid (2, 1, 2) [1; 1; 1; 0]%Z; Grid (2, 1, 2) [1; 1; 0; 1]%Z] in
  wf g /\ binary g /\ In r (all_rotations g) /\ expand_cube r = Ok ys' /\
  forall y', In y' ys' ->
  exists ys y, expand_cube g = Ok ys /\ In y ys /\ In y' (all_rotations y).
Proof.
  intros g r ys'.
  assert (W : wf g) by reflexivity.
  assert (B : binary g) by apply binary_ones.
  assert (Q : expand_cube r = Ok ys') by (vm_compute; reflexivity).
  assert (Hr : In r (all_rotations g)) by (vm_compute; tauto).
  split; [exact W|]. split; [exact B|]. split; [exact Hr|]. split; [exact Q|].
  exact (expand_cube_rotation g r ys' W B Hr Q).
Defined.

(** ** When two yields of expand_cube coincide *)

Lemma proj_pscale a k t : proj a (pscale k t) = (k * proj a t)%Z.
Proof. exact (proj_mk3 (fun a => (k * proj a t)%Z) a). Qed.

Lemma cell_bounds g x a :
  cell g x -> (0 <= proj a x < Z.of_nat (proj a (shape g)))%Z.
Proof.
  intros (i & [Hi _] & ->). rewrite in_range_proj in Hi. specialize (Hi a).
  rewrite proj_zidx. lia.
Qed.

(** One step along [t] from a cell stays inside or lands on [p]. *)
Lemma shifted_step (G : grid) (p p' : index) (t : point) :
  wf G -> in_range (shape G) p -> in_range (shape G) p' ->
  (forall w, cell (set_cell G p 1) (padd w t) <-> cell (set_cell G p' 1) w) ->
  forall x, cell G x -> cell G (padd x t) \/ padd x t = zidx p.
Proof.
  intros W Rp Rp' H x Hx.
  apply (set_cell_cells G p W Rp), H, (set_cell_cells G p' W Rp'). left. exact Hx.
Qed.

Lemma shift_nonzero (G : grid) (p p' : index) (t : point) :
  wf G -> in_range (shape G) p -> in_range (shape G) p' ->
  ~ occupied G p' -> p <> p' ->
  (forall w, cell (set_cell G p 1) (padd w t) <-> cell (set_cell G p' 1) w) ->
  exists a, proj a t <> 0%Z.
Proof.
  intros W Rp Rp' Hn Hne H.
  destruct (Z.eq_dec (proj Ax0 t) 0%Z) as [E0 | N0]; [|exists Ax0; exact N0].
  destruct (Z.eq_dec (proj Ax1 t) 0%Z) as [E1 | N1]; [|exists Ax1; exact N1].
  destruct (Z.eq_dec (proj Ax2 t) 0%Z) as [E2 | N2]; [|exists Ax2; exact N2].
  exfalso.
  assert (Ez : padd (zidx p') t = zidx p').
  { apply triple_ext. intros a. rewrite proj_padd. destruct a; lia. }
  assert (Hc : cell (set_cell G p 1) (zidx p')).
  { rewrite <- Ez. apply H, (set_cell_cells G p' W Rp'). right. reflexivity. }
  apply (set_cell_cells G p W Rp) in Hc. destruct Hc as [Hc | Hc].
  - apply Hn, cell_zidx, Hc.
  - apply Hne. symmetry. apply zidx_inj, Hc.
Qed.

(** If filling [p] gives the translate by [t] of what filling [p'] gives,
    every cell lies on the line through [p] in direction [t], before
    [p]. *)
Lemma shifted_chain (G : grid) (p p' : index) (t : point) :
  wf G -> in_range (shape G) p -> in_range (shape G) p' ->
  ~ occupied G p' -> p <> p' ->
  (forall w, cell (set_cell G p 1) (padd w t) <-> cell (set_cell G p' 1) w) ->
  forall x, cell G x ->
  exists k, (1 <= k)%Z /\ padd x (pscale k t) = zidx p.
Proof.
  intros W Rp Rp' Hn Hne H.
  pose proof (shifted_step G p p' t W Rp Rp' H) as F1.
  destruct (shift_nonzero G p p' t W Rp Rp' Hn Hne H) as (a0 & Ha0).
  set (phi := fun x : point =>
                (proj Ax0 t * proj Ax0 x + proj Ax1 t * proj Ax1 x
                 + proj Ax2 t * proj Ax2 x)%Z).
  set (M := (Z.abs (proj Ax0 t) * Z.of_nat (proj Ax0 (shape G))
             + Z.abs (proj Ax1 t) * Z.of_nat (proj Ax1 (shape G))
             + Z.abs (proj Ax2 t) * Z.of_nat (proj Ax2 (shape G)))%Z).
  assert (Bound : forall x, cell G x -> (phi x <= M)%Z).
  { intros x Hx. pose proof (cell_bounds G x Ax0 Hx). pose proof (cell_bounds G x Ax1 Hx).
    pose proof (cell_bounds G x Ax2 Hx). unfold phi, M. nia. }
  assert (Step : forall x, (phi x + 1 <= phi (padd x t))%Z).
  { intros x. unfold phi. rewrite !proj_padd. destruct a0; nia. }
  assert (Fuel : forall n : nat, forall x, cell G x -> (M - phi x < Z.of_nat n)%Z ->
                 exists k, (1 <= k)%Z /\ padd x (pscale k t) = zidx p).
  { induction n as [|n IH]; intros x Hx Hm.
    - pose proof (Bound x Hx). lia.
    - destruct (F1 x Hx) as [Hc | Ep].
      + destruct (IH (padd x t) Hc) as (k & Hk & Ek).
        { pose proof (Step x). lia. }
        exists (k + 1)%Z. split; [lia|]. rewrite <- Ek.
        apply triple_ext. intros a. rewrite !proj_padd, !proj_pscale. lia.
      + exists 1%Z. split; [lia|]. rewrite <- Ep.
        apply triple_ext. intros a. rewrite !proj_padd, proj_pscale. lia. }
  intros x Hx. apply (Fuel (S (Z.to_nat (M - phi x))) x Hx). lia.
Qed.

(** A frontier cell is an empty cell of the padded {0,1} grid. *)
Lemma frontier_empty (g : grid) (p : index) :
  binary g -> In p (expand_positions g) -> ~ occupied (pad g) p.
Proof.
  intros B Hp [Hr Hn]. destruct (expand_positions_spec g p Hp) as (_ & Hn1 & _).
  destruct (binary_get_pad g p B Hr); contradiction.
Qed.

(** Two frontier cells whose candidates have the same bounding box: the
    grid is a straight bar. *)
Lemma equal_yields_bar (g y : grid) (p p' lo lo' : index) :
  wf g -> binary g -> tight g ->
  In p (expand_positions g) -> In p' (expand_positions g) -> p <> p' ->
  is_window (set_cell (pad g) p 1) y lo ->
  is_window (set_cell (pad g) p' 1) y lo' ->
  bar g.
Proof.
  intros W B T Hp Hp' Hne Hw Hw'.
  destruct (expand_positions_spec g p Hp) as (Rp & _ & q & Hq & Hadj).
  destruct (expand_positions_spec g p' Hp') as (Rp' & _ & _).
  pose proof (frontier_empty g p' B Hp') as Hn'.
  pose proof (window_pad g W) as Hpad.
  set (t := mk3 (fun a => (proj a (zidx lo) - proj a (zidx lo'))%Z) : point).
  assert (H : forall w, cell (set_cell (pad g) p 1) (padd w t)
                        <-> cell (set_cell (pad g) p' 1) w).
  { intros w. rewrite (window_cells _ _ _ Hw), (window_cells _ _ _ Hw'). split.
    - intros (v & Hv & E). exists v. split; [exact Hv|].
      apply triple_ext. intros a.
      assert (Ea : proj a (padd w t) = proj a (padd v (zidx lo))) by (rewrite E; reflexivity).
      rewrite !proj_padd in *. unfold t in Ea. rewrite proj_mk3 in Ea. lia.
    - intros (v & Hv & ->). exists v. split; [exact Hv|].
      apply triple_ext. intros a. rewrite !proj_padd. unfold t. rewrite proj_mk3. lia. }
  pose proof (shifted_chain (pad g) p p' t (wf_pad g) Rp Rp' Hn' Hne H) as Chain.
  pose proof (shifted_step (pad g) p p' t (wf_pad g) Rp Rp' H) as F1.
  (* the step is a unit step *)
  assert (U : exists a, (proj a t = 1 \/ proj a t = -1)%Z /\
                        forall b, b <> a -> proj b t = 0%Z).
  { destruct (Chain (zidx q) (proj2 (cell_zidx _ _) Hq)) as (k & Hk & Ek).
    apply adjacent_near in Hadj. destruct Hadj as (a & Ha & Hb).
    exists a.
    assert (Ec : forall c, (proj c (zidx q) + k * proj c t = proj c (zidx p))%Z).
    { intros c. rewrite <- Ek, proj_padd, proj_pscale. reflexivity. }
    split.
    - pose proof (Ec a). nia.
    - intros b Hne'. pose proof (Ec b). pose proof (Hb b Hne'). nia. }
  destruct U as (a & Ua & Ub).
  (* what this says about the cells of [g] *)
  assert (Cg : forall i, occupied g i ->
             (forall b, b <> a -> proj b i + 1 = proj b p) /\
             exists k, (1 <= k)%Z /\
               (Z.of_nat (proj a i) + 1 + k * proj a t = Z.of_nat (proj a p))%Z).
  { intros i Hi.
    destruct (Chain (zidx (add3 i (1, 1, 1)))) as (k & Hk & Ek).
    { apply cell_zidx, (window_up _ _ _ Hpad), Hi. }
    assert (Ec : forall c, (Z.of_nat (proj c i) + 1 + k * proj c t
                            = Z.of_nat (proj c p))%Z).
    { intros c. rewrite <- (proj_zidx c p), <- Ek, proj_padd, proj_pscale, proj_zidx,
        proj_add3, proj_unit. lia. }
    split.
    - intros b Hb. pose proof (Ec b). rewrite (Ub b Hb) in *. lia.
    - exists k. split; [exact Hk | apply Ec]. }
  assert (Fg : forall i, occupied g i ->
             (exists j, occupied g j /\ zidx j = padd (zidx i) t) \/
             (Z.of_nat (proj a i) + 1 + proj a t = Z.of_nat (proj a p))%Z).
  { intros i Hi.
    destruct (F1 (zidx (add3 i (1, 1, 1)))) as [Hc | Ep].
    { apply cell_zidx, (window_up _ _ _ Hpad), Hi. }
    - left. apply (window_cells _ _ _ Hpad) in Hc.
      destruct Hc as (v & (j & Hj & ->) & Ev). exists j. split; [exact Hj|].
      apply triple_ext. intros c.
      assert (Ec : proj c (padd (zidx (add3 i (1, 1, 1))) t)
                   = proj c (padd (zidx j) (zidx (1, 1, 1)))) by (rewrite Ev; reflexivity).
      rewrite !proj_padd, !proj_zidx, proj_add3 in Ec. rewrite proj_padd, !proj_zidx. lia.
    - right. rewrite <- (proj_zidx a p), <- Ep, proj_padd, proj_zidx, proj_add3, proj_unit.
      lia. }
  assert (Sb : forall b, b <> a -> proj b (shape g) = 1).
  { intros b Hb. destruct (T b) as [(i0 & Hi0 & Z0) (i1 & Hi1 & Z1)].
    pose proof (proj1 (Cg i0 Hi0) b Hb). pose proof (proj1 (Cg i1 Hi1) b Hb). lia. }
  destruct (T a) as [(i0 & Hi0 & Z0) (i1 & Hi1 & Z1)].
  assert (Same : forall i j, in_range (shape g) i -> in_range (shape g) j ->
                 proj a i = proj a j -> i = j).
  { intros i j Hi Hj E. apply triple_ext. intros c.
    destruct (decide (c = a)) as [-> | Hc]; [exact E|].
    rewrite in_range_proj in Hi, Hj. specialize (Hi c). specialize (Hj c).
    rewrite (Sb c Hc) in *. lia. }
  assert (All : forall i, in_range (shape g) i -> occupied g i).
  { destruct Ua as [E1 | E1].
    - (* the bar is walked upwards from its first cell *)
      destruct (proj2 (Cg i1 Hi1)) as (k1 & Hk1 & Ek1). rewrite E1 in Ek1.
      assert (Walk : forall m, m < proj a (shape g) ->
                     exists j, occupied g j /\ proj a j = m).
      { induction m as [|m IH]; intros Hm; [exists i0; auto|].
        destruct IH as (j & Hj & Ej); [lia|].
        destruct (Fg j Hj) as [(j' & Hj' & E') | Ep].
        - exists j'. split; [exact Hj'|].
          assert (Ec : proj a (zidx j') = proj a (padd (zidx j) t)) by (rewrite E'; reflexivity).
          rewrite proj_padd, !proj_zidx, E1 in Ec. lia.
        - rewrite E1 in Ep. lia. }
      intros i Hi. pose proof Hi as Hi'. rewrite in_range_proj in Hi'.
      destruct (Walk (proj a i) (Hi' a)) as (j & Hj & Ej).
      rewrite (Same i j Hi (proj1 Hj) (eq_sym Ej)). exact Hj.
    - (* the bar is walked downwards from its last cell *)
      destruct (proj2 (Cg i0 Hi0)) as (k0 & Hk0 & Ek0). rewrite E1 in Ek0.
      assert (Walk : forall m, m < proj a (shape g) ->
                     exists j, occupied g j /\ proj a j + m + 1 = proj a (shape g)).
      { induction m as [|m IH]; intros Hm; [exists i1; split; [exact Hi1 | lia]|].
        destruct IH as (j & Hj & Ej); [lia|].
        destruct (Fg j Hj) as [(j' & Hj' & E') | Ep].
        - exists j'. split; [exact Hj'|].
          assert (Ec : proj a (zidx j') = proj a (padd (zidx j) t)) by (rewrite E'; reflexivity).
          rewrite proj_padd, !proj_zidx, E1 in Ec. lia.
        - rewrite E1 in Ep. lia. }
      intros i Hi. pose proof Hi as Hi'. rewrite in_range_proj in Hi'.
      destruct (Walk (proj a (shape g) - 1 - proj a i)) as (j & Hj & Ej);
        [specialize (Hi' a); lia|].
      assert (E : proj a i = proj a j) by (specialize (Hi' a); lia).
      rewrite (Same i j Hi (proj1 Hj) E). exact Hj. }
  split; [exists a; exact Sb|].
  intros i Hi. destruct (All i Hi) as [_ Hn].
  destruct (binary_get g i B) as [E0 | E1]; [contradiction | exact E1].
Qed.

(** ** The two ends of a straight bar *)

Lemma lookup_map {A B} (f : A -> B) (l : list A) (i : nat) :
  map f l !! i = f <$> (l !! i).
Proof. revert i. induction l as [|x l IH]; intros [|i]; simpl; auto. Qed.

Lemma axis_eqb_refl a : axis_eqb a a = true.
Proof. apply RotationFacts.axis_eqb_eq. reflexivity. Qed.

Lemma axis_eqb_neq a b : a <> b -> axis_eqb a b = false.
Proof.
  intros H. destruct (axis_eqb a b) eqn:E; [|reflexivity].
  apply RotationFacts.axis_eqb_eq in E. contradiction.
Qed.

(** In the padded copy of a grid whose cells are all 1, the occupied cells
    are the interior. *)
Lemma full_pad_cells (g : grid) (x : point) :
  wf g -> (forall i, in_range (shape g) i -> get g i = 1%Z) ->
  cell (pad g) x <-> forall c, (1 <= proj c x <= Z.of_nat (proj c (shape g)))%Z.
Proof.
  intros W Full. split.
  - intros (j & Hj & ->) c. pose proof (pad_occupied_interior g j Hj c).
    rewrite proj_zidx. lia.
  - intros Hx. set (i := mk3 (fun c => Z.to_nat (proj c x - 1)) : index).
    assert (Hi : occupied g i).
    { assert (R : in_range (shape g) i).
      { apply in_range_proj. intros c. unfold i. rewrite proj_mk3.
        specialize (Hx c). lia. }
      split; [exact R|]. rewrite (Full i R). discriminate. }
    exists (add3 i (1, 1, 1)). split; [apply (window_up _ _ _ (window_pad g W)), Hi|].
    apply triple_ext. intros c. rewrite proj_zidx, proj_add3, proj_unit.
    unfold i. rewrite proj_mk3. specialize (Hx c). lia.
Qed.

(** Growing a straight bar at its two ends gives the same grid twice. *)
Lemma bar_duplicates (g : grid) (l : list grid) :
  wf g -> binary g -> tight g -> bar g -> expand_cube g = Ok l ->
  exists i j y, i <> j /\ l !! i = Some y /\ l !! j = Some y.
Proof.
  intros W B T ((a & Sb) & Full) E.
  destruct (expand_cube_spec g) as (l' & E' & Hl).
  rewrite E in E'. injection E' as <-.
  pose proof (window_pad g W) as Hpad.
  set (n := proj a (shape g)).
  assert (Hn : 1 <= n).
  { destruct (tight_occupied g T) as (i & [Hi _]). rewrite in_range_proj in Hi.
    specialize (Hi a). unfold n. lia. }
  assert (Sc : forall c, proj c (shape g) = if axis_eqb c a then n else 1).
  { intros c. destruct (axis_eqb c a) eqn:Ec.
    - apply RotationFacts.axis_eqb_eq in Ec. subst c. reflexivity.
    - apply Sb. intros ->. rewrite axis_eqb_refl in Ec. discriminate. }
  pose proof (full_pad_cells g) as Cells.
  set (pm := mk3 (fun c => if axis_eqb c a then 0 else 1) : index).
  set (pp := mk3 (fun c => if axis_eqb c a then n + 1 else 1) : index).
  set (qm := mk3 (fun c => 1) : index).
  set (qp := mk3 (fun c => if axis_eqb c a then n else 1) : index).
  assert (Frontier : forall p q,
            (forall c, proj c p < proj c (shape g) + 2) ->
            (proj a p = 0 \/ proj a p = n + 1) ->
            (forall c, 1 <= proj c q <= proj c (shape g)) ->
            adjacent q p -> In p (expand_positions g)).
  { intros p q Rp Out Hq Hadj.
    assert (Rp' : in_range (shape (pad g)) p).
    { apply in_range_proj. intros c. rewrite shape_pad. apply Rp. }
    assert (Np : ~ occupied (pad g) p).
    { intros Ho.
      pose proof (proj1 (Cells (zidx p) W Full) (proj2 (cell_zidx _ _) Ho) a) as Hc.
      rewrite proj_zidx in Hc. fold n in Hc. lia. }
    apply (expand_positions_intro g p q Rp').
    - destruct (Z.eq_dec (get (pad g) p) 0%Z) as [E0 | N0]; [exact E0|].
      exfalso. apply Np. split; assumption.
    - apply cell_zidx, (proj2 (Cells (zidx q) W Full)). intros c. rewrite proj_zidx.
      specialize (Hq c). lia.
    - exact Hadj. }
  assert (Hpm : In pm (expand_positions g)).
  { apply (Frontier pm qm).
    - intros c. unfold pm. rewrite proj_mk3. destruct (axis_eqb c a); lia.
    - left. unfold pm. rewrite proj_mk3, axis_eqb_refl. reflexivity.
    - intros c. unfold qm. rewrite proj_mk3, Sc. destruct (axis_eqb c a); lia.
    - exists a. right. apply triple_ext. intros c.
      rewrite proj_shift_up. unfold qm, pm. rewrite !proj_mk3.
      destruct (axis_eqb c a); reflexivity. }
  assert (Hpp : In pp (expand_positions g)).
  { apply (Frontier pp qp).
    - intros c. unfold pp. rewrite proj_mk3, Sc. destruct (axis_eqb c a); lia.
    - right. unfold pp. rewrite proj_mk3, axis_eqb_refl. reflexivity.
    - intros c. unfold qp. rewrite proj_mk3, Sc. destruct (axis_eqb c a); lia.
    - exists a. left. apply triple_ext. intros c.
      rewrite proj_shift_up. unfold qp, pp. rewrite !proj_mk3.
      destruct (axis_eqb c a); reflexivity. }
  assert (Hne : pm <> pp).
  { intros Eq. assert (Ea : proj a pm = proj a pp) by (rewrite Eq; reflexivity).
    unfold pm, pp in Ea. rewrite !proj_mk3, axis_eqb_refl in Ea. lia. }
  apply list_elem_of_In, list_elem_of_lookup_1 in Hpm, Hpp.
  destruct Hpm as (im & Him). destruct Hpp as (ip & Hip).
  assert (Cm : expand_candidates g !! im = Some (set_cell (pad g) pm 1))
    by (unfold expand_candidates, expand_padded; rewrite lookup_map, Him; reflexivity).
  assert (Cp : expand_candidates g !! ip = Some (set_cell (pad g) pp 1))
    by (unfold expand_candidates, expand_padded; rewrite lookup_map, Hip; reflexivity).
  destruct (Forall2_lookup_l _ _ _ _ _ Hl Cm)
    as (ym & Lm & _ & lom & _ & _ & _ & Hwm & Tm).
  destruct (Forall2_lookup_l _ _ _ _ _ Hl Cp)
    as (yp & Lp & _ & lop & _ & _ & _ & Hwp & Tp).
  exists im, ip, ym. split; [intros ->; congruence|]. split; [exact Lm|].
  rewrite Lp. f_equal.
  (* the two candidates are translates of each other along the bar *)
  assert (Rm : in_range (shape (pad g)) pm).
  { apply in_range_proj. intros c. rewrite shape_pad. unfold pm. rewrite proj_mk3.
    destruct (axis_eqb c a); lia. }
  assert (Rp : in_range (shape (pad g)) pp).
  { apply in_range_proj. intros c. rewrite shape_pad, Sc. unfold pp. rewrite proj_mk3.
    destruct (axis_eqb c a); lia. }
  assert (Km : forall x, cell (set_cell (pad g) pm 1) x <->
               forall c, ((if axis_eqb c a then 0 else 1) <= proj c x
                          <= Z.of_nat (proj c (shape g)))%Z).
  { intros x. rewrite (set_cell_cells (pad g) pm (wf_pad g) Rm), (Cells x W Full). split.
    - intros [Hx | ->] c.
      + specialize (Hx c). destruct (axis_eqb c a); lia.
      + rewrite proj_zidx, Sc. unfold pm. rewrite proj_mk3. destruct (axis_eqb c a); lia.
    - intros Hx. destruct (Z.eq_dec (proj a x) 0%Z) as [E0 | N0].
      + right. apply triple_ext. intros c. rewrite proj_zidx. unfold pm.
        rewrite proj_mk3. specialize (Hx c). rewrite Sc in Hx.
        destruct (axis_eqb c a) eqn:Ec; [|lia].
        apply RotationFacts.axis_eqb_eq in Ec. subst c. lia.
      + left. intros c. specialize (Hx c). destruct (axis_eqb c a) eqn:Ec; [|lia].
        apply RotationFacts.axis_eqb_eq in Ec. subst c. lia. }
  assert (Kp : forall x, cell (set_cell (pad g) pp 1) x <->
               forall c, (1 <= proj c x
                          <= Z.of_nat (proj c (shape g))
                             + (if axis_eqb c a then 1 else 0))%Z).
  { intros x. rewrite (set_cell_cells (pad g) pp (wf_pad g) Rp), (Cells x W Full). split.
    - intros [Hx | ->] c.
      + specialize (Hx c). destruct (axis_eqb c a); lia.
      + rewrite proj_zidx, Sc. unfold pp. rewrite proj_mk3. destruct (axis_eqb c a); lia.
    - intros Hx. destruct (Z.eq_dec (proj a x) (Z.of_nat n + 1)%Z) as [E1 | N1].
      + right. apply triple_ext. intros c. rewrite proj_zidx. unfold pp.
        rewrite proj_mk3. specialize (Hx c). rewrite Sc in Hx.
        destruct (axis_eqb c a) eqn:Ec; [|lia].
        apply RotationFacts.axis_eqb_eq in Ec. subst c. lia.
      + left. intros c. specialize (Hx c). destruct (axis_eqb c a) eqn:Ec; [|lia].
        apply RotationFacts.axis_eqb_eq in Ec. subst c. fold n in Hx. lia. }
  set (d := mk3 (fun c => (proj c (zidx lom) + (if axis_eqb c a then 1 else 0)
                           - proj c (zidx lop))%Z) : point).
  assert (Bm : binary (set_cell (pad g) pm 1)) by apply binary_set_cell, binary_pad, B.
  assert (Bp : binary (set_cell (pad g) pp 1)) by apply binary_set_cell, binary_pad, B.
  symmetry. apply (cells_shift_eq ym yp d).
  - split; [apply (win_wf _ _ _ Hwm)|]. split; [exact Tm|].
    apply (binary_window _ _ _ Hwm), Bm.
  - split; [apply (win_wf _ _ _ Hwp)|]. split; [exact Tp|].
    apply (binary_window _ _ _ Hwp), Bp.
  - intros w.
    assert (Shift : cell (set_cell (pad g) pm 1) (padd w (zidx lom))
                    <-> cell (set_cell (pad g) pp 1) (padd (padd w d) (zidx lop))).
    { rewrite Km, Kp. split; intros Hx c; specialize (Hx c);
        rewrite !proj_padd in *; unfold d in *; rewrite proj_mk3 in *;
        destruct (axis_eqb c a); lia. }
    split.
    + intros Hw.
      assert (H1 : cell (set_cell (pad g) pm 1) (padd w (zidx lom)))
        by (apply (window_cells _ _ _ Hwm); exists w; auto).
      apply Shift, (window_cells _ _ _ Hwp) in H1. destruct H1 as (v & Hv & Ev).
      apply padd_inj in Ev. subst v. exact Hv.
    + intros Hw.
      assert (H1 : cell (set_cell (pad g) pp 1) (padd (padd w d) (zidx lop)))
        by (apply (window_cells _ _ _ Hwp); exists (padd w d); auto).
      apply Shift, (window_cells _ _ _ Hwm) in H1. destruct H1 as (v & Hv & Ev).
      apply padd_inj in Ev. subst v. exact Hv.
Qed.

(** C9, amended: for every bounding-box-tight {0,1} grid, [expand_cube]
    returns, and the grids it yields are pairwise distinct unless the grid
    is a straight bar (all cells occupied, two dimensions equal to 1, the
    single cube included); for a straight bar two of the yielded grids are
    equal (the bar grown at its two ends). *)
Theorem expand_cube_distinct_unless_bar (g : grid) :
  wf g -> binary g -> tight g ->
  exists l, expand_cube g = Ok l /\
    (~ bar g ->
     forall i j y y', i <> j -> l !! i = Some y -> l !! j = Some y' -> y <> y') /\
    (bar g -> exists i j y, i <> j /\ l !! i = Some y /\ l !! j = Some y).
Proof.
  intros W B T. destruct (expand_cube_spec g) as (l & E & Hl).
  exists l. split; [exact E|]. split.
  - intros Nbar i j y y' Hij Hi Hj Eq. subst y'. apply Nbar.
    destruct (Forall2_lookup_r _ _ _ _ _ Hl Hi)
      as (ci & Ci & p & lo & Hp & Ec & _ & Hw & _).
    destruct (Forall2_lookup_r _ _ _ _ _ Hl Hj)
      as (cj & Cj & p' & lo' & Hp' & Ec' & _ & Hw' & _).
    subst ci cj.
    apply (equal_yields_bar g y p p' lo lo' W B T Hp Hp'); [|exact Hw | exact Hw'].
    intros ->. apply Hij.
    apply (NoDup_lookup (expand_candidates g) i j (set_cell (pad g) p' 1));
      [|exact Ci | exact Cj].
    apply NoDup_ListNoDup, NoDup_expand_candidates.
  - intros Hbar. apply (bar_duplicates g l W B T Hbar E).
Qed.

Lemma expand_cube_distinct_unless_bar_witness :
  let g := Grid (2, 2, 1) [1; 1; 0; 1]%Z in
  wf g /\ binary g /\ tight g /\
  exists l, expand_cube g = Ok l /\
    (~ bar g ->
     forall i j y y', i <> j -> l !! i = Some y -> l !! j = Some y' -> y <> y') /\
    (bar g -> exists i j y, i <> j /\ l !! i = Some y /\ l !! j = Some y).
Proof.
  intros g.
  assert (Gg : good g).
  { destruct (generate_level_quick 3) as [_ G].
    assert (Q : quick_level 3 = [ones (3, 1, 1); g]) by (vm_compute; reflexivity).
    rewrite Q in G. apply (proj1 (List.Forall_forall _ _) G). right. left. reflexivity. }
  destruct Gg as (W & T & B).
  split; [exact W|]. split; [exact B|]. split; [exact T|].
  exact (expand_cube_distinct_unless_bar g W B T).
Defined.
